(** * Phenomic core: the [build] command (packages/core/src/commands/build.js)

    A shallow embedding of the build orchestrator and of the helpers it
    defines ([getContentPath], [getContent], [createFetchFunction],
    [prerenderFileAndDependencies], [build]), followed by the properties of
    the orchestration: server life cycle, cleaning, content ingestion,
    plugin contract checks, the prerender fan-out and the output paths.

    How the JavaScript is read:
    - strings are byte strings (their UTF-8 encoding), thrown values are
      [JsError] records, and a promise is the outcome it settles with;
    - the command runs in a state and exception monad over the disk, the
      content store and [process.env], and every call it makes to the
      outside, every line it prints and every debug line is recorded as an
      event of the run;
    - a plugin capability is a function of its arguments only; what the
      code of a plugin does to the disk or to the store is not part of the
      model.  A capability that is awaited where it is called is taken to
      reject when it throws; a [beforeBuild] hook, which is called inside a
      [map], either throws, which ends the [map], or returns a promise;
    - the calls started by one [map] run one after the other, in the
      order of the array, and [Promise.all] reports the first rejection in
      that order; only the prerender fan-out interleaves, under a schedule
      chosen by the host;
    - a write is on the disk as soon as [writeFile] is called: the order in
      which two pending writes to one path land is not modelled;
    - the trace of a fan-out that fails ends with the first rejection: what
      the prerender calls still in flight do after it is not recorded;
    - the time stamps and the elapsed times printed with the console
      messages are left out. *)

From Stdlib Require Import String Ascii List Arith Lia Bool.
From stdpp Require Import gmap strings list fin_maps pretty.

Local Open Scope string_scope.
Local Open Scope list_scope.
Local Open Scope nat_scope.

(** ** JavaScript values used by the command *)

Record JsError := mkError { err_name : string; err_message : string }.

(** [Error(msg)] and [new Error(msg)]. *)
Definition Error (msg : string) : JsError :=
  {| err_name := "Error"; err_message := msg |}.

(** The exception of [decodeURIComponent] on a malformed sequence. *)
Definition URIError : JsError :=
  {| err_name := "URIError"; err_message := "URI malformed" |}.

#[global] Instance JsError_eq_dec : EqDecision JsError.
Proof. solve_decision. Defined.

(** Outcome of a call: a returned (or fulfilled) value, or a thrown (or
    rejected) error. *)
Inductive result (A : Type) : Type :=
| Ok (a : A)
| Throw (e : JsError).
Arguments Ok {A} a.
Arguments Throw {A} e.

(** JavaScript truthiness of a string: only the empty string is falsy. *)
Definition truthy (s : string) : bool :=
  match s with EmptyString => false | _ => true end.

(** [needle] occurs in [hay]. *)
Fixpoint is_substring (needle hay : string) : bool :=
  String.prefix needle hay ||
  match hay with
  | EmptyString => false
  | String _ rest => is_substring needle rest
  end.

(** ** [decodeURIComponent] (ECMA-262, Decode with an empty reserved set) *)

Definition hex_val (c : ascii) : option nat :=
  let n := nat_of_ascii c in
  if (48 <=? n) && (n <=? 57) then Some (n - 48)
  else if (65 <=? n) && (n <=? 70) then Some (n - 55)
  else if (97 <=? n) && (n <=? 102) then Some (n - 87)
  else None.

(** A code unit of the input after the escapes are read: a character
    copied as it is, or the octet of a [%XX] escape. *)
Inductive uri_token : Type :=
| Raw (c : ascii)
| Octet (b : nat).

(** First pass: every [%] must be followed by two hexadecimal digits. *)
Fixpoint uri_tokens (s : string) : option (list uri_token) :=
  match s with
  | EmptyString => Some []
  | String "%" (String h (String l rest)) =>
      match hex_val h, hex_val l, uri_tokens rest with
      | Some hv, Some lv, Some ts => Some (Octet (16 * hv + lv) :: ts)
      | _, _, _ => None
      end
  | String "%" _ => None
  | String c rest =>
      match uri_tokens rest with
      | Some ts => Some (Raw c :: ts)
      | None => None
      end
  end.

Definition in_range (lo hi b : nat) : bool := (lo <=? b) && (b <=? hi).

(** Well-formed UTF-8 sequences of two, three and four octets. *)
Definition utf8_2 (b0 b1 : nat) : bool :=
  in_range 194 223 b0 && in_range 128 191 b1.

Definition utf8_3 (b0 b1 b2 : nat) : bool :=
  ((b0 =? 224) && in_range 160 191 b1
   || in_range 225 236 b0 && in_range 128 191 b1
   || (b0 =? 237) && in_range 128 159 b1
   || in_range 238 239 b0 && in_range 128 191 b1)
  && in_range 128 191 b2.

Definition utf8_4 (b0 b1 b2 b3 : nat) : bool :=
  ((b0 =? 240) && in_range 144 191 b1
   || in_range 241 243 b0 && in_range 128 191 b1
   || (b0 =? 244) && in_range 128 143 b1)
  && in_range 128 191 b2 && in_range 128 191 b3.

Definition octets (bs : list nat) (rest : string) : string :=
  fold_right (fun b acc => String (ascii_of_nat b) acc) rest bs.

(** Second pass: an octet below 128 is a character; a lead octet must be
    followed by the escapes of its continuation octets and the sequence
    must be the UTF-8 encoding of a code point. *)
Fixpoint uri_assemble (ts : list uri_token) : option string :=
  match ts with
  | [] => Some EmptyString
  | Raw c :: rest => String c <$> uri_assemble rest
  | Octet b0 :: rest =>
      if b0 <? 128 then String (ascii_of_nat b0) <$> uri_assemble rest
      else if b0 <? 192 then None
      else if b0 <? 224 then
        match rest with
        | Octet b1 :: rest' =>
            if utf8_2 b0 b1 then octets [b0; b1] <$> uri_assemble rest'
            else None
        | _ => None
        end
      else if b0 <? 240 then
        match rest with
        | Octet b1 :: Octet b2 :: rest' =>
            if utf8_3 b0 b1 b2 then octets [b0; b1; b2] <$> uri_assemble rest'
            else None
        | _ => None
        end
      else if b0 <? 248 then
        match rest with
        | Octet b1 :: Octet b2 :: Octet b3 :: rest' =>
            if utf8_4 b0 b1 b2 b3
            then octets [b0; b1; b2; b3] <$> uri_assemble rest'
            else None
        | _ => None
        end
      else None
  end.

Definition decodeURIComponent (s : string) : result string :=
  match uri_tokens s ≫= uri_assemble with
  | Some d => Ok d
  | None => Throw URIError
  end.

(** ** [path.join] (Node's [path.posix]) *)

(** The segments of a path between its ["/"] separators. *)
Fixpoint split_slash (s : string) : list string :=
  match s with
  | EmptyString => [EmptyString]
  | String c rest =>
      match split_slash rest with
      | seg :: segs =>
          if Ascii.eqb c "/" then EmptyString :: seg :: segs
          else String c seg :: segs
      | [] => [String c EmptyString]
      end
  end.

(** [normalizeString]: [stack] holds the kept segments, last one first. *)
Fixpoint normalizeString (allowAboveRoot : bool) (stack segs : list string)
  : list string :=
  match segs with
  | [] => rev stack
  | seg :: segs' =>
      if String.eqb seg "" || String.eqb seg "." then
        normalizeString allowAboveRoot stack segs'
      else if String.eqb seg ".." then
        match stack with
        | top :: below =>
            if String.eqb top ".." then
              normalizeString allowAboveRoot
                (if allowAboveRoot then ".." :: stack else stack) segs'
            else normalizeString allowAboveRoot below segs'
        | [] =>
            normalizeString allowAboveRoot
              (if allowAboveRoot then [".."] else []) segs'
        end
      else normalizeString allowAboveRoot (seg :: stack) segs'
  end.

Fixpoint join_slash (segs : list string) : string :=
  match segs with
  | [] => ""
  | [seg] => seg
  | seg :: segs' => seg +:+ "/" +:+ join_slash segs'
  end.

Definition last_is_slash (p : string) : bool :=
  match last (split_slash p) with
  | Some "" => true
  | _ => false
  end.

Definition path_normalize (p : string) : string :=
  if String.eqb p "" then "."
  else
    let isAbsolute := String.prefix "/" p in
    let trailingSeparator := last_is_slash p in
    let body := join_slash (normalizeString (negb isAbsolute) [] (split_slash p)) in
    if String.eqb body "" then
      if isAbsolute then "/" else if trailingSeparator then "./" else "."
    else
      let body := if trailingSeparator then body +:+ "/" else body in
      if isAbsolute then "/" +:+ body else body.

(** [path.join(a, b)]: the non-empty arguments joined by ["/"], then
    normalised. *)
Definition path_join (a b : string) : string :=
  let joined :=
    match truthy a, truthy b with
    | true, true => a +:+ "/" +:+ b
    | true, false => a
    | false, true => b
    | false, false => ""
    end in
  path_normalize joined.


(** ** Data model *)

(** Opaque artefacts handed from one plugin to another. *)
Definition Assets := string.
Definition App := string.
Definition Routes := string.

(** [{path, contents}] as returned by [renderStatic]. *)
Record RenderedFile := mkFile { file_path : string; file_contents : string }.

(** A file found in the content folder. *)
Record ContentFile := mkContent { content_name : string; content_raw : string }.

(** The fields of the configuration other than the plugin list; this is
    what a plugin sees of [config]. *)
Record Settings := mkSettings {
  s_path : string;
  s_content : string;
  s_outdir : string
}.

(** The function returned by [createFetchFunction]: it queries the root it
    closes over. *)
Record PhenomicFetch := mkFetch { root : string }.

(** The argument object of [renderStatic]. *)
Record RenderArgs := mkRenderArgs {
  ra_config : Settings;
  ra_app : App;
  ra_assets : Assets;
  ra_phenomicFetch : PhenomicFetch;
  ra_location : string
}.

(** A promise is modelled by the outcome it settles with. *)
Definition Promise (A : Type) : Type := result A.

(** [Promise.all]: the values in order, or the first rejection. *)
Fixpoint Promise_all {A : Type} (ps : list (Promise A)) : Promise (list A) :=
  match ps with
  | [] => Ok []
  | Throw e :: _ => Throw e
  | Ok a :: rest =>
      match Promise_all rest with
      | Ok l => Ok (a :: l)
      | Throw e => Throw e
      end
  end.

(** A plugin: each capability is either absent or a function.  All
    capabilities but [getRoutes] are asynchronous.  The result of
    [beforeBuild] tells a hook that throws from one that returns a promise,
    whatever the promise settles with. *)
Module Plugin.
Record t := mk {
  name : string;
  transform : option (ContentFile -> Promise ContentFile);
  collect : option (ContentFile -> gmap string string
                    -> Promise (gmap string string));
  beforeBuild : option (Settings -> result (Promise unit));
  build : option (Settings -> Promise Assets);
  buildForPrerendering : option (Settings -> Promise App);
  getRoutes : option (App -> result Routes);
  resolveURLs : option (Routes -> PhenomicFetch -> Promise (list string));
  renderStatic : option (RenderArgs -> Promise (list RenderedFile))
}.
End Plugin.

Record PhenomicConfig := mkConfig {
  path : string;
  content : string;
  outdir : string;
  plugins : list Plugin.t
}.

Definition settings (config : PhenomicConfig) : Settings :=
  {| s_path := path config; s_content := content config;
     s_outdir := outdir config |}.

(** A capability is present ([typeof f === "function"], or [f] truthy). *)
Definition has {A : Type} (o : option A) : bool :=
  match o with Some _ => true | None => false end.

(** ** The world the command acts on, and what it is observed to do *)

Record World := mkWorld {
  fs : gmap string string;    (** files on disk: path to contents *)
  db : gmap string string;    (** the content store: id to record *)
  penv : gmap string string   (** [process.env] *)
}.

Inductive DebugMsg : Type :=
| DCleaningDist
| DBuilding
| DServerReady
| DAssets (assets : Assets)
| DApp (app : App)
| DGettingContent
| DCreatingFetch
| DPrepend (location : string)
| DCollected (location : string) (files : list RenderedFile)
| DUrlsResolved
| DUrls (urls : list string)
| DServerClosed
| DServerClosedDueToError.

Inductive ConsoleMsg : Type :=
| CHey
| CClientBuildDone
| CStaticBuildDone
| CContentProcessed
| CNoURLsWarning
| CPrerenderingFinished.

(** What a run is observed to do.  The last two events belong to the
    fan-out: [pMap] calls the mapper for a location, and the promise of
    that call is fulfilled or rejects. *)
Inductive Event : Type :=
| Console (m : ConsoleMsg)
| Warn (folder : string)
| Debug (m : DebugMsg)
| Rimraf (p : string)
| CreateServer
| GetPort
| Listen (port : nat)
| Close
| BeforeBuild (plugin : string)
| Build (plugin : string)
| BuildForPrerendering (plugin : string)
| GetPath (p : string)
| OneShot (p : string)
| DbDestroy
| ProcessFile (file : string)
| GetRoutes (plugin : string)
| ResolveURLs (plugin : string)
| RenderStatic (plugin : string) (location : string)
| WriteFile (p : string) (contents : string)
| Started (location : string)
| Settled (location : string) (fulfilled : bool).

#[global] Instance RenderedFile_eq_dec : EqDecision RenderedFile.
Proof. solve_decision. Defined.
#[global] Instance DebugMsg_eq_dec : EqDecision DebugMsg.
Proof. solve_decision. Defined.
#[global] Instance ConsoleMsg_eq_dec : EqDecision ConsoleMsg.
Proof. solve_decision. Defined.
#[global] Instance Event_eq_dec : EqDecision Event.
Proof. solve_decision. Defined.

(** ** A state and exception monad that records events *)

Record Out (A : Type) : Type := mkOut {
  res : result A;
  world : World;
  events : list Event
}.
Arguments mkOut {A} res world events.
Arguments res {A} o.
Arguments world {A} o.
Arguments events {A} o.

Definition M (A : Type) : Type := World -> Out A.

Definition ret {A : Type} (a : A) : M A := fun w => mkOut (Ok a) w [].

Definition throw {A : Type} (e : JsError) : M A := fun w => mkOut (Throw e) w [].

Definition bind {A B : Type} (m : M A) (f : A -> M B) : M B := fun w =>
  let o := m w in
  match res o with
  | Ok a =>
      let o' := f a (world o) in
      mkOut (res o') (world o') (events o ++ events o')
  | Throw e => mkOut (Throw e) (world o) (events o)
  end.

(** [try { m } catch (error) { handler error }] *)
Definition try_catch {A : Type} (m : M A) (handler : JsError -> M A) : M A :=
  fun w =>
    let o := m w in
    match res o with
    | Ok a => o
    | Throw e =>
        let o' := handler e (world o) in
        mkOut (res o') (world o') (events o ++ events o')
    end.

Definition emit (ev : Event) : M unit := fun w => mkOut (Ok tt) w [ev].

Definition modify (f : World -> World) : M unit := fun w => mkOut (Ok tt) (f w) [].

Definition get : M World := fun w => mkOut (Ok w) w [].

(** [await p]; also the result of a synchronous call that may throw. *)
Definition await {A : Type} (p : result A) : M A := fun w => mkOut p w [].

Declare Scope build_scope.
Delimit Scope build_scope with build.
Notation "x <- c1 ;; c2" := (bind c1 (fun x => c2))
  (at level 100, c1 at next level, c2 at level 200, right associativity)
  : build_scope.
Notation "c1 ;; c2" := (bind c1 (fun _ => c2))
  (at level 100, c2 at level 200, right associativity) : build_scope.
Bind Scope build_scope with M.
Local Open Scope build_scope.

Definition debug (m : DebugMsg) : M unit := emit (Debug m).
Definition console_log (m : ConsoleMsg) : M unit := emit (Console m).

(** [xs.map(f)] for an effectful [f]: the calls run in order and the first
    exception ends the loop. *)
Fixpoint mapM {A B : Type} (f : A -> M B) (xs : list A) : M (list B) :=
  match xs with
  | [] => ret []
  | x :: rest => y <- f x ;; ys <- mapM f rest ;; ret (y :: ys)
  end.

(** ** The collaborators of the command that live outside this file *)

(** Operations of the host whose failure is decided by the host. *)
Inductive Op : Type :=
| OpRimraf (p : string)
| OpCreateServer
| OpListen (port : nat)
| OpDbDestroy
| OpWriteFile (p : string).

(** The argument object of [processFile] (the store goes separately). *)
Record ProcessArgs := mkProcessArgs {
  pa_config : Settings;
  pa_file : ContentFile;
  pa_transformers : list Plugin.t;
  pa_collectors : list Plugin.t
}.

(** What the command cannot decide by itself: which operations fail, the
    port that is free, the content folder and its files, what
    [processFile] does to the store, and which pending prerender settles
    next. *)
Record Host := mkHost {
  fault : Op -> option JsError;
  getPort : Promise nat;
  getPath : string -> Promise string;
  oneShot : string -> list ContentFile;
  processFile : ProcessArgs -> gmap string string
                -> Promise unit * gmap string string;
  settles : nat -> nat
}.

Definition guard (h : Host) (op : Op) : M unit :=
  match fault h op with
  | Some e => throw e
  | None => ret tt
  end.

Definition set_fs (f : gmap string string) (w : World) : World :=
  {| fs := f; db := db w; penv := penv w |}.
Definition set_db (d : gmap string string) (w : World) : World :=
  {| fs := fs w; db := d; penv := penv w |}.
Definition set_penv (e : gmap string string) (w : World) : World :=
  {| fs := fs w; db := db w; penv := e |}.

(** [p] itself or an entry below it.  Paths are compared as they are
    written, relative ones against the same working directory. *)
Definition is_under (p k : string) : bool :=
  String.eqb k p || String.prefix (p +:+ "/") k.

(** [rimraf.sync(p)] *)
Definition rimraf_sync (h : Host) (p : string) : M unit :=
  emit (Rimraf p) ;;
  guard h (OpRimraf p) ;;
  modify (fun w => set_fs (filter (fun kv => is_under p kv.1 = false) (fs w)) w).

(** [process.env[k] = process.env[k] || v] *)
Definition env_default (k v : string) : M unit :=
  modify (fun w =>
    match penv w !! k with
    | Some old => if truthy old then w else set_penv (<[k := v]> (penv w)) w
    | None => set_penv (<[k := v]> (penv w)) w
    end).

(** [process.env[k] = v] *)
Definition env_set (k v : string) : M unit :=
  modify (fun w => set_penv (<[k := v]> (penv w)) w).

(** Modelled from the spec: [createServer] of ../api, which wraps the
    content store in an HTTP server; only its calls are observed. *)
Definition createServer (h : Host) : M unit :=
  emit CreateServer ;; guard h OpCreateServer.

Definition listen (h : Host) (port : nat) : M unit :=
  emit (Listen port) ;; guard h (OpListen port).

Definition close : M unit := emit Close.

(** Modelled from the spec: [db.destroy] of ../db, which empties the
    content store. *)
Definition db_destroy (h : Host) : M (Promise unit) :=
  emit DbDestroy ;;
  match fault h OpDbDestroy with
  | Some e => ret (Throw e)
  | None => modify (set_db ∅) ;; ret (Ok tt)
  end.

(** Modelled from the spec: [writeFile] of ../utils/writeFile, which
    writes [contents] at [p], creating intermediate directories as needed
    and overwriting an existing file. *)
Definition writeFile (h : Host) (p contents : string) : M (Promise unit) :=
  emit (WriteFile p contents) ;;
  match fault h (OpWriteFile p) with
  | Some e => ret (Throw e)
  | None => modify (fun w => set_fs (<[p := contents]> (fs w)) w) ;; ret (Ok tt)
  end.

(** The call [processFile({config, db, file, transformers, collectors})]. *)
Definition call_processFile (h : Host) (args : ProcessArgs) : M (Promise unit) :=
  emit (ProcessFile (content_name (pa_file args))) ;;
  w <- get ;;
  let r := processFile h args (db w) in
  modify (set_db r.2) ;;
  ret r.1.

(** ** build.js *)

(** Lines 21-22. *)
Definition getContentPath (h : Host) (config : PhenomicConfig) : M (Promise string) :=
  let p := path_join (path config) (content config) in
  emit (GetPath p) ;;
  ret (getPath h p).

(** Lines 25-69. *)
Definition getContent (h : Host) (config : PhenomicConfig) : M unit :=
  debug DGettingContent ;;
  let transformers :=
    List.filter (fun item => has (Plugin.transform item)) (plugins config) in
  if length transformers =? 0 then
    throw (Error "Phenomic expects at least a transform plugin")
  else
  let collectors :=
    List.filter (fun item => has (Plugin.collect item)) (plugins config) in
  if length collectors =? 0 then
    throw (Error "Phenomic expects at least a collector plugin")
  else
  contentPath <-
    try_catch
      (p <- getContentPath h config ;; found <- await p ;; ret (Some found))
      (fun e => emit (Warn (content config)) ;; ret None) ;;
  match contentPath with
  | Some contentPath =>
      if truthy contentPath then
        emit (OneShot contentPath) ;;
        let files := oneShot h contentPath in
        destroyed <- db_destroy h ;;
        await destroyed ;;
        processed <-
          mapM (fun file =>
                  call_processFile h
                    {| pa_config := settings config; pa_file := file;
                       pa_transformers := transformers;
                       pa_collectors := collectors |})
               files ;;
        await (Promise_all processed) ;;
        ret tt
      else ret tt
  | None => ret tt
  end.

(** Lines 70-80: the fetch function queries the server at [port]. *)
Definition createFetchFunction (port : nat) : M PhenomicFetch :=
  debug DCreatingFetch ;;
  ret {| root := "http://localhost:" +:+ pretty port |}.

(** [if (!p || !p.cap) throw new Error(msg)], then the capability. *)
Definition capability {A : Type} (p : option Plugin.t)
    (cap : Plugin.t -> option A) (msg : string) : M (Plugin.t * A) :=
  match p with
  | Some plugin =>
      match cap plugin with
      | Some f => ret (plugin, f)
      | None => throw (Error msg)
      end
  | None => throw (Error msg)
  end.

(** A call of [prerenderFileAndDependencies] that is suspended at one of
    its two awaits. *)
Inductive Prerender : Type :=
| Rendering (location : string) (files : Promise (list RenderedFile))
| Writing (location : string) (written : Promise (list unit)).

Definition prerender_location (t : Prerender) : string :=
  match t with
  | Rendering location _ => location
  | Writing location _ => location
  end.

(** Lines 96-102: up to the await of [renderStatic]. *)
Definition prerenderFileAndDependencies (config : PhenomicConfig)
    (renderer : option Plugin.t) (app : App) (assets : Assets)
    (phenomicFetch : PhenomicFetch) (location : string) : M Prerender :=
  debug (DPrepend location) ;;
  checked <-
    capability renderer Plugin.renderStatic
      "a renderer is required (plugin implementing 'renderStatic')" ;;
  let '(plugin, renderStatic) := checked in
  emit (RenderStatic (Plugin.name plugin) location) ;;
  ret (Rendering location
         (renderStatic
            {| ra_config := settings config; ra_app := app;
               ra_assets := assets; ra_phenomicFetch := phenomicFetch;
               ra_location := location |})).

(** Lines 102-117: from one await to the next; [None] when the call has
    returned. *)
Definition prerender_resume (h : Host) (config : PhenomicConfig)
    (t : Prerender) : M (option Prerender) :=
  match t with
  | Rendering location pending =>
      files <- await pending ;;
      debug (DCollected location files) ;;
      writes <-
        mapM (fun file =>
                decoded <- await (decodeURIComponent (file_path file)) ;;
                writeFile h (path_join (outdir config) decoded)
                  (file_contents file))
             files ;;
      ret (Some (Writing location (Promise_all writes)))
  | Writing location written =>
      await written ;;
      ret None
  end.

(** ** [pMap] *)

(** Raised by the model when the pool is asked to observe more
    settlements than it was given room for.  [build] gives room for the
    two awaits of each call, and [pMap_ok] shows that a pool given that
    much fails only when a call has rejected. *)
Definition PoolStalled : JsError :=
  {| err_name := "PoolStalled"; err_message := "the pool did not settle" |}.

Definition ConcurrencyError : JsError :=
  {| err_name := "TypeError";
     err_message := "Expected `concurrency` to be a number from 1 and up" |}.

Section Pool.
Context {Task : Type}.
(** A call of the mapper, run up to its first await. *)
Variable mapper : string -> M Task.
(** A suspended call run up to its next await, [None] once it returns. *)
Variable resume : Task -> M (option Task).
Variable location_of : Task -> string.
(** Which of the calls in flight is the next one to go on. *)
Variable pick : nat -> nat.
Variable concurrency : nat.

(** The pool calls the mapper; a call that throws at once settles as a
    rejection. *)
Definition pool_start (location : string) : M Task :=
  emit (Started location) ;;
  try_catch (mapper location)
    (fun e => emit (Settled location false) ;; throw e).

Definition pool_resume (t : Task) : M (option Task) :=
  next <- try_catch (resume t)
            (fun e => emit (Settled (location_of t) false) ;; throw e) ;;
  match next with
  | Some t' => ret (Some t')
  | None => emit (Settled (location_of t) true) ;; ret None
  end.

(** Start queued calls while fewer than [concurrency] are in flight. *)
Fixpoint pool_fill (queue : list string) (inflight : list Task)
  : M (list string * list Task) :=
  match queue with
  | [] => ret ([], inflight)
  | location :: rest =>
      if length inflight <? concurrency then
        t <- pool_start location ;;
        pool_fill rest (inflight ++ [t])
      else ret (queue, inflight)
  end.

(** One call in flight goes on to its next await or returns; a returned
    call frees its place for the next queued one. *)
Definition pool_step (k : nat) (queue : list string) (inflight : list Task)
  : M (list string * list Task) :=
  let i := pick k mod length inflight in
  match inflight !! i with
  | None => ret (queue, inflight)
  | Some t =>
      next <- pool_resume t ;;
      match next with
      | Some t' => ret (queue, <[i := t']> inflight)
      | None => pool_fill queue (delete i inflight)
      end
  end.

Fixpoint pool_run (fuel k : nat) (queue : list string) (inflight : list Task)
  : M unit :=
  match inflight with
  | [] => ret tt
  | _ :: _ =>
      match fuel with
      | 0 => throw PoolStalled
      | S fuel' =>
          st <- pool_step k queue inflight ;;
          pool_run fuel' (S k) st.1 st.2
      end
  end.

(** Modelled from the spec: [pMap(input, mapper, {concurrency})] of the
    p-map package, a pool that keeps at most [concurrency] calls of the
    mapper in flight, starts them in the order of [input], and rejects
    with the first rejection without waiting for the calls still in
    flight.  [fuel] bounds the number of settlements observed. *)
Definition pMap (fuel : nat) (input : list string) : M unit :=
  if concurrency =? 0 then throw ConcurrencyError
  else
    st <- pool_fill input [] ;;
    pool_run fuel 0 st.1 st.2.
End Pool.

(** ** [build] *)

(** Lines 120-131: cleaning, environment defaults, server start. *)
Definition build_start (h : Host) (config : PhenomicConfig) : M nat :=
  console_log CHey ;;
  debug DCleaningDist ;;
  rimraf_sync h "dist" ;;
  env_default "NODE_ENV" "production" ;;
  env_default "BABEL_ENV" "production" ;;
  env_set "PHENOMIC_ENV" "static" ;;
  debug DBuilding ;;
  createServer h ;;
  emit GetPort ;;
  port <- await (getPort h) ;;
  listen h port ;;
  debug DServerReady ;;
  ret port.

(** Line 137: [plugin => plugin.beforeBuild && plugin.beforeBuild(config)];
    a plugin without the hook contributes a value that is not a promise,
    and a hook that throws leaves the [map]. *)
Definition call_beforeBuild (config : PhenomicConfig) (plugin : Plugin.t)
  : M (Promise unit) :=
  match Plugin.beforeBuild plugin with
  | Some beforeBuild =>
      emit (BeforeBuild (Plugin.name plugin)) ;;
      await (beforeBuild (settings config))
  | None => ret (Ok tt)
  end.

(** Lines 133-208: the [try] block. *)
Definition build_try (h : Host) (config : PhenomicConfig) (port : nat) : M unit :=
  let bundlers :=
    List.filter (fun p => has (Plugin.buildForPrerendering p)) (plugins config) in
  let bundler := head bundlers in
  hooks <- mapM (call_beforeBuild config) (plugins config) ;;
  await (Promise_all hooks) ;;
  checked <-
    capability bundler Plugin.build
      "a bundler is required (plugin implementing `build`)" ;;
  emit (Build (Plugin.name checked.1)) ;;
  assets <- await (checked.2 (settings config)) ;;
  debug (DAssets assets) ;;
  console_log CClientBuildDone ;;
  checked <-
    capability bundler Plugin.buildForPrerendering
      "a bundler is required (plugin implementing `buildForPrerendering`)" ;;
  emit (BuildForPrerendering (Plugin.name checked.1)) ;;
  app <- await (checked.2 (settings config)) ;;
  debug (DApp app) ;;
  console_log CStaticBuildDone ;;
  getContent h config ;;
  console_log CContentProcessed ;;
  phenomicFetch <- createFetchFunction port ;;
  let renderers :=
    List.filter (fun p => has (Plugin.getRoutes p)) (plugins config) in
  let renderer := head renderers in
  checked <-
    capability renderer Plugin.getRoutes
      "a renderer is required (plugin implementing `getRoutes`)" ;;
  let getRoutes := checked in
  let urlsResolvers :=
    List.filter (fun p => has (Plugin.resolveURLs p)) (plugins config) in
  let urlsResolver := head urlsResolvers in
  checked <-
    capability urlsResolver Plugin.resolveURLs
      "an urls-resolver is required (plugin implementing resolveURLs)" ;;
  let resolveURLs := checked in
  emit (GetRoutes (Plugin.name getRoutes.1)) ;;
  routes <- await (getRoutes.2 app) ;;
  emit (ResolveURLs (Plugin.name resolveURLs.1)) ;;
  urls <- await (resolveURLs.2 routes phenomicFetch) ;;
  debug DUrlsResolved ;;
  debug (DUrls urls) ;;
  (if length urls =? 0 then console_log CNoURLsWarning else ret tt) ;;
  pMap (fun location =>
          prerenderFileAndDependencies config renderer app assets
            phenomicFetch location)
       (prerender_resume h config) prerender_location (settles h)
       50 (2 * length urls) urls ;;
  console_log CPrerenderingFinished ;;
  close ;;
  debug DServerClosed.

(** Lines 209-213: the [catch] block. *)
Definition build_catch (error : JsError) : M unit :=
  close ;;
  debug DServerClosedDueToError ;;
  throw error.

(** Lines 119-214. *)
Definition build (h : Host) (config : PhenomicConfig) : M unit :=
  port <- build_start h config ;;
  try_catch (build_try h config port) build_catch.

(** ** The phases of a build *)

Inductive Phase : Type :=
| Cleaning
| ServerStarting
| BeforeBuildHooks
| ClientBundling
| AppBundling
| Ingesting
| ResolvingRoutes
| Prerendering
| ServerClosing.

Definition rank (ph : Phase) : nat :=
  match ph with
  | Cleaning => 0
  | ServerStarting => 1
  | BeforeBuildHooks => 2
  | ClientBundling => 3
  | AppBundling => 4
  | Ingesting => 5
  | ResolvingRoutes => 6
  | Prerendering => 7
  | ServerClosing => 8
  end.

(** The phase an event belongs to. *)
Definition phase_of (ev : Event) : Phase :=
  match ev with
  | Console CHey | Debug DCleaningDist | Rimraf _ => Cleaning
  | Debug DBuilding | CreateServer | GetPort | Listen _
  | Debug DServerReady => ServerStarting
  | BeforeBuild _ => BeforeBuildHooks
  | Build _ | Debug (DAssets _) | Console CClientBuildDone => ClientBundling
  | BuildForPrerendering _ | Debug (DApp _)
  | Console CStaticBuildDone => AppBundling
  | Debug DGettingContent | GetPath _ | Warn _ | OneShot _ | DbDestroy
  | ProcessFile _ | Console CContentProcessed => Ingesting
  | Debug DCreatingFetch | GetRoutes _ | ResolveURLs _ | Debug DUrlsResolved
  | Debug (DUrls _) | Console CNoURLsWarning => ResolvingRoutes
  | Started _ | Debug (DPrepend _) | RenderStatic _ _ | Debug (DCollected _ _)
  | WriteFile _ _ | Settled _ _ | Console CPrerenderingFinished => Prerendering
  | Close | Debug DServerClosed | Debug DServerClosedDueToError => ServerClosing
  end.

Definition in_phase (ph : Phase) (ev : Event) : Prop := phase_of ev = ph.

Definition before (ph : Phase) (ev : Event) : Prop :=
  rank (phase_of ev) < rank ph.

(** ** Vocabulary of the properties *)

(** Every event of every run of [m] satisfies [P]. *)
Definition emits {A} (P : Event -> Prop) (m : M A) : Prop :=
  forall w, Forall P (events (m w)).

(** [Q] holds of a run that fails after events in [P] only, and is kept
    when events in [P] are put in front of a run. *)
Record Skippable {B} (P : Event -> Prop) (Q : Out B -> Prop) : Prop := {
  skip_fail : forall e w ev, Forall P ev -> Q (mkOut (Throw e) w ev);
  skip_pre : forall o pre,
    Forall P pre -> Q o -> Q (mkOut (res o) (world o) (pre ++ events o))
}.

Definition is_close (ev : Event) : bool :=
  match ev with Close => true | _ => false end.

(** How many times the server was closed in a trace. *)
Definition closes (tr : list Event) : nat := length (List.filter is_close tr).

(** A run of the [try] block that succeeds closes the server as its last
    action, and a run that throws does not close it. *)
Definition closes_at_end (o : Out unit) : Prop :=
  match res o with
  | Ok _ =>
      exists tr, events o = tr ++ [Close; Debug DServerClosed] /\ closes tr = 0
  | Throw _ => closes (events o) = 0
  end.

(** ** Sample plugins, hosts and worlds *)

Module Demo.
Definition port_taken : JsError := Error "no port available".
Definition boom : JsError := Error "boom".

(** A bundler with both of its capabilities. *)
Definition bundler : Plugin.t :=
  {| Plugin.name := "bundler";
     Plugin.transform := None; Plugin.collect := None;
     Plugin.beforeBuild := None;
     Plugin.build := Some (fun _ => Ok "assets");
     Plugin.buildForPrerendering := Some (fun _ => Ok "app");
     Plugin.getRoutes := None; Plugin.resolveURLs := None;
     Plugin.renderStatic := None |}.

(** A plugin that only implements [build]. *)
Definition client_only : Plugin.t :=
  {| Plugin.name := "client-only";
     Plugin.transform := None; Plugin.collect := None;
     Plugin.beforeBuild := None;
     Plugin.build := Some (fun _ => Ok "client assets");
     Plugin.buildForPrerendering := None;
     Plugin.getRoutes := None; Plugin.resolveURLs := None;
     Plugin.renderStatic := None |}.

(** A plugin whose [beforeBuild] hook rejects. *)
Definition failing_hook : Plugin.t :=
  {| Plugin.name := "failing-hook";
     Plugin.transform := None; Plugin.collect := None;
     Plugin.beforeBuild := Some (fun _ => Ok (Throw boom));
     Plugin.build := None; Plugin.buildForPrerendering := None;
     Plugin.getRoutes := None; Plugin.resolveURLs := None;
     Plugin.renderStatic := None |}.

(** Transforms a file into itself and stores it under its name. *)
Definition markdown : Plugin.t :=
  {| Plugin.name := "markdown";
     Plugin.transform := Some (fun file => Ok file);
     Plugin.collect :=
       Some (fun file store =>
               Ok (<[content_name file := content_raw file]> store));
     Plugin.beforeBuild := None;
     Plugin.build := None; Plugin.buildForPrerendering := None;
     Plugin.getRoutes := None; Plugin.resolveURLs := None;
     Plugin.renderStatic := None |}.

(** Renders the page of a location as one file. *)
Definition page (location : string) : RenderedFile :=
  {| file_path := location +:+ ".html"; file_contents := "<html>" |}.

Definition renderer : Plugin.t :=
  {| Plugin.name := "renderer";
     Plugin.transform := None; Plugin.collect := None;
     Plugin.beforeBuild := None;
     Plugin.build := None; Plugin.buildForPrerendering := None;
     Plugin.getRoutes := Some (fun _ => Ok "routes");
     Plugin.resolveURLs := None;
     Plugin.renderStatic := Some (fun args => Ok [page (ra_location args)]) |}.

(** Implements [getRoutes] but not [renderStatic]. *)
Definition routes_only : Plugin.t :=
  {| Plugin.name := "routes-only";
     Plugin.transform := None; Plugin.collect := None;
     Plugin.beforeBuild := None;
     Plugin.build := None; Plugin.buildForPrerendering := None;
     Plugin.getRoutes := Some (fun _ => Ok "routes");
     Plugin.resolveURLs := None;
     Plugin.renderStatic := None |}.

(** Resolves the routes to the given URLs. *)
Definition resolver (urls : list string) : Plugin.t :=
  {| Plugin.name := "resolver";
     Plugin.transform := None; Plugin.collect := None;
     Plugin.beforeBuild := None;
     Plugin.build := None; Plugin.buildForPrerendering := None;
     Plugin.getRoutes := None;
     Plugin.resolveURLs := Some (fun _ _ => Ok urls);
     Plugin.renderStatic := None |}.

Definition config_of (out : string) (ps : list Plugin.t) : PhenomicConfig :=
  {| path := "/site"; content := "content"; outdir := out; plugins := ps |}.

(** A complete configuration that renders the given URLs. *)
Definition site (urls : list string) : PhenomicConfig :=
  config_of "dist" [bundler; markdown; renderer; resolver urls].

(** The content store of [processFile]: every file is stored under its
    name. *)
Definition store_file (args : ProcessArgs) (store : gmap string string)
  : Promise unit * gmap string string :=
  (Ok tt,
   <[content_name (pa_file args) := content_raw (pa_file args)]> store).

(** A host on which nothing fails; the content folder holds one file and
    the oldest pending prerender goes on first. *)
Definition host : Host :=
  {| fault := fun _ => None;
     getPort := Ok 3000;
     getPath := fun p => Ok p;
     oneShot := fun _ => [ {| content_name := "a.md"; content_raw := "A" |} ];
     processFile := store_file;
     settles := fun _ => 0 |}.

(** No port can be allocated. *)
Definition host_without_port : Host :=
  {| fault := fun _ => None;
     getPort := Throw port_taken;
     getPath := fun p => Ok p;
     oneShot := fun _ => [];
     processFile := store_file;
     settles := fun _ => 0 |}.

(** The content folder does not exist. *)
Definition host_without_content : Host :=
  {| fault := fun _ => None;
     getPort := Ok 3000;
     getPath := fun p => Throw (Error "ENOENT");
     oneShot := fun _ => [];
     processFile := store_file;
     settles := fun _ => 0 |}.

(** Files and records left by an earlier build. *)
Definition world : World :=
  {| fs := {[ "dist/old.html" := "old"; "public/old.html" := "old" ]};
     db := {[ "stale.md" := "stale" ]};
     penv := ∅ |}.
(** A renderer whose second file has a path that is not a well-formed
    percent-encoding. *)
Definition careless_files : list RenderedFile :=
  [ {| file_path := "first.html"; file_contents := "1" |};
    {| file_path := "100%.html"; file_contents := "2" |};
    {| file_path := "last.html"; file_contents := "3" |} ].

Definition careless_renderer : Plugin.t :=
  {| Plugin.name := "careless";
     Plugin.transform := None; Plugin.collect := None;
     Plugin.beforeBuild := None;
     Plugin.build := None; Plugin.buildForPrerendering := None;
     Plugin.getRoutes := Some (fun _ => Ok "routes");
     Plugin.resolveURLs := None;
     Plugin.renderStatic := Some (fun _ => Ok careless_files) |}.

(** The URLs of [n] pages. *)
Definition pages (n : nat) : list string :=
  map (fun i => "/page/" +:+ pretty i) (seq 0 n).

(** A host on which the youngest pending prerender goes on first. *)
Definition host_youngest_first : Host :=
  {| fault := fun _ => None;
     getPort := Ok 3000;
     getPath := fun p => Ok p;
     oneShot := fun _ => [];
     processFile := store_file;
     settles := fun k => 49 |}.

(** A plugin that transforms files but stores nothing. *)
Definition transform_only : Plugin.t :=
  {| Plugin.name := "transform-only";
     Plugin.transform := Some (fun file => Ok file);
     Plugin.collect := None;
     Plugin.beforeBuild := None;
     Plugin.build := None; Plugin.buildForPrerendering := None;
     Plugin.getRoutes := None; Plugin.resolveURLs := None;
     Plugin.renderStatic := None |}.

(** The environment of a developer's shell: [BABEL_ENV] is set, but to
    the empty string. *)
Definition developer_world : World :=
  {| fs := ∅; db := ∅;
     penv := {[ "NODE_ENV" := "development"; "BABEL_ENV" := "";
                "HOME" := "/home/dev" ]} |}.

(** A plugin that can render but has no routes. *)
Definition render_only : Plugin.t :=
  {| Plugin.name := "render-only";
     Plugin.transform := None; Plugin.collect := None;
     Plugin.beforeBuild := None;
     Plugin.build := None; Plugin.buildForPrerendering := None;
     Plugin.getRoutes := None; Plugin.resolveURLs := None;
     Plugin.renderStatic := Some (fun _ => Ok []) |}.

(** A plugin whose [beforeBuild] hook is fulfilled. *)
Definition quiet_hook : Plugin.t :=
  {| Plugin.name := "quiet-hook";
     Plugin.transform := None; Plugin.collect := None;
     Plugin.beforeBuild := Some (fun _ => Ok (Ok tt));
     Plugin.build := None; Plugin.buildForPrerendering := None;
     Plugin.getRoutes := None; Plugin.resolveURLs := None;
     Plugin.renderStatic := None |}.

(** [db.destroy] fails. *)
Definition host_failing_destroy : Host :=
  {| fault := fun op => match op with OpDbDestroy => Some boom | _ => None end;
     getPort := Ok 3000;
     getPath := fun p => Ok p;
     oneShot := fun _ => [ {| content_name := "a.md"; content_raw := "A" |} ];
     processFile := store_file;
     settles := fun _ => 0 |}.

Definition disk_full : JsError := Error "ENOSPC".

(** No file can be written. *)
Definition host_disk_full : Host :=
  {| fault := fun op => match op with OpWriteFile _ => Some disk_full | _ => None end;
     getPort := Ok 3000;
     getPath := fun p => Ok p;
     oneShot := fun _ => [];
     processFile := store_file;
     settles := fun _ => 0 |}.

(** [processFile] rejects the file [a.md] and stores the others. *)
Definition picky_store (args : ProcessArgs) (store : gmap string string)
  : Promise unit * gmap string string :=
  if String.eqb (content_name (pa_file args)) "a.md" then (Throw boom, store)
  else store_file args store.

(** The content folder holds two files, the first of which is rejected. *)
Definition host_two_files : Host :=
  {| fault := fun _ => None;
     getPort := Ok 3000;
     getPath := fun p => Ok p;
     oneShot := fun _ => [ {| content_name := "a.md"; content_raw := "A" |};
                           {| content_name := "b.md"; content_raw := "B" |} ];
     processFile := picky_store;
     settles := fun _ => 0 |}.

(** [getPath] resolves to the empty string. *)
Definition host_blank_path : Host :=
  {| fault := fun _ => None;
     getPort := Ok 3000;
     getPath := fun p => Ok "";
     oneShot := fun _ => [];
     processFile := store_file;
     settles := fun _ => 0 |}.

(** Hooks before and after one that rejects. *)
Definition hooked : PhenomicConfig :=
  config_of "dist"
    [quiet_hook; failing_hook; bundler; quiet_hook].

(** A plugin whose [beforeBuild] hook throws before it returns. *)
Definition throwing_hook : Plugin.t :=
  {| Plugin.name := "throwing-hook";
     Plugin.transform := None; Plugin.collect := None;
     Plugin.beforeBuild := Some (fun _ => Throw boom);
     Plugin.build := None; Plugin.buildForPrerendering := None;
     Plugin.getRoutes := None; Plugin.resolveURLs := None;
     Plugin.renderStatic := None |}.

(** Hooks before and after one that throws. *)
Definition hooked_throwing : PhenomicConfig :=
  config_of "dist"
    [quiet_hook; throwing_hook; bundler; quiet_hook].

End Demo.

(** [m] leaves the content store as it found it. *)
Definition keeps_db {A} (m : M A) : Prop :=
  forall w, db (world (m w)) = db w.

(** A world-aware variant of [Skippable]: the skipped steps relate the
    world they start from to the world they leave by [R]. *)
Record SkippableW {B} (R : World -> World -> Prop) (P : Event -> Prop)
    (Q : World -> Out B -> Prop) : Prop := {
  skipw_fail : forall w w' e ev,
    R w w' -> Forall P ev -> Q w (mkOut (Throw e) w' ev);
  skipw_pre : forall w w' o pre,
    R w w' -> Forall P pre -> Q w' o ->
    Q w (mkOut (res o) (world o) (pre ++ events o))
}.

(** The arguments [getContent] passes to [processFile] for [file]. *)
Definition process_args (config : PhenomicConfig) (file : ContentFile)
  : ProcessArgs :=
  {| pa_config := settings config; pa_file := file;
     pa_transformers :=
       List.filter (fun item => has (Plugin.transform item)) (plugins config);
     pa_collectors :=
       List.filter (fun item => has (Plugin.collect item)) (plugins config) |}.

(** The store after [processFile] has run on each of [files] in turn. *)
Definition ingest (h : Host) (config : PhenomicConfig)
    (files : list ContentFile) (store : gmap string string)
  : gmap string string :=
  fold_left (fun store file => (processFile h (process_args config file) store).2)
    files store.

(** The store built from nothing out of the files of [contentPath]. *)
Definition rebuilt_store (h : Host) (config : PhenomicConfig)
    (contentPath : string) : gmap string string :=
  ingest h config (oneShot h contentPath) ∅.

(** What a run does to the store: if [db.destroy] was called and did not
    fail, the store is the one rebuilt from the content folder; if it was
    not called, the store is the one the run started with. *)
Definition store_outcome {A} (h : Host) (config : PhenomicConfig)
    (w : World) (o : Out A) : Prop :=
  (In DbDestroy (events o) -> fault h OpDbDestroy = None ->
   exists contentPath,
     getPath h (path_join (path config) (content config)) = Ok contentPath /\
     db (world o) = rebuilt_store h config contentPath) /\
  (~ In DbDestroy (events o) -> db (world o) = db w).

(** No plugin of the configuration has the capability [cap]. *)
Definition lacks {A} (cap : Plugin.t -> option A) (config : PhenomicConfig)
  : Prop :=
  Forall (fun p => cap p = None) (plugins config).

(** Some plugin of the configuration has the capability [cap]. *)
Definition provides {A} (cap : Plugin.t -> option A) (config : PhenomicConfig)
  : Prop :=
  Exists (fun p => has (cap p) = true) (plugins config).

(** What the [beforeBuild] hooks of the configuration give, in the order
    of the plugins: a hook throws, or returns a promise that is fulfilled
    or rejects. *)
Definition hook_outcomes (config : PhenomicConfig)
  : list (result (Promise unit)) :=
  map (fun plugin =>
         match Plugin.beforeBuild plugin with
         | Some beforeBuild => beforeBuild (settings config)
         | None => Ok (Ok tt)
         end)
      (plugins config).

(** No hook throws and none returns a promise that rejects. *)
Definition no_hook_rejects (config : PhenomicConfig) : Prop :=
  Forall (fun outcome => outcome = Ok (Ok tt)) (hook_outcomes config).

(** The three errors of the singleton roles. *)
Definition bundler_required : JsError :=
  Error "a bundler is required (plugin implementing `build`)".

(** A run that fails without any event of the prerender phase. *)
Definition stops_before_prerender {A} (o : Out A) : Prop :=
  (exists e, res o = Throw e) /\
  Forall (fun ev => phase_of ev <> Prerendering) (events o).

(** [R] holds of a run in which the event [X] occurred. *)
Definition after {A} (X : Event) (R : Out A -> Prop) (o : Out A) : Prop :=
  In X (events o) -> R o.

(** The two errors of the ingestion. *)
Definition transform_required : JsError :=
  Error "Phenomic expects at least a transform plugin".
Definition collector_required : JsError :=
  Error "Phenomic expects at least a collector plugin".

(** [p] is the first plugin of the configuration with the capability
    [cap]. *)
Definition first_with {A} (cap : Plugin.t -> option A)
    (config : PhenomicConfig) (p : Plugin.t) : Prop :=
  exists earlier later,
    plugins config = earlier ++ p :: later /\
    has (cap p) = true /\
    Forall (fun q => cap q = None) earlier.

(** The calls of the two bundler capabilities go to the first plugin that
    has [buildForPrerendering]. *)
Definition bundler_call_ok (config : PhenomicConfig) (ev : Event) : Prop :=
  match ev with
  | Build plugin | BuildForPrerendering plugin =>
      exists p,
        first_with Plugin.buildForPrerendering config p /\
        Plugin.name p = plugin
  | _ => True
  end.

Definition bundler_calls_ok {A} (config : PhenomicConfig) (o : Out A) : Prop :=
  Forall (bundler_call_ok config) (events o).

(** Lines 184-208 of [build], from the debug line that prints the resolved
    URLs to the end of the [try] block, as they run once [app], [assets]
    and [phenomicFetch] are known. *)
Definition prerendering (h : Host) (config : PhenomicConfig) (app : App)
    (assets : Assets) (phenomicFetch : PhenomicFetch) (urls : list string)
  : M unit :=
  debug (DUrls urls) ;;
  (if length urls =? 0 then console_log CNoURLsWarning else ret tt) ;;
  pMap (fun location =>
          prerenderFileAndDependencies config
            (head (List.filter (fun p => has (Plugin.getRoutes p)) (plugins config)))
            app assets phenomicFetch location)
       (prerender_resume h config) prerender_location (settles h)
       50 (2 * length urls) urls ;;
  console_log CPrerenderingFinished ;;
  close ;;
  debug DServerClosed.

(** An event of the phases that come before the prerendering, other than
    the debug line of the resolved URLs. *)
Definition early (ev : Event) : Prop :=
  before Prerendering ev /\ forall urls, ev <> Debug (DUrls urls).

(** The run [o] ends with a run of [prerendering] on [urls], after events
    of the earlier phases only. *)
Definition reaches_prerendering (h : Host) (config : PhenomicConfig)
    (urls : list string) (o : Out unit) : Prop :=
  exists pre app assets phenomicFetch w',
    Forall early pre /\
    res o = res (prerendering h config app assets phenomicFetch urls w') /\
    events o = pre ++ events (prerendering h config app assets phenomicFetch urls w').

(** The fan-out of [build] over [urls]. *)
Definition fanout (h : Host) (config : PhenomicConfig) (app : App)
    (assets : Assets) (phenomicFetch : PhenomicFetch) (urls : list string)
  : M unit :=
  pMap (fun location =>
          prerenderFileAndDependencies config
            (head (List.filter (fun p => has (Plugin.getRoutes p)) (plugins config)))
            app assets phenomicFetch location)
       (prerender_resume h config) prerender_location (settles h)
       50 (2 * length urls) urls.

(** Every run of [m] leaves a trace in [Q]. *)
Definition traces {A} (Q : list Event -> Prop) (m : M A) : Prop :=
  forall w, Q (events (m w)).

(** A property of traces that holds of the empty trace and of the
    concatenation of two traces that have it. *)
Record Closed (Q : list Event -> Prop) : Prop := {
  closed_nil : Q [];
  closed_app : forall t1 t2, Q t1 -> Q t2 -> Q (t1 ++ t2)
}.

(** The calls of [writeFile] made for the files of one render result: one
    per file, in order, up to the first path that [decodeURIComponent]
    rejects. *)
Fixpoint write_calls (out : string) (files : list RenderedFile) : list Event :=
  match files with
  | [] => []
  | file :: rest =>
      match decodeURIComponent (file_path file) with
      | Ok decoded =>
          WriteFile (path_join out decoded) (file_contents file)
          :: write_calls out rest
      | Throw _ => []
      end
  end.

(** The path of a file is a well-formed percent-encoding. *)
Definition decodable (file : RenderedFile) : Prop :=
  exists decoded, decodeURIComponent (file_path file) = Ok decoded.

(** How an event changes the number of prerender calls in flight: the
    pool starts a call, or the call settles. *)
Definition tick (n : nat) (ev : Event) : nat :=
  match ev with
  | Started _ => S n
  | Settled _ _ => pred n
  | _ => n
  end.

(** The number of prerender calls in flight at the end of a trace. *)
Definition in_flight (tr : list Event) : nat := fold_left tick tr 0.

(** Along [tr], entered with [n] calls in flight, at most [c] calls are
    ever in flight. *)
Fixpoint within (c n : nat) (tr : list Event) : Prop :=
  n <= c /\
  match tr with
  | [] => True
  | ev :: tr' => within c (tick n ev) tr'
  end.

(** An event that neither starts nor settles a call. *)
Definition neutral (ev : Event) : Prop :=
  match ev with
  | Started _ | Settled _ _ => False
  | _ => True
  end.

(** Every run of [m], entered with [n] calls in flight, keeps at most [c]
    in flight, and a run that returns [a] leaves [count a] in flight. *)
Definition paced {A} (c n : nat) (count : A -> nat) (m : M A) : Prop :=
  forall w,
    within c n (events (m w)) /\
    match res (m w) with
    | Ok a => fold_left tick (events (m w)) n = count a
    | Throw _ => True
    end.

(** At most [c] calls are in flight along the trace of the run. *)
Definition bounded {A} (c : nat) (o : Out A) : Prop := within c 0 (events o).

(** A prerender call that settles with a rejection. *)
Definition rejected (ev : Event) : bool :=
  match ev with
  | Settled _ false => true
  | _ => false
  end.

(** The call of the mapper for [location] has settled with success in
    [tr], and [tr] shows what [Post] asks of it. *)
Definition finished (Post : string -> list Event -> Prop) (location : string)
    (tr : list Event) : Prop :=
  Post location tr /\ In (Settled location true) tr.

(** What a pool computation that returns the queue and the calls in flight
    achieves, from the trace [tr], the queue [queue] and the calls
    [inflight]: on success the calls in flight satisfy [Inv] and no location
    is lost, and on failure a rejection has been observed. *)
Definition pool_keeps {Task} (location_of : Task -> string)
    (rank : Task -> nat) (R concurrency : nat)
    (Inv : Task -> list Event -> Prop) (Post : string -> list Event -> Prop)
    (tr : list Event) (queue : list string) (inflight : list Task)
    (o : Out (list string * list Task)) : Prop :=
  match res o with
  | Ok st =>
      Forall (fun t => Inv t (tr ++ events o)) st.2 /\
      (forall location,
          In location (map location_of inflight ++ queue) ->
          In location (map location_of st.2 ++ st.1) \/
          finished Post location (tr ++ events o)) /\
      (st.1 = [] \/ concurrency <= length st.2) /\
      list_sum (map rank st.2) + R * length st.1
      <= list_sum (map rank inflight) + R * length queue
  | Throw _ => exists location, In (Settled location false) (events o)
  end.

(** The number of awaits a suspended prerender still has to pass. *)
Definition prerender_rank (t : Prerender) : nat :=
  match t with
  | Rendering _ _ => 2
  | Writing _ _ => 1
  end.

(** [tr] shows that [renderStatic] was called for [location], that it
    returned [files], and that each of them was handed to [writeFile] at its
    decoded path under [out]. *)
Definition rendered (out : string) (location : string) (tr : list Event) : Prop :=
  exists plugin files,
    In (RenderStatic plugin location) tr /\
    In (Debug (DCollected location files)) tr /\
    forall file,
      In file files ->
      exists decoded,
        decodeURIComponent (file_path file) = Ok decoded /\
        In (WriteFile (path_join out decoded) (file_contents file)) tr.

(** What the trace shows of a suspended prerender. *)
Definition prerender_inv (out : string) (t : Prerender) (tr : list Event) : Prop :=
  match t with
  | Rendering location _ => exists plugin, In (RenderStatic plugin location) tr
  | Writing location _ => rendered out location tr
  end.

(** The largest number of prerender calls in flight along a trace. *)
Definition peak (tr : list Event) : nat :=
  (fold_left (fun acc ev => (tick acc.1 ev, Nat.max acc.2 (tick acc.1 ev)))
     tr (0, 0)).2.

(** ** Vocabulary of the further properties *)

(** [R] relates the trace of a computation to the world it starts from and
    to the world it leaves; a chained relation holds when nothing happens
    and of one computation run after another. *)
Record Chained (R : list Event -> World -> World -> Prop) : Prop := {
  chained_nil : forall w, R [] w w;
  chained_app : forall t1 t2 w1 w2 w3,
    R t1 w1 w2 -> R t2 w2 w3 -> R (t1 ++ t2) w1 w3
}.

(** Every run of [m] is in [R]. *)
Definition effect {A} (R : list Event -> World -> World -> Prop) (m : M A)
  : Prop :=
  forall w, R (events (m w)) w (world (m w)).

(** The run leaves [process.env] as it found it. *)
Definition same_env (tr : list Event) (w w' : World) : Prop := penv w' = penv w.

(** The value of [process.env[k] || v]. *)
Definition env_or (k v : string) (e : gmap string string) : string :=
  match e !! k with
  | Some old => if truthy old then old else v
  | None => v
  end.

(** [process.env] after [process.env[k] = process.env[k] || v]. *)
Definition default_env (k v : string) (e : gmap string string)
  : gmap string string :=
  match e !! k with
  | Some old => if truthy old then e else <[k := v]> e
  | None => <[k := v]> e
  end.

(** [process.env] after lines 124 to 126. *)
Definition build_env (e : gmap string string) : gmap string string :=
  <["PHENOMIC_ENV" := "static"]>
    (default_env "BABEL_ENV" "production"
       (default_env "NODE_ENV" "production" e)).

(** What a recorded call of [rimraf.sync] or of [writeFile] does to the
    disk. *)
Definition disk_step (h : Host) (disk : gmap string string) (ev : Event)
  : gmap string string :=
  match ev with
  | Rimraf p =>
      match fault h (OpRimraf p) with
      | Some _ => disk
      | None => filter (fun kv => is_under p kv.1 = false) disk
      end
  | WriteFile p contents =>
      match fault h (OpWriteFile p) with
      | Some _ => disk
      | None => <[p := contents]> disk
      end
  | _ => disk
  end.

(** The disk after the calls recorded in [tr]. *)
Definition replay (h : Host) (tr : list Event) (disk : gmap string string)
  : gmap string string :=
  fold_left (disk_step h) tr disk.

(** The disk a run leaves is the one its recorded calls make. *)
Definition replays (h : Host) (tr : list Event) (w w' : World) : Prop :=
  fs w' = replay h tr (fs w).

(** No call of [writeFile] in [tr] is for the path [p]. *)
Definition unwritten (p : string) (tr : list Event) : Prop :=
  forall contents, ~ In (WriteFile p contents) tr.

(** No event of [tr] belongs to an earlier phase than an event that comes
    before it. *)
Fixpoint in_order (tr : list Event) : Prop :=
  match tr with
  | [] => True
  | ev :: rest =>
      Forall (fun ev' => rank (phase_of ev) <= rank (phase_of ev')) rest /\
      in_order rest
  end.

(** The events of [o] are in the order of the phases, and none is of a
    phase before the one of rank [r]. *)
Definition in_order_from {A} (r : nat) (o : Out A) : Prop :=
  in_order (events o) /\
  Forall (fun ev => r <= rank (phase_of ev)) (events o).

(** The fetch function of a build whose server listens on [port]. *)
Definition fetch_at (port : nat) : PhenomicFetch :=
  {| root := "http://localhost:" +:+ pretty port |}.

(** How lines 133 to 182 obtain what the prerendering works on: [assets]
    and [app] are returned by the two capabilities of the first plugin with
    [buildForPrerendering], and [urls] by [resolveURLs] of the first plugin
    that has it, called with the routes that [getRoutes] of the first
    plugin that has it returns for [app] and with the fetch function of
    the server. *)
Definition resolved (config : PhenomicConfig) (port : nat) (assets : Assets)
    (app : App) (urls : list string) : Prop :=
  exists bundler build buildForPrerendering renderer getRoutes resolver
         resolveURLs routes,
    first_with Plugin.buildForPrerendering config bundler /\
    Plugin.build bundler = Some build /\
    build (settings config) = Ok assets /\
    Plugin.buildForPrerendering bundler = Some buildForPrerendering /\
    buildForPrerendering (settings config) = Ok app /\
    first_with Plugin.getRoutes config renderer /\
    Plugin.getRoutes renderer = Some getRoutes /\
    getRoutes app = Ok routes /\
    first_with Plugin.resolveURLs config resolver /\
    Plugin.resolveURLs resolver = Some resolveURLs /\
    resolveURLs routes (fetch_at port) = Ok urls.

(** An event of the phases up to the resolution of the routes, other than
    the debug line of the resolved URLs and the warning that follows it. *)
Definition preliminary (ev : Event) : Prop :=
  early ev /\ ev <> Console CNoURLsWarning.

(** The run [o] ends with the prerendering of [urls], obtained as
    [resolved] says, after preliminary events only. *)
Definition reaches_resolved (h : Host) (config : PhenomicConfig) (port : nat)
    (urls : list string) (o : Out unit) : Prop :=
  exists pre assets app w',
    Forall preliminary pre /\
    resolved config port assets app urls /\
    res o = res (prerendering h config app assets (fetch_at port) urls w') /\
    events o
    = pre ++ events (prerendering h config app assets (fetch_at port) urls w').

(** The argument [renderStatic] is called with for [location]. *)
Definition render_args (config : PhenomicConfig) (port : nat) (assets : Assets)
    (app : App) (location : string) : RenderArgs :=
  {| ra_config := settings config; ra_app := app; ra_assets := assets;
     ra_phenomicFetch := fetch_at port; ra_location := location |}.

(** What [renderStatic] returned for a location is what the renderer of
    the build returns for the arguments of line 102, and the location is
    one of [urls]. *)
Definition collected_ok (config : PhenomicConfig) (port : nat)
    (assets : Assets) (app : App) (urls : list string) (ev : Event) : Prop :=
  match ev with
  | Debug (DCollected location files) =>
      In location urls /\
      exists renderer renderStatic,
        first_with Plugin.getRoutes config renderer /\
        Plugin.renderStatic renderer = Some renderStatic /\
        renderStatic (render_args config port assets app location) = Ok files
  | _ => True
  end.

(** What a suspended prerender of the build waits for. *)
Definition prerender_pending (config : PhenomicConfig) (port : nat)
    (assets : Assets) (app : App) (urls : list string) (t : Prerender) : Prop :=
  match t with
  | Rendering location pending =>
      In location urls /\
      exists renderer renderStatic,
        first_with Plugin.getRoutes config renderer /\
        Plugin.renderStatic renderer = Some renderStatic /\
        pending = renderStatic (render_args config port assets app location)
  | Writing _ _ => True
  end.

(** The calls of [getRoutes] and of [renderStatic] go to the first plugin
    that has [getRoutes], and the call of [resolveURLs] to the first plugin
    that has it. *)
Definition role_call_ok (config : PhenomicConfig) (ev : Event) : Prop :=
  match ev with
  | GetRoutes plugin | RenderStatic plugin _ =>
      exists p, first_with Plugin.getRoutes config p /\ Plugin.name p = plugin
  | ResolveURLs plugin =>
      exists p, first_with Plugin.resolveURLs config p /\ Plugin.name p = plugin
  | _ => True
  end.

Definition role_calls_ok {A} (config : PhenomicConfig) (o : Out A) : Prop :=
  Forall (role_call_ok config) (events o).

(** Every call of [writeFile] in [tr] is for a file of a result of
    [renderStatic] shown in [tr]: its path is the decoded path of the file
    under [out] and its contents are those of the file. *)
Definition writes_have_source (out : string) (tr : list Event) : Prop :=
  forall p contents,
    In (WriteFile p contents) tr ->
    exists location files file decoded,
      In (Debug (DCollected location files)) tr /\
      In file files /\
      decodeURIComponent (file_path file) = Ok decoded /\
      p = path_join out decoded /\
      contents = file_contents file.

Definition is_hook_call (ev : Event) : bool :=
  match ev with BeforeBuild _ => true | _ => false end.

(** The calls of line 137: the plugins that have [beforeBuild] are called
    in their order, up to and including the first one whose hook throws. *)
Fixpoint hook_calls_of (s : Settings) (ps : list Plugin.t) : list Event :=
  match ps with
  | [] => []
  | plugin :: rest =>
      match Plugin.beforeBuild plugin with
      | Some beforeBuild =>
          BeforeBuild (Plugin.name plugin)
          :: match beforeBuild s with
             | Ok _ => hook_calls_of s rest
             | Throw _ => []
             end
      | None => hook_calls_of s rest
      end
  end.

Definition hook_calls (config : PhenomicConfig) : list Event :=
  hook_calls_of (settings config) (plugins config).

(** One call for each plugin that has [beforeBuild], in the order of the
    plugins. *)
Definition all_hook_calls (config : PhenomicConfig) : list Event :=
  flat_map (fun plugin =>
              match Plugin.beforeBuild plugin with
              | Some _ => [BeforeBuild (Plugin.name plugin)]
              | None => []
              end)
           (plugins config).

(** No hook throws: each one returns a promise. *)
Definition no_hook_throws (config : PhenomicConfig) : Prop :=
  Forall (fun outcome => exists hook : Promise unit, outcome = Ok hook)
    (hook_outcomes config).

(** What the calls of [processFile] for [files] settle with, each call
    working on the store the one before has left. *)
Fixpoint process_outcomes (h : Host) (config : PhenomicConfig)
    (files : list ContentFile) (store : gmap string string)
  : list (Promise unit) :=
  match files with
  | [] => []
  | file :: rest =>
      let r := processFile h (process_args config file) store in
      r.1 :: process_outcomes h config rest r.2
  end.

(** The calls of [processFile] for [files]. *)
Definition process_calls (files : list ContentFile) : list Event :=
  map (fun file => ProcessFile (content_name file)) files.

(** A run in which [db.destroy] was called fails with [e], has called
    [processFile] for no file and leaves the store of [w]. *)
Definition stops_at_destroy {A} (e : JsError) (w : World) (o : Out A) : Prop :=
  In DbDestroy (events o) ->
  res o = Throw e /\
  (forall file, ~ In (ProcessFile file) (events o)) /\
  db (world o) = db w.

(** An event other than the call of [db.destroy] and the calls of
    [processFile]. *)
Definition not_ingesting (ev : Event) : Prop :=
  ev <> DbDestroy /\ forall file, ev <> ProcessFile file.

(** Whenever the event [X] occurs in a run of [m], the run fails, with an
    error in [F]. *)
Definition fatal {A} (X : Event) (F : JsError -> Prop) (m : M A) : Prop :=
  forall w, In X (events (m w)) -> exists e, res (m w) = Throw e /\ F e.

(** The line that ends a phase. *)
Definition completion (ph : Phase) : option Event :=
  match ph with
  | ServerStarting => Some (Debug DServerReady)
  | ClientBundling => Some (Console CClientBuildDone)
  | AppBundling => Some (Console CStaticBuildDone)
  | Ingesting => Some (Console CContentProcessed)
  | ResolvingRoutes => Some (Debug DUrlsResolved)
  | _ => None
  end.

(** If [o] shows an event of a later phase than the one of [X], it shows
    [X]. *)
Definition passed {A} (X : Event) (o : Out A) : Prop :=
  forall ev,
    In ev (events o) ->
    rank (phase_of X) < rank (phase_of ev) ->
    In X (events o).

(** A run that succeeds shows [X]. *)
Definition shows_on_success {A} (X : Event) (o : Out A) : Prop :=
  (exists a, res o = Ok a) -> In X (events o).

#[global] Instance Phase_eq_dec : EqDecision Phase.
Proof. solve_decision. Defined.

(** Wherever [tr] shows that [renderStatic] returned [files], the calls of
    [writeFile] for them follow at once. *)
Definition writes_at_once (out : string) (tr : list Event) : Prop :=
  forall tr1 tr2 location files,
    tr = tr1 ++ Debug (DCollected location files) :: tr2 ->
    exists tr3, tr2 = write_calls out files ++ tr3.

(** A suspended prerender one of whose writes has failed: it rejects when
    it goes on. *)
Definition write_failed (t : Prerender) : Prop :=
  match t with
  | Writing _ (Throw _) => True
  | _ => False
  end.

(** The event is a call of [writeFile] for the path [p]. *)
Definition writes_to (p : string) (ev : Event) : bool :=
  match ev with
  | WriteFile q _ => String.eqb q p
  | _ => false
  end.

(** The calls and the console lines that the command makes at one place,
    outside any loop over the plugins, the content files, the URLs or the
    rendered files. *)
Inductive Single : Type :=
| SRimraf
| SCreateServer
| SGetPort
| SListen
| SBuild
| SBuildForPrerendering
| SGetPath
| SOneShot
| SDbDestroy
| SGetRoutes
| SResolveURLs
| SPrint (m : ConsoleMsg).

#[global] Instance Single_eq_dec : EqDecision Single.
Proof. solve_decision. Defined.

Definition single_of (ev : Event) : option Single :=
  match ev with
  | Rimraf _ => Some SRimraf
  | CreateServer => Some SCreateServer
  | GetPort => Some SGetPort
  | Listen _ => Some SListen
  | Build _ => Some SBuild
  | BuildForPrerendering _ => Some SBuildForPrerendering
  | GetPath _ => Some SGetPath
  | OneShot _ => Some SOneShot
  | DbDestroy => Some SDbDestroy
  | GetRoutes _ => Some SGetRoutes
  | ResolveURLs _ => Some SResolveURLs
  | Console m => Some (SPrint m)
  | _ => None
  end.

(** Where in the source a single call or line is made: the rank of its
    line among lines 120, 122, 128, 129, 130, 143, 145, 154, 156, 42, 52,
    56, 161, 182 ([getRoutes], then [resolveURLs]), 186 and 205, in the
    order in which a run comes to them. *)
Definition position (s : Single) : nat :=
  match s with
  | SPrint CHey => 0
  | SRimraf => 1
  | SCreateServer => 2
  | SGetPort => 3
  | SListen => 4
  | SBuild => 5
  | SPrint CClientBuildDone => 6
  | SBuildForPrerendering => 7
  | SPrint CStaticBuildDone => 8
  | SGetPath => 9
  | SOneShot => 10
  | SDbDestroy => 11
  | SPrint CContentProcessed => 12
  | SGetRoutes => 13
  | SResolveURLs => 14
  | SPrint CNoURLsWarning => 15
  | SPrint CPrerenderingFinished => 16
  end.

(** The positions of the single calls and lines of a trace, in the order
    of the trace. *)
Definition positions (tr : list Event) : list nat :=
  map position (omap single_of tr).

(** The numbers of [l] increase strictly, from [r] or above. *)
Fixpoint ascending_from (r : nat) (l : list nat) : Prop :=
  match l with
  | [] => True
  | x :: l' => r <= x /\ ascending_from (S x) l'
  end.

Definition in_source_order {A} (r : nat) (o : Out A) : Prop :=
  ascending_from r (positions (events o)).

(** How many times [s] occurs in a trace. *)
Definition occurrences (s : Single) (tr : list Event) : nat :=
  length (List.filter (fun ev => bool_decide (single_of ev = Some s)) tr).

(** An event other than the line "static build done", the call of
    [db.destroy] and the calls of [processFile]. *)
Definition before_ingestion (ev : Event) : Prop :=
  not_ingesting ev /\ ev <> Console CStaticBuildDone.

(** Either the run has printed "static build done" and has then run
    [getContent], and it calls [db.destroy] and [processFile] nowhere
    else; or it shows neither the line nor any of these calls. *)
Definition ingestion_outcome (h : Host) (config : PhenomicConfig)
    (o : Out unit) : Prop :=
  (exists pre w' post,
      In (Console CStaticBuildDone) pre /\
      Forall not_ingesting pre /\
      Forall not_ingesting post /\
      events o = pre ++ events (getContent h config w') ++ post) \/
  Forall before_ingestion (events o).

(** [tr] shows that [location] was rendered into [files] and that the
    files were written: [renderStatic] was called for the location, the
    debug line of line 109 shows [files], every file of them was handed to
    [writeFile] at its decoded path under [out] with its contents, and the
    prerender call has settled with success. *)
Definition rendered_into (out location : string) (files : list RenderedFile)
    (tr : list Event) : Prop :=
  (exists plugin, In (RenderStatic plugin location) tr) /\
  In (Debug (DCollected location files)) tr /\
  (forall file,
      In file files ->
      exists decoded,
        decodeURIComponent (file_path file) = Ok decoded /\
        In (WriteFile (path_join out decoded) (file_contents file)) tr) /\
  In (Settled location true) tr.

(** A suspended prerender that will not reject: [renderStatic] has
    returned files whose paths are all well formed, or all the writes have
    succeeded. *)
Definition prerender_sound (t : Prerender) : Prop :=
  match t with
  | Rendering _ pending =>
      exists files, pending = Ok files /\ Forall decodable files
  | Writing _ written => exists l, written = Ok l
  end.

(** The event is the call of [writeFile] for [file]: at the percent-decoded
    path of the file joined to [out], with the contents of the file. *)
Definition write_of (out : string) (file : RenderedFile) (ev : Event) : Prop :=
  exists decoded,
    decodeURIComponent (file_path file) = Ok decoded /\
    ev = WriteFile (path_join out decoded) (file_contents file).

(** Wherever [tr] shows that [renderStatic] returned [files] for
    [location], the calls of [writeFile] for them follow at once; and when
    one of the paths is malformed, the prerender call of the location
    rejects right after them. *)
Definition writes_stop (out : string) (tr : list Event) : Prop :=
  forall tr1 tr2 location files,
    tr = tr1 ++ Debug (DCollected location files) :: tr2 ->
    exists tr3,
      tr2 = write_calls out files ++ tr3 /\
      (~ Forall decodable files -> exists tr4, tr3 = Settled location false :: tr4).

(** * Properties *)

(** ** The built-ins on examples *)

Example decode_space : decodeURIComponent "a%20b.html" = Ok "a b.html".
Proof. reflexivity. Qed.

Example decode_lone_percent : decodeURIComponent "100%.html" = Throw URIError.
Proof. reflexivity. Qed.

Example decode_bad_digit : decodeURIComponent "%zz" = Throw URIError.
Proof. reflexivity. Qed.

(** U+2713 is E2 9C 93 in UTF-8; hexadecimal digits of both cases. *)
Example decode_check_mark :
  decodeURIComponent "%E2%9c%93" =
  Ok (String (ascii_of_nat 226) (String (ascii_of_nat 156)
        (String (ascii_of_nat 147) EmptyString))).
Proof. reflexivity. Qed.

(** An overlong encoding, a surrogate, and a lead octet whose
    continuation is not escaped. *)
Example decode_overlong : decodeURIComponent "%C0%80" = Throw URIError.
Proof. reflexivity. Qed.

Example decode_surrogate : decodeURIComponent "%ED%A0%80" = Throw URIError.
Proof. reflexivity. Qed.

Example decode_raw_continuation : decodeURIComponent "%C3x" = Throw URIError.
Proof. reflexivity. Qed.

Example join_plain : path_join "outdir" "a b.html" = "outdir/a b.html".
Proof. reflexivity. Qed.

Example join_dotdot : path_join "dist" "../x/./y//z.html" = "x/y/z.html".
Proof. reflexivity. Qed.

Example join_above : path_join "a" "../../c" = "../c".
Proof. reflexivity. Qed.

Example join_root : path_join "/a/b" "../../../c" = "/c".
Proof. reflexivity. Qed.

Example join_trailing : path_join "dist" "dir/" = "dist/dir/".
Proof. reflexivity. Qed.

Example join_empty : path_join "" "" = ".".
Proof. reflexivity. Qed.

(** ** Runs of the monad *)

Lemma bind_res {A B} (m : M A) (f : A -> M B) w :
  res (bind m f w) =
  match res (m w) with
  | Ok a => res (f a (world (m w)))
  | Throw e => Throw e
  end.
Proof. unfold bind. destruct (res (m w)); reflexivity. Qed.

Lemma bind_events {A B} (m : M A) (f : A -> M B) w :
  events (bind m f w) =
  events (m w) ++
  match res (m w) with
  | Ok a => events (f a (world (m w)))
  | Throw e => []
  end.
Proof.
  unfold bind. destruct (res (m w)); simpl; [reflexivity|].
  symmetry. apply app_nil_r.
Qed.

Lemma bind_world {A B} (m : M A) (f : A -> M B) w :
  world (bind m f w) =
  match res (m w) with
  | Ok a => world (f a (world (m w)))
  | Throw e => world (m w)
  end.
Proof. unfold bind. destruct (res (m w)); reflexivity. Qed.

Lemma try_catch_res {A} (m : M A) (handler : JsError -> M A) w :
  res (try_catch m handler w) =
  match res (m w) with
  | Ok a => Ok a
  | Throw e => res (handler e (world (m w)))
  end.
Proof. unfold try_catch. destruct (res (m w)) eqn:E; simpl; auto. Qed.

Lemma try_catch_events {A} (m : M A) (handler : JsError -> M A) w :
  events (try_catch m handler w) =
  events (m w) ++
  match res (m w) with
  | Ok a => []
  | Throw e => events (handler e (world (m w)))
  end.
Proof.
  unfold try_catch. destruct (res (m w)); simpl; [|reflexivity].
  symmetry. apply app_nil_r.
Qed.

Lemma try_catch_world {A} (m : M A) (handler : JsError -> M A) w :
  world (try_catch m handler w) =
  match res (m w) with
  | Ok a => world (m w)
  | Throw e => world (handler e (world (m w)))
  end.
Proof. unfold try_catch. destruct (res (m w)); reflexivity. Qed.

Section Emits.
Variable P : Event -> Prop.

Lemma emits_ret {A} (a : A) : emits P (ret a).
Proof. intros w. constructor. Qed.

Lemma emits_throw {A} (e : JsError) : emits P (@throw A e).
Proof. intros w. constructor. Qed.

Lemma emits_await {A} (p : result A) : emits P (await p).
Proof. intros w. constructor. Qed.

Lemma emits_get : emits P get.
Proof. intros w. constructor. Qed.

Lemma emits_modify f : emits P (modify f).
Proof. intros w. constructor. Qed.

Lemma emits_emit ev : P ev -> emits P (emit ev).
Proof. intros H w. repeat constructor. exact H. Qed.

Lemma emits_bind {A B} (m : M A) (f : A -> M B) :
  emits P m -> (forall a, emits P (f a)) -> emits P (bind m f).
Proof.
  intros Hm Hf w. rewrite bind_events. apply Forall_app. split; [apply Hm|].
  destruct (res (m w)); [apply Hf | constructor].
Qed.

Lemma emits_try_catch {A} (m : M A) handler :
  emits P m -> (forall e, emits P (handler e)) -> emits P (try_catch m handler).
Proof.
  intros Hm Hh w. rewrite try_catch_events. apply Forall_app.
  split; [apply Hm|]. destruct (res (m w)); [constructor | apply Hh].
Qed.

Lemma emits_mapM {A B} (f : A -> M B) xs :
  (forall x, emits P (f x)) -> emits P (mapM f xs).
Proof.
  intros Hf. induction xs as [|x xs IH]; simpl.
  - apply emits_ret.
  - apply emits_bind; [apply Hf|]. intros y.
    apply emits_bind; [apply IH|]. intros ys. apply emits_ret.
Qed.

Lemma emits_guard h op : emits P (guard h op).
Proof. unfold guard. destruct (fault h op); [apply emits_throw | apply emits_ret]. Qed.
End Emits.

Lemma emits_weaken {A} (P Q : Event -> Prop) (m : M A) :
  (forall ev, P ev -> Q ev) -> emits P m -> emits Q m.
Proof. intros HPQ Hm w. eapply Forall_impl; [apply Hm | exact HPQ]. Qed.

(** Breaks a goal [emits P m] down along the structure of [m]. *)
Ltac emits_tac :=
  repeat first
    [ apply emits_ret | apply emits_throw | apply emits_await
    | apply emits_get | apply emits_modify | apply emits_guard
    | apply emits_emit
    | apply emits_bind; [|intros ?]
    | apply emits_try_catch; [|intros ?]
    | apply emits_mapM; intros ?
    | match goal with
      | |- emits _ (match ?x with _ => _ end) => destruct x
      | |- emits _ (if ?x then _ else _) => destruct x
      | |- emits _ (let '(_, _) := ?x in _) => destruct x
      end ].

(** *** The events of each part of the command *)

Lemma getContent_phase h config : emits (in_phase Ingesting) (getContent h config).
Proof.
  unfold getContent, getContentPath, db_destroy, call_processFile, debug.
  emits_tac; reflexivity.
Qed.

Lemma build_start_phase h config :
  emits (before BeforeBuildHooks) (build_start h config).
Proof.
  unfold build_start, rimraf_sync, env_default, env_set, createServer, listen,
    console_log, debug.
  emits_tac; unfold before; simpl; lia.
Qed.

Lemma hooks_phase config :
  emits (in_phase BeforeBuildHooks) (mapM (call_beforeBuild config) (plugins config)).
Proof. unfold call_beforeBuild. emits_tac. reflexivity. Qed.

Lemma capability_silent {A} P p (cap : Plugin.t -> option A) msg :
  emits P (capability p cap msg).
Proof. unfold capability. emits_tac. Qed.

Lemma prerender_start_phase config renderer app assets phenomicFetch location :
  emits (in_phase Prerendering)
    (prerenderFileAndDependencies config renderer app assets phenomicFetch location).
Proof.
  unfold prerenderFileAndDependencies, capability, debug. emits_tac; reflexivity.
Qed.

Lemma prerender_resume_phase h config t :
  emits (in_phase Prerendering) (prerender_resume h config t).
Proof. unfold prerender_resume, writeFile, debug. emits_tac; reflexivity. Qed.

(** *** The pool *)

Section PoolEvents.
Context {Task : Type}.
Variable mapper : string -> M Task.
Variable resume : Task -> M (option Task).
Variable location_of : Task -> string.
Variable pick : nat -> nat.
Variable concurrency : nat.
Variable P : Event -> Prop.
Hypothesis P_started : forall location, P (Started location).
Hypothesis P_settled : forall location fulfilled, P (Settled location fulfilled).
Hypothesis P_mapper : forall location, emits P (mapper location).
Hypothesis P_resume : forall t, emits P (resume t).

Lemma pool_start_emits location : emits P (pool_start mapper location).
Proof. unfold pool_start. emits_tac; auto. Qed.

Lemma pool_resume_emits t : emits P (pool_resume resume location_of t).
Proof. unfold pool_resume. emits_tac; auto. Qed.

Lemma pool_fill_emits queue inflight :
  emits P (pool_fill mapper concurrency queue inflight).
Proof.
  revert inflight. induction queue as [|location rest IH]; intros inflight; simpl.
  - apply emits_ret.
  - destruct (length inflight <? concurrency); [|apply emits_ret].
    apply emits_bind; [apply pool_start_emits | intros t; apply IH].
Qed.

Lemma pool_step_emits k queue inflight :
  emits P (pool_step mapper resume location_of pick concurrency k queue inflight).
Proof.
  unfold pool_step. destruct (inflight !! _); [|apply emits_ret].
  apply emits_bind; [apply pool_resume_emits|].
  intros [t'|]; [apply emits_ret | apply pool_fill_emits].
Qed.

Lemma pool_run_emits fuel k queue inflight :
  emits P (pool_run mapper resume location_of pick concurrency fuel k queue inflight).
Proof.
  revert k queue inflight. induction fuel as [|fuel IH]; intros k queue inflight;
    destruct inflight as [|t inflight]; simpl;
    try apply emits_ret; try apply emits_throw.
  apply emits_bind; [apply pool_step_emits | intros st; apply IH].
Qed.

Lemma pMap_emits fuel input :
  emits P (pMap mapper resume location_of pick concurrency fuel input).
Proof.
  unfold pMap. destruct (concurrency =? 0); [apply emits_throw|].
  apply emits_bind; [apply pool_fill_emits | intros st; apply pool_run_emits].
Qed.
End PoolEvents.

Lemma fanout_phase h config renderer app assets phenomicFetch fuel urls :
  emits (in_phase Prerendering)
    (pMap (fun location =>
             prerenderFileAndDependencies config renderer app assets
               phenomicFetch location)
          (prerender_resume h config) prerender_location (settles h)
          50 fuel urls).
Proof.
  apply pMap_emits; try reflexivity.
  - intros location. apply prerender_start_phase.
  - intros t. apply prerender_resume_phase.
Qed.

(** *** Skipping the steps of a run that a property does not depend on *)

Lemma bind_skip {A B} (P : Event -> Prop) (Q : Out B -> Prop)
    (m : M A) (f : A -> M B) w :
  Skippable P Q ->
  Forall P (events (m w)) ->
  (forall a, res (m w) = Ok a -> Q (f a (world (m w)))) ->
  Q (bind m f w).
Proof.
  intros [Hfail Hpre] Hm Hf. unfold bind.
  destruct (res (m w)) as [a|e] eqn:E.
  - apply (Hpre (f a (world (m w)))); auto.
  - apply Hfail; auto.
Qed.

(** Case analysis on an event known by its phase. *)
Ltac by_phase :=
  lazymatch goal with
  | H : in_phase _ ?ev |- _ =>
      unfold in_phase in H; destruct ev; simpl in H |- *;
      repeat match goal with
             | m : ConsoleMsg |- _ => destruct m
             | m : DebugMsg |- _ => destruct m
             end;
      simpl in H |- *; try discriminate H
  end.

(** Proves [emits P m] for the parts of the command; [leaf] proves [P] of
    the single events. *)
Ltac emits_parts leaf :=
  unfold getContent, getContentPath, db_destroy, call_processFile,
    build_start, rimraf_sync, env_default, env_set, createServer, listen,
    close, createFetchFunction, call_beforeBuild, capability, console_log,
    debug;
  repeat first
    [ apply pMap_emits;
      [ intros ?; leaf | intros ? ?; leaf
      | intros ?;
        eapply emits_weaken; [|apply prerender_start_phase];
        intros ? ?; leaf
      | intros ?;
        eapply emits_weaken; [|apply prerender_resume_phase];
        intros ? ?; leaf ]
    | apply emits_mapM; intros ?
    | apply emits_ret | apply emits_throw | apply emits_await
    | apply emits_get | apply emits_modify | apply emits_guard
    | apply emits_emit; leaf
    | apply emits_bind; [|intros ?]
    | apply emits_try_catch; [|intros ?]
    | match goal with
      | |- emits _ (match ?x with _ => _ end) => destruct x
      | |- emits _ (if ?x then _ else _) => destruct x
      end ].

(** One step of a run is skipped when all its events are in [P]. *)
Ltac skip_step HS leaf :=
  lazymatch goal with
  | |- ?Q (bind ?m ?f ?w) =>
      apply (bind_skip _ Q m f w HS);
      [ let H := fresh in
        lazymatch goal with
        | |- Forall ?P _ =>
            assert (H : emits P m) by (emits_parts leaf); apply H
        end
      | let a := fresh "a" in let Ha := fresh "Ha" in
        let w' := fresh "w" in
        intros a Ha; cbv beta;
        set (w' := world (m w)) in |- *; clearbody w' ]
  end.

(** ** The server is closed once (C1) *)

Lemma closes_app t1 t2 : closes (t1 ++ t2) = closes t1 + closes t2.
Proof. unfold closes. rewrite List.filter_app, length_app. reflexivity. Qed.

Lemma closes_none tr : Forall (fun ev => is_close ev = false) tr -> closes tr = 0.
Proof.
  unfold closes. induction 1 as [|ev tr Hev _ IH]; simpl; [reflexivity|].
  rewrite Hev. exact IH.
Qed.

Lemma closes_at_end_skippable :
  Skippable (fun ev => is_close ev = false) closes_at_end.
Proof.
  split; unfold closes_at_end; simpl.
  - intros _ _ ev H. apply closes_none, H.
  - intros o pre H Ho. destruct (res o).
    + destruct Ho as (tr & Hev & Htr). exists (pre ++ tr). split.
      * rewrite Hev. apply app_assoc.
      * rewrite closes_app, Htr, (closes_none pre H). reflexivity.
    + rewrite closes_app, Ho, (closes_none pre H). reflexivity.
Qed.

Lemma build_try_closes h config port w :
  closes_at_end (build_try h config port w).
Proof.
  unfold build_try. cbv zeta.
  repeat skip_step closes_at_end_skippable
    ltac:(first [reflexivity | by_phase; reflexivity]).
  exists []. split; reflexivity.
Qed.

Lemma build_start_closes h config w : closes (events (build_start h config w)) = 0.
Proof.
  apply closes_none.
  assert (H : emits (fun ev => is_close ev = false) (build_start h config))
    by (emits_parts ltac:(reflexivity)).
  apply H.
Qed.

Lemma build_run h config w :
  build h config w =
  let o := build_start h config w in
  match res o with
  | Ok port =>
      let o' := try_catch (build_try h config port) build_catch (world o) in
      mkOut (res o') (world o') (events o ++ events o')
  | Throw e => mkOut (Throw e) (world o) (events o)
  end.
Proof. reflexivity. Qed.

(** C1 (amended): once the server has been started, it is closed exactly
    once, as the last action before [build] returns or rethrows, and a
    failure of the [try] block reaches the caller as the very error that was
    thrown; when the start itself throws, that error reaches the caller and
    the server is never closed. *)
Theorem build_closes_started_server_once h config w :
  match res (build_start h config w) with
  | Ok port =>
      closes (events (build h config w)) = 1 /\
      (exists tr d,
          events (build h config w) = tr ++ [Close; Debug d] /\ closes tr = 0) /\
      res (build h config w) =
      res (build_try h config port (world (build_start h config w)))
  | Throw e =>
      closes (events (build h config w)) = 0 /\
      res (build h config w) = Throw e
  end.
Proof.
  rewrite build_run. cbv zeta.
  pose proof (build_start_closes h config w) as Hstart.
  generalize dependent (build_start h config w). intros o Hstart.
  destruct (res o) as [port|e]; cbn [res events]; [|auto].
  pose proof (build_try_closes h config port (world o)) as Htry.
  unfold closes_at_end in Htry.
  rewrite try_catch_res, try_catch_events.
  generalize dependent (build_try h config port (world o)). intros o' Htry.
  destruct (res o') as [[]|e].
  - destruct Htry as (tr & Hev & Htr). rewrite Hev, app_nil_r.
    split; [|split; [|reflexivity]].
    + rewrite !closes_app, Hstart, Htr. reflexivity.
    + exists (events o ++ tr), DServerClosed.
      split; [apply app_assoc | rewrite closes_app, Hstart, Htr; reflexivity].
  - split; [|split; [|reflexivity]].
    + rewrite !closes_app, Hstart, Htry. reflexivity.
    + exists (events o ++ events o'), DServerClosedDueToError.
      split; [apply app_assoc | rewrite closes_app, Hstart, Htry; reflexivity].
Qed.

(** C1 as stated fails: when no port can be allocated the server has been
    created, [build] rejects, and [close] is never called. *)
Lemma build_without_port_never_closes :
  let o := build Demo.host_without_port (Demo.site ["/"]) Demo.world in
  res o = Throw Demo.port_taken /\
  In CreateServer (events o) /\
  closes (events o) = 0.
Proof. vm_compute. auto 10. Qed.

(** ** Cleaning (C2) *)

(** Whatever the configuration, the first thing a build does is to remove
    the directory named [dist]. *)
Lemma build_cleans_first h config w :
  exists rest,
    events (build h config w) =
    [Console CHey; Debug DCleaningDist; Rimraf "dist"] ++ rest.
Proof.
  rewrite build_run. cbv zeta.
  assert (Hstart : exists rest,
             events (build_start h config w) =
             [Console CHey; Debug DCleaningDist; Rimraf "dist"] ++ rest).
  { unfold build_start. rewrite !bind_events. cbn [console_log debug emit res events app].
    unfold rimraf_sync at 1. rewrite bind_events. cbn [emit res events app].
    eexists. reflexivity. }
  destruct Hstart as (rest & Hrest).
  destruct (res (build_start h config w)); cbn [events]; rewrite Hrest.
  - eexists. rewrite <- app_assoc. reflexivity.
  - eexists. reflexivity.
Qed.

(** C2 (the code departs from the claim): with [outdir] set to [public],
    a successful build removes [dist] and leaves the previous contents of
    [public] in place next to the new page. *)
Lemma build_cleans_dist_not_outdir :
  let config :=
    Demo.config_of "public"
      [Demo.bundler; Demo.markdown; Demo.renderer; Demo.resolver ["index"]] in
  let o := build Demo.host config Demo.world in
  res o = Ok tt /\
  In (Rimraf "dist") (events o) /\
  fs (world o) !! "dist/old.html" = None /\
  fs (world o) !! "public/old.html" = Some "old" /\
  fs (world o) !! "public/index.html" = Some "<html>".
Proof. vm_compute. auto 10. Qed.

(** ** The content store (C3) *)

(** What each part of the command does to the store.  The claim itself is
    stated with the ingestion, once [getContent] has been followed step by
    step. *)

Lemma keeps_ret {A} (a : A) : keeps_db (ret a).
Proof. intros w. reflexivity. Qed.

Lemma keeps_throw {A} (e : JsError) : keeps_db (@throw A e).
Proof. intros w. reflexivity. Qed.

Lemma keeps_await {A} (p : result A) : keeps_db (await p).
Proof. intros w. reflexivity. Qed.

Lemma keeps_get : keeps_db get.
Proof. intros w. reflexivity. Qed.

Lemma keeps_emit ev : keeps_db (emit ev).
Proof. intros w. reflexivity. Qed.

Lemma keeps_modify f : (forall w, db (f w) = db w) -> keeps_db (modify f).
Proof. intros H w. apply H. Qed.

Lemma keeps_bind {A B} (m : M A) (f : A -> M B) :
  keeps_db m -> (forall a, keeps_db (f a)) -> keeps_db (bind m f).
Proof.
  intros Hm Hf w. rewrite bind_world.
  destruct (res (m w)); [rewrite Hf|]; apply Hm.
Qed.

Lemma keeps_try_catch {A} (m : M A) handler :
  keeps_db m -> (forall e, keeps_db (handler e)) -> keeps_db (try_catch m handler).
Proof.
  intros Hm Hh w. rewrite try_catch_world.
  destruct (res (m w)); [|rewrite Hh]; apply Hm.
Qed.

Lemma keeps_mapM {A B} (f : A -> M B) xs :
  (forall x, keeps_db (f x)) -> keeps_db (mapM f xs).
Proof.
  intros Hf. induction xs as [|x xs IH]; simpl.
  - apply keeps_ret.
  - apply keeps_bind; [apply Hf|]. intros y.
    apply keeps_bind; [apply IH|]. intros ys. apply keeps_ret.
Qed.

Lemma keeps_guard h op : keeps_db (guard h op).
Proof. unfold guard. destruct (fault h op); [apply keeps_throw | apply keeps_ret]. Qed.

Lemma keeps_env_default k v : keeps_db (env_default k v).
Proof.
  apply keeps_modify. intros w.
  destruct (penv w !! k) as [old|]; [destruct (truthy old)|]; reflexivity.
Qed.

Section PoolKeeps.
Context {Task : Type}.
Variable mapper : string -> M Task.
Variable resume : Task -> M (option Task).
Variable location_of : Task -> string.
Variable pick : nat -> nat.
Variable concurrency : nat.
Hypothesis keeps_mapper : forall location, keeps_db (mapper location).
Hypothesis keeps_resume : forall t, keeps_db (resume t).

Lemma pool_fill_keeps queue inflight :
  keeps_db (pool_fill mapper concurrency queue inflight).
Proof.
  revert inflight. induction queue as [|location rest IH]; intros inflight; simpl.
  - apply keeps_ret.
  - destruct (length inflight <? concurrency); [|apply keeps_ret].
    apply keeps_bind; [|intros t; apply IH].
    unfold pool_start. apply keeps_bind; [apply keeps_emit|]. intros _.
    apply keeps_try_catch; [apply keeps_mapper|]. intros e.
    apply keeps_bind; [apply keeps_emit | intros _; apply keeps_throw].
Qed.

Lemma pool_step_keeps k queue inflight :
  keeps_db (pool_step mapper resume location_of pick concurrency k queue inflight).
Proof.
  unfold pool_step. destruct (inflight !! _); [|apply keeps_ret].
  apply keeps_bind.
  - unfold pool_resume. apply keeps_bind.
    + apply keeps_try_catch; [apply keeps_resume|]. intros e.
      apply keeps_bind; [apply keeps_emit | intros _; apply keeps_throw].
    + intros [t'|]; [apply keeps_ret|].
      apply keeps_bind; [apply keeps_emit | intros _; apply keeps_ret].
  - intros [t'|]; [apply keeps_ret | apply pool_fill_keeps].
Qed.

Lemma pMap_keeps fuel input :
  keeps_db (pMap mapper resume location_of pick concurrency fuel input).
Proof.
  unfold pMap. destruct (concurrency =? 0); [apply keeps_throw|].
  apply keeps_bind; [apply pool_fill_keeps|]. intros st.
  generalize 0 as k. generalize st.1 as queue. generalize st.2 as inflight.
  induction fuel as [|fuel IH]; intros inflight queue k;
    destruct inflight as [|t inflight]; simpl;
    try apply keeps_ret; try apply keeps_throw.
  apply keeps_bind; [apply pool_step_keeps | intros st'; apply IH].
Qed.
End PoolKeeps.

(** Proves [keeps_db m] for the parts of the command other than the
    ingestion. *)
Ltac keeps_parts :=
  unfold prerenderFileAndDependencies, prerender_resume, writeFile,
    build_start, rimraf_sync, env_set, createServer, listen, close,
    createFetchFunction, call_beforeBuild, capability, console_log, debug;
  repeat first
    [ apply pMap_keeps; intros ?
    | apply keeps_mapM; intros ?
    | apply keeps_ret | apply keeps_throw | apply keeps_await
    | apply keeps_get | apply keeps_emit | apply keeps_guard
    | apply keeps_env_default
    | apply keeps_modify; intros ?; reflexivity
    | apply keeps_bind; [|intros ?]
    | apply keeps_try_catch; [|intros ?]
    | match goal with
      | |- keeps_db (match ?x with _ => _ end) => destruct x
      | |- keeps_db (if ?x then _ else _) => destruct x
      | |- keeps_db (let '(_, _) := ?x in _) => destruct x
      end ].

Lemma bind_skip_w {A B} R (P : Event -> Prop) (Q : World -> Out B -> Prop)
    (m : M A) (f : A -> M B) w :
  SkippableW R P Q ->
  R w (world (m w)) ->
  Forall P (events (m w)) ->
  (forall a, res (m w) = Ok a -> Q (world (m w)) (f a (world (m w)))) ->
  Q w (bind m f w).
Proof.
  intros [Hfail Hpre] HR Hm Hf. unfold bind.
  destruct (res (m w)) as [a|e] eqn:E.
  - apply (Hpre w (world (m w)) (f a (world (m w)))); auto.
  - apply Hfail; auto.
Qed.


#[local] Arguments path_join : simpl never.
#[local] Arguments decodeURIComponent : simpl never.

Lemma call_processFile_run h args w :
  call_processFile h args w =
  mkOut (Ok (processFile h args (db w)).1)
        (set_db (processFile h args (db w)).2 w)
        [ProcessFile (content_name (pa_file args))].
Proof. reflexivity. Qed.

Lemma processFiles_db h config files w :
  db (world (mapM (fun file => call_processFile h (process_args config file)) files w))
  = ingest h config files (db w).
Proof.
  revert w. induction files as [|file files IH]; intros w; [reflexivity|].
  cbn [mapM]. rewrite bind_world, call_processFile_run. cbn [res world].
  rewrite bind_world.
  destruct (res (mapM _ _ _)); cbn [ret world]; rewrite IH; reflexivity.
Qed.

Lemma getContent_store h config w :
  store_outcome h config w (getContent h config w).
Proof.
  unfold store_outcome, getContent. cbv zeta.
  rewrite bind_events, bind_world. cbn [debug emit res events world app].
  destruct (length _ =? 0).
  { cbn. split; [intros [H|[]]; discriminate H | reflexivity]. }
  destruct (length _ =? 0).
  { cbn. split; [intros [H|[]]; discriminate H | reflexivity]. }
  unfold getContentPath.
  destruct (getPath h (path_join (path config) (content config))) as [p|e] eqn:Hp.
  2:{ cbn. split; [|reflexivity]. intros H. exfalso.
      repeat (destruct H as [H|H]; [discriminate H|]). exact H. }
  cbn [bind ret await try_catch emit res world events app].
  destruct (truthy p).
  2:{ cbn. split; [|reflexivity]. intros H. exfalso.
      repeat (destruct H as [H|H]; [discriminate H|]). exact H. }
  unfold db_destroy. destruct (fault h OpDbDestroy) as [e|] eqn:Hfault.
  { cbn. split; [intros _ H; discriminate H|]. intros H. exfalso. apply H. auto 10. }
  rewrite !bind_world, !bind_events.
  cbn [bind ret await try_catch emit modify res world events app].
  split; [|intros H; exfalso; apply H; do 3 right; left; reflexivity].
  intros _ _. exists p. split; [reflexivity|].
  rewrite bind_world.
  assert (Hdb : db (world (mapM (fun file => call_processFile h (process_args config file))
                             (oneShot h p) (set_db ∅ w)))
                = rebuilt_store h config p) by apply processFiles_db.
  unfold process_args in Hdb.
  destruct (res (mapM _ _ _)) as [processed|e]; [|exact Hdb].
  rewrite bind_world. cbn [await res world].
  destruct (Promise_all processed); exact Hdb.
Qed.

(** One step of a run is skipped when it keeps the store and all its
    events are in [P]. *)
Ltac skip_step_db HS leaf :=
  lazymatch goal with
  | |- ?Q ?w (bind ?m ?f ?w) =>
      apply (bind_skip_w _ _ Q m f w HS);
      [ let H := fresh in
        assert (H : keeps_db m) by keeps_parts; apply H
      | let H := fresh in
        lazymatch goal with
        | |- Forall ?P _ =>
            assert (H : emits P m) by (emits_parts leaf); apply H
        end
      | let a := fresh "a" in let Ha := fresh "Ha" in
        let w' := fresh "w" in
        intros a Ha; cbv beta;
        set (w' := world (m w)) in |- *; clearbody w' ]
  end.

Lemma store_outcome_skippable h config :
  SkippableW (fun w w' => db w' = db w) (fun ev => ev <> DbDestroy)
    (fun w (o : Out unit) => store_outcome h config w o).
Proof.
  split; unfold store_outcome; cbn [res world events].
  - intros w w' _ ev Hdb Hev. split; [|auto].
    intros Hin. exfalso. rewrite Forall_forall in Hev.
    apply (Hev DbDestroy); [apply list_elem_of_In, Hin | reflexivity].
  - intros w w' o pre Hdb Hpre [Hyes Hno].
    assert (Hnot : ~ In DbDestroy pre).
    { intros Hin. rewrite Forall_forall in Hpre.
      apply (Hpre DbDestroy); [apply list_elem_of_In, Hin | reflexivity]. }
    split.
    + intros Hin. apply Hyes. apply in_app_or in Hin. tauto.
    + intros Hin. rewrite <- Hdb. apply Hno. intros H. apply Hin.
      apply in_or_app. auto.
Qed.

(** After the ingestion nothing touches the store. *)
Lemma store_outcome_then h config {A B} (m : M A) (f : A -> M B) w :
  store_outcome h config w (m w) ->
  (forall a, keeps_db (f a)) ->
  (forall a, emits (fun ev => ev <> DbDestroy) (f a)) ->
  store_outcome h config w (bind m f w).
Proof.
  unfold store_outcome. intros [Hyes Hno] Hkeeps Hemits.
  rewrite bind_events, bind_world.
  destruct (res (m w)) as [a|e]; [|rewrite app_nil_r; auto].
  assert (Hnot : ~ In DbDestroy (events (f a (world (m w))))).
  { intros Hin. specialize (Hemits a (world (m w))). rewrite Forall_forall in Hemits.
    apply (Hemits DbDestroy); [apply list_elem_of_In, Hin | reflexivity]. }
  pose proof (Hkeeps a (world (m w))) as Hk. split.
  - intros Hin. rewrite Hk. apply Hyes. apply in_app_or in Hin. tauto.
  - intros Hin. rewrite Hk. apply Hno. intros H. apply Hin. apply in_or_app. auto.
Qed.

Lemma build_try_store h config port w :
  store_outcome h config w (build_try h config port w).
Proof.
  unfold build_try. cbv zeta.
  repeat skip_step_db (store_outcome_skippable h config)
    ltac:(first [discriminate | by_phase; discriminate]).
  apply store_outcome_then.
  - apply getContent_store.
  - intros _. keeps_parts.
  - intros _. emits_parts ltac:(first [discriminate | by_phase; discriminate]).
Qed.

Lemma store_outcome_catch h config (m : M unit) handler w :
  store_outcome h config w (m w) ->
  (forall e, keeps_db (handler e)) ->
  (forall e, emits (fun ev => ev <> DbDestroy) (handler e)) ->
  store_outcome h config w (try_catch m handler w).
Proof.
  unfold store_outcome. intros [Hyes Hno] Hkeeps Hemits.
  rewrite try_catch_events, try_catch_world.
  destruct (res (m w)) as [a|e]; [rewrite app_nil_r; auto|].
  assert (Hnot : ~ In DbDestroy (events (handler e (world (m w))))).
  { intros Hin. specialize (Hemits e (world (m w))). rewrite Forall_forall in Hemits.
    apply (Hemits DbDestroy); [apply list_elem_of_In, Hin | reflexivity]. }
  pose proof (Hkeeps e (world (m w))) as Hk. split.
  - intros Hin. rewrite Hk. apply Hyes. apply in_app_or in Hin. tauto.
  - intros Hin. rewrite Hk. apply Hno. intros H. apply Hin. apply in_or_app. auto.
Qed.

(** What a build does to the store. *)
Lemma build_store h config w : store_outcome h config w (build h config w).
Proof.
  unfold build.
  skip_step_db (store_outcome_skippable h config)
    ltac:(first [discriminate | by_phase; discriminate]).
  apply store_outcome_catch.
  - apply build_try_store.
  - intros e. unfold build_catch. keeps_parts.
  - intros e. unfold build_catch. emits_parts ltac:(discriminate).
Qed.

(** C3 as stated fails: when the content folder does not exist the build
    succeeds with a warning and the records of the previous build are still
    in the store. *)
Lemma build_without_content_keeps_stale_records :
  let o := build Demo.host_without_content (Demo.site ["/"]) Demo.world in
  res o = Ok tt /\
  In (Warn "content") (events o) /\
  ~ In DbDestroy (events o) /\
  db (world o) !! "stale.md" = Some "stale".
Proof.
  vm_compute. repeat split; auto 20.
  intros H. repeat (destruct H as [H|H]; [discriminate H|]). exact H.
Qed.

(** ** Missing singleton roles (C4) *)

Lemma lacks_head {A} (cap : Plugin.t -> option A) config :
  lacks cap config ->
  head (List.filter (fun p => has (cap p)) (plugins config)) = None.
Proof.
  unfold lacks. induction 1 as [|p ps Hp _ IH]; simpl; [reflexivity|].
  rewrite Hp. exact IH.
Qed.


Lemma capability_none {A} (cap : Plugin.t -> option A) msg w :
  capability None cap msg w = mkOut (Throw (Error msg)) w [].
Proof. reflexivity. Qed.

Lemma capability_some {A} (cap : Plugin.t -> option A) p f msg w :
  cap p = Some f ->
  capability (Some p) cap msg w = mkOut (Ok (p, f)) w [].
Proof. intros H. unfold capability. rewrite H. reflexivity. Qed.

(** What the [map] of line 136 gives: the promises the hooks have
    returned, or the error of the first hook that throws. *)
Lemma hooks_run config w :
  match res (mapM (call_beforeBuild config) (plugins config) w) with
  | Ok hooks => hook_outcomes config = map Ok hooks
  | Throw e => In (Throw e) (hook_outcomes config)
  end.
Proof.
  unfold hook_outcomes. generalize (plugins config) as ps. intros ps. revert w.
  induction ps as [|p ps IH]; intros w; [reflexivity|].
  cbn [mapM map]. rewrite bind_res.
  assert (Hp : forall w', res (call_beforeBuild config p w') =
                 match Plugin.beforeBuild p with
                 | Some beforeBuild => beforeBuild (settings config)
                 | None => Ok (Ok tt)
                 end).
  { intros w'. unfold call_beforeBuild. destruct (Plugin.beforeBuild p); reflexivity. }
  rewrite Hp.
  destruct (match Plugin.beforeBuild p with
            | Some beforeBuild => beforeBuild (settings config)
            | None => Ok (Ok tt)
            end) as [hook|e]; [|left; reflexivity].
  rewrite bind_res. specialize (IH (world (call_beforeBuild config p w))).
  destruct (res (mapM _ ps _)) as [hooks|e]; cbn [ret res map].
  - rewrite IH. reflexivity.
  - right. exact IH.
Qed.

(** When no hook fails, the [map] returns and [Promise.all] is fulfilled. *)
Lemma hooks_fulfilled config w :
  no_hook_rejects config ->
  exists hooks l,
    res (mapM (call_beforeBuild config) (plugins config) w) = Ok hooks /\
    Promise_all hooks = Ok l.
Proof.
  unfold no_hook_rejects. intros Hall. pose proof (hooks_run config w) as Hrun.
  destruct (res (mapM _ _ _)) as [hooks|e].
  - exists hooks. rewrite Hrun in Hall. clear Hrun.
    assert (H : exists l, Promise_all hooks = Ok l).
    { induction hooks as [|hook hooks IH]; [cbn; eauto|].
      cbn [map] in Hall. apply Forall_cons in Hall. destruct Hall as [Hhook Hall].
      injection Hhook as ->. destruct (IH Hall) as [l Hl].
      cbn [Promise_all]. rewrite Hl. eauto. }
    destruct H as [l Hl]. eauto.
  - exfalso. rewrite Forall_forall in Hall.
    apply list_elem_of_In, Hall in Hrun. discriminate Hrun.
Qed.

Lemma stops_skippable {B} :
  Skippable (fun ev => phase_of ev <> Prerendering) (@stops_before_prerender B).
Proof.
  split; unfold stops_before_prerender; cbn [res events].
  - intros e _ ev Hev. eauto.
  - intros o pre Hpre [He Hev]. split; [exact He|]. apply Forall_app. auto.
Qed.

(** Leaves of [emits] goals about the phase of an event. *)
Ltac phase_leaf :=
  first [ discriminate
        | by_phase; discriminate
        | unfold before; simpl; lia ].


Lemma after_skippable {B} (X : Event) (R : Out B -> Prop) :
  (forall o pre,
      ~ In X pre -> R o -> R (mkOut (res o) (world o) (pre ++ events o))) ->
  Skippable (fun ev => ev <> X) (after X R).
Proof.
  intros HR.
  assert (Hnot : forall tr, Forall (fun ev => ev <> X) tr -> ~ In X tr).
  { intros tr Htr Hin. rewrite Forall_forall in Htr.
    apply (Htr X); [apply list_elem_of_In, Hin | reflexivity]. }
  split; unfold after; cbn [res events].
  - intros e w ev Hev Hin. destruct (Hnot ev Hev Hin).
  - intros o pre Hpre Ho Hin. apply HR; [auto|]. apply Ho.
    apply in_app_or in Hin. destruct Hin as [Hin|Hin]; [destruct (Hnot pre Hpre Hin) | exact Hin].
Qed.

Lemma after_throws_skippable X (e : JsError) :
  Skippable (fun ev => ev <> X) (after X (fun o : Out unit => res o = Throw e)).
Proof. apply after_skippable. intros o pre _ H. exact H. Qed.

Lemma build_try_no_bundler h config port w :
  lacks Plugin.buildForPrerendering config ->
  no_hook_rejects config ->
  res (build_try h config port w) = Throw bundler_required.
Proof.
  intros Hlacks Hhooks.
  destruct (hooks_fulfilled config w Hhooks) as (hooks & l & Hrun & Hl).
  unfold build_try. cbv zeta.
  rewrite bind_res, Hrun, bind_res. cbn [await res]. rewrite Hl.
  rewrite bind_res, (lacks_head _ _ Hlacks). reflexivity.
Qed.



(** *** From the [try] block to the whole command *)

Lemma build_res h config w port :
  res (build_start h config w) = Ok port ->
  res (build h config w) =
  res (build_try h config port (world (build_start h config w))).
Proof.
  intros Hstart. rewrite build_run. cbv zeta. rewrite Hstart. cbn [res].
  rewrite try_catch_res. destruct (res (build_try _ _ _ _)) as [[]|e]; reflexivity.
Qed.

Lemma build_events h config w port :
  res (build_start h config w) = Ok port ->
  events (build h config w) =
  events (build_start h config w) ++
  events (build_try h config port (world (build_start h config w))) ++
  match res (build_try h config port (world (build_start h config w))) with
  | Ok _ => []
  | Throw _ => [Close; Debug DServerClosedDueToError]
  end.
Proof.
  intros Hstart. rewrite build_run. cbv zeta. rewrite Hstart. cbn [events].
  rewrite try_catch_events. destruct (res (build_try _ _ _ _)); reflexivity.
Qed.

Lemma build_events_failed_start h config w e :
  res (build_start h config w) = Throw e ->
  build h config w =
  mkOut (Throw e) (world (build_start h config w)) (events (build_start h config w)).
Proof. intros Hstart. rewrite build_run. cbv zeta. rewrite Hstart. reflexivity. Qed.

Lemma build_start_ready h config w :
  after (Debug DServerReady) (fun o => exists port, res o = Ok port)
    (build_start h config w).
Proof.
  unfold build_start.
  assert (HS : Skippable (fun ev => ev <> Debug DServerReady)
                 (after (Debug DServerReady)
                    (fun o : Out nat => exists port, res o = Ok port))).
  { apply after_skippable. intros o pre _ H. exact H. }
  repeat skip_step HS ltac:(phase_leaf).
  intros _. eexists. reflexivity.
Qed.

(** The line "server ready" is reached exactly when the start succeeds. *)
Lemma server_ready h config w :
  In (Debug DServerReady) (events (build h config w)) ->
  exists port, res (build_start h config w) = Ok port.
Proof.
  intros Hin. destruct (res (build_start h config w)) as [port|e] eqn:Hstart; [eauto|].
  rewrite (build_events_failed_start _ _ _ _ Hstart) in Hin. cbn [events] in Hin.
  destruct (build_start_ready h config w Hin) as [port Hport]. congruence.
Qed.

(** An event of the phases of the [try] block can only come from it. *)
Lemma in_build_try h config w X :
  rank BeforeBuildHooks <= rank (phase_of X) <= rank Prerendering ->
  In X (events (build h config w)) ->
  exists port,
    res (build_start h config w) = Ok port /\
    In X (events (build_try h config port (world (build_start h config w)))).
Proof.
  intros Hrank Hin.
  assert (Hstart : ~ In X (events (build_start h config w))).
  { intros H. pose proof (build_start_phase h config w) as Hph.
    rewrite Forall_forall in Hph. apply list_elem_of_In, Hph in H.
    unfold before in H. lia. }
  destruct (res (build_start h config w)) as [port|e] eqn:E.
  - exists port. split; [reflexivity|].
    rewrite (build_events _ _ _ _ E) in Hin.
    apply in_app_or in Hin. destruct Hin as [Hin|Hin]; [tauto|].
    apply in_app_or in Hin. destruct Hin as [Hin|Hin]; [exact Hin|].
    exfalso. destruct (res (build_try _ _ _ _)); [destruct Hin|].
    destruct Hin as [<-|[<-|[]]]; simpl in Hrank; lia.
  - rewrite (build_events_failed_start _ _ _ _ E) in Hin. tauto.
Qed.

Lemma build_stops h config w :
  (forall port w', stops_before_prerender (build_try h config port w')) ->
  stops_before_prerender (build h config w).
Proof.
  intros Htry. unfold stops_before_prerender.
  assert (Hstart : Forall (fun ev => phase_of ev <> Prerendering)
                     (events (build_start h config w))).
  { eapply Forall_impl; [apply build_start_phase|].
    intros ev Hev Heq. unfold before in Hev. rewrite Heq in Hev. simpl in Hev. lia. }
  destruct (res (build_start h config w)) as [port|e] eqn:E.
  - rewrite (build_res _ _ _ _ E), (build_events _ _ _ _ E).
    destruct (Htry port (world (build_start h config w))) as [[e He] Hev].
    split; [eauto|]. rewrite He.
    apply Forall_app; split; [exact Hstart|].
    apply Forall_app; split; [exact Hev|].
    repeat constructor; discriminate.
  - rewrite (build_events_failed_start _ _ _ _ E). cbn [res events]. eauto.
Qed.


Lemma in_by_decision (X : Event) (tr : list Event) :
  (if in_dec Event_eq_dec X tr then true else false) = true -> In X tr.
Proof. destruct (in_dec Event_eq_dec X tr); [auto | discriminate]. Qed.

(** Membership in the trace of a build on given inputs. *)
Ltac in_trace := apply in_by_decision; vm_compute; reflexivity.



(** ** The choice of the bundler (C9) *)

Lemma head_filter_first {A} (cap : Plugin.t -> option A) config p :
  head (List.filter (fun p => has (cap p)) (plugins config)) = Some p ->
  first_with cap config p.
Proof.
  unfold first_with. generalize (plugins config) as ps.
  induction ps as [|q ps IH]; simpl; [discriminate|].
  destruct (cap q) as [f|] eqn:E; simpl.
  - intros [= <-]. exists [], ps. rewrite E. repeat split. constructor.
  - intros H. destruct (IH H) as (earlier & later & -> & Hp & Hearlier).
    exists (q :: earlier), later. repeat split; [exact Hp|].
    constructor; assumption.
Qed.

Lemma capability_ok {A} (o : option Plugin.t) (cap : Plugin.t -> option A)
    msg w a :
  res (capability o cap msg w) = Ok a -> o = Some a.1 /\ cap a.1 = Some a.2.
Proof.
  unfold capability. destruct o as [p|]; [|discriminate].
  destruct (cap p) as [f|] eqn:E; [|discriminate].
  intros [= <-]. auto.
Qed.

Lemma bundler_calls_skippable config :
  Skippable (bundler_call_ok config) (@bundler_calls_ok unit config).
Proof.
  split; unfold bundler_calls_ok; cbn [events]; [auto|].
  intros o pre Hpre Ho. apply Forall_app. auto.
Qed.

(** The bundler of a call is the plugin that passed the check before it. *)
Ltac bundler_leaf :=
  first
    [ exact I
    | by_phase; exact I
    | match goal with
      | H : res (capability _ _ _ _) = Ok ?a |- bundler_call_ok _ (_ (Plugin.name ?a.1)) =>
          apply capability_ok in H; destruct H as [H _];
          apply head_filter_first in H; simpl; eauto
      end ].

Lemma build_try_bundler_calls h config port w :
  bundler_calls_ok config (build_try h config port w).
Proof.
  unfold build_try. cbv zeta.
  repeat skip_step (bundler_calls_skippable config) ltac:(bundler_leaf).
  repeat constructor.
Qed.

Lemma build_bundler_calls h config w :
  Forall (bundler_call_ok config) (events (build h config w)).
Proof.
  assert (Hstart : Forall (bundler_call_ok config) (events (build_start h config w))).
  { assert (H : emits (bundler_call_ok config) (build_start h config))
      by (emits_parts ltac:(exact I)).
    apply H. }
  destruct (res (build_start h config w)) as [port|e] eqn:E.
  - rewrite (build_events _ _ _ _ E).
    apply Forall_app; split; [exact Hstart|].
    apply Forall_app; split; [apply build_try_bundler_calls|].
    destruct (res (build_try _ _ _ _)); repeat constructor.
  - rewrite (build_events_failed_start _ _ _ _ E). exact Hstart.
Qed.

(** C9 (amended): every call of [build] and of [buildForPrerendering]
    goes to the first plugin, in registration order, that has
    [buildForPrerendering] (so a plugin with [build] only is never the
    bundler); and when no plugin has [buildForPrerendering], a build whose
    server start and [beforeBuild] hooks succeed fails with the error that
    names [build], whether or not some plugin implements [build]. *)
Theorem bundler_is_first_with_buildForPrerendering h config w :
  (forall plugin,
      In (Build plugin) (events (build h config w)) \/
      In (BuildForPrerendering plugin) (events (build h config w)) ->
      exists p,
        first_with Plugin.buildForPrerendering config p /\
        Plugin.name p = plugin) /\
  (lacks Plugin.buildForPrerendering config ->
   In (Debug DServerReady) (events (build h config w)) ->
   no_hook_rejects config ->
   res (build h config w) = Throw bundler_required).
Proof.
  split.
  - intros plugin Hin. pose proof (build_bundler_calls h config w) as Hall.
    rewrite Forall_forall in Hall.
    destruct Hin as [Hin|Hin]; apply list_elem_of_In, Hall in Hin; exact Hin.
  - intros Hlacks Hready Hhooks.
    destruct (server_ready _ _ _ Hready) as [port Hport].
    rewrite (build_res _ _ _ _ Hport). apply build_try_no_bundler; assumption.
Qed.

Lemma bundler_choice_witness :
  (exists p,
      first_with Plugin.buildForPrerendering
        (Demo.config_of "dist"
           [Demo.client_only; Demo.bundler; Demo.markdown; Demo.renderer;
            Demo.resolver ["/"]]) p /\
      Plugin.name p = "bundler") /\
  res (build Demo.host (Demo.config_of "dist" [Demo.client_only]) Demo.world)
  = Throw bundler_required.
Proof.
  split.
  - apply (proj1 (bundler_is_first_with_buildForPrerendering
                    Demo.host
                    (Demo.config_of "dist"
                       [Demo.client_only; Demo.bundler; Demo.markdown;
                        Demo.renderer; Demo.resolver ["/"]])
                    Demo.world) "bundler").
    left. in_trace.
  - apply (proj2 (bundler_is_first_with_buildForPrerendering
                    Demo.host (Demo.config_of "dist" [Demo.client_only])
                    Demo.world)).
    + repeat constructor.
    + in_trace.
    + repeat constructor.
Defined.

(** C9 as stated fails: no plugin has [buildForPrerendering], one has
    [build], and the build fails with the error of a [beforeBuild] hook
    instead of the one that names [build]. *)
Lemma failing_hook_hides_bundler_error :
  let config := Demo.config_of "dist" [Demo.failing_hook; Demo.client_only] in
  lacks Plugin.buildForPrerendering config /\
  provides Plugin.build config /\
  res (build Demo.host config Demo.world) = Throw Demo.boom /\
  Demo.boom <> bundler_required.
Proof.
  repeat split.
  - repeat constructor.
  - apply Exists_cons_tl, Exists_cons_hd. reflexivity.
  - discriminate.
Qed.

(** ** Missing ingestion roles (C5) *)

Lemma lacks_filter {A} (cap : Plugin.t -> option A) config :
  lacks cap config ->
  List.filter (fun p => has (cap p)) (plugins config) = [].
Proof.
  unfold lacks. induction 1 as [|p ps Hp _ IH]; simpl; [reflexivity|].
  rewrite Hp. exact IH.
Qed.

Lemma provides_filter {A} (cap : Plugin.t -> option A) config :
  provides cap config ->
  (length (List.filter (fun p => has (cap p)) (plugins config)) =? 0) = false.
Proof.
  unfold provides. induction 1 as [p ps Hp|p ps _ IH]; simpl.
  - rewrite Hp. reflexivity.
  - destruct (has (cap p)); [reflexivity | exact IH].
Qed.

(** Without a transform plugin [getContent] throws at once: it has only
    printed its debug line, and the world is as it was. *)
Lemma getContent_without_transform h config w :
  lacks Plugin.transform config ->
  getContent h config w =
  mkOut (Throw transform_required) w [Debug DGettingContent].
Proof.
  intros Hlacks. unfold getContent. cbv zeta.
  rewrite (lacks_filter _ _ Hlacks). reflexivity.
Qed.

Lemma getContent_without_collector h config w :
  provides Plugin.transform config ->
  lacks Plugin.collect config ->
  getContent h config w =
  mkOut (Throw collector_required) w [Debug DGettingContent].
Proof.
  intros Hprovides Hlacks. unfold getContent. cbv zeta.
  rewrite (provides_filter _ _ Hprovides), (lacks_filter _ _ Hlacks). reflexivity.
Qed.

Lemma getContent_fails h config w :
  lacks Plugin.transform config \/ lacks Plugin.collect config ->
  exists e, res (getContent h config w) = Throw e.
Proof.
  intros [Hlacks|Hlacks].
  - rewrite getContent_without_transform; [eauto | exact Hlacks].
  - unfold getContent. cbv zeta. rewrite bind_res. cbn [debug emit res].
    destruct (length _ =? 0); [cbn; eauto|].
    rewrite (lacks_filter _ _ Hlacks). cbn. eauto.
Qed.

Lemma build_try_stops_at_ingestion h config port w :
  lacks Plugin.transform config \/ lacks Plugin.collect config ->
  stops_before_prerender (build_try h config port w).
Proof.
  intros Hlacks. unfold build_try. cbv zeta.
  repeat skip_step (@stops_skippable unit) ltac:(phase_leaf).
  exfalso.
  match goal with
  | Hc : res (getContent h config ?w') = Ok _ |- _ =>
      destruct (getContent_fails h config w' Hlacks) as [e He]; congruence
  end.
Qed.

Lemma build_try_without_transform h config port w :
  lacks Plugin.transform config ->
  after (Console CStaticBuildDone)
    (fun o => res o = Throw transform_required) (build_try h config port w).
Proof.
  intros Hlacks. unfold build_try. cbv zeta.
  repeat skip_step (after_throws_skippable (Console CStaticBuildDone) transform_required)
    ltac:(phase_leaf).
  intros _. rewrite bind_res. cbn [console_log emit res world].
  rewrite bind_res, (getContent_without_transform _ _ _ Hlacks). reflexivity.
Qed.

Lemma build_try_without_collector h config port w :
  provides Plugin.transform config ->
  lacks Plugin.collect config ->
  after (Console CStaticBuildDone)
    (fun o => res o = Throw collector_required) (build_try h config port w).
Proof.
  intros Hprovides Hlacks. unfold build_try. cbv zeta.
  repeat skip_step (after_throws_skippable (Console CStaticBuildDone) collector_required)
    ltac:(phase_leaf).
  intros _. rewrite bind_res. cbn [console_log emit res world].
  rewrite bind_res, (getContent_without_collector _ _ _ Hprovides Hlacks).
  reflexivity.
Qed.

(** C5 (amended): without a transform plugin, or with one but without a
    collect plugin, [getContent] throws the error that contains "transform
    plugin", respectively "collector plugin", before any effect of its own;
    a build with such a plugin list always fails, and never calls
    [writeFile]; its error is the one of [getContent] when the bundling has
    succeeded (the line "Webpack static build done" was printed), which is
    after the cleaning, the hooks and the two calls of the bundler. *)
Theorem missing_ingestion_role_fails h config w :
  (lacks Plugin.transform config ->
   getContent h config w =
   mkOut (Throw transform_required) w [Debug DGettingContent]) /\
  (provides Plugin.transform config -> lacks Plugin.collect config ->
   getContent h config w =
   mkOut (Throw collector_required) w [Debug DGettingContent]) /\
  (lacks Plugin.transform config \/ lacks Plugin.collect config ->
   (exists e, res (build h config w) = Throw e) /\
   forall p contents, ~ In (WriteFile p contents) (events (build h config w))) /\
  (lacks Plugin.transform config ->
   In (Console CStaticBuildDone) (events (build h config w)) ->
   res (build h config w) = Throw transform_required /\
   is_substring "transform plugin" (err_message transform_required) = true) /\
  (provides Plugin.transform config -> lacks Plugin.collect config ->
   In (Console CStaticBuildDone) (events (build h config w)) ->
   res (build h config w) = Throw collector_required /\
   is_substring "collector plugin" (err_message collector_required) = true).
Proof.
  split; [|split; [|split; [|split]]].
  - apply getContent_without_transform.
  - apply getContent_without_collector.
  - intros Hlacks.
    destruct (build_stops h config w) as [He Hev].
    { intros port w'. apply build_try_stops_at_ingestion, Hlacks. }
    split; [exact He|]. intros p contents Hin.
    rewrite Forall_forall in Hev. apply list_elem_of_In, Hev in Hin.
    apply Hin. reflexivity.
  - intros Hlacks Hin. split; [|reflexivity].
    apply in_build_try in Hin; [|simpl; lia]. destruct Hin as (port & Hport & Hin).
    rewrite (build_res _ _ _ _ Hport).
    apply (build_try_without_transform _ _ _ _ Hlacks Hin).
  - intros Hprovides Hlacks Hin. split; [|reflexivity].
    apply in_build_try in Hin; [|simpl; lia]. destruct Hin as (port & Hport & Hin).
    rewrite (build_res _ _ _ _ Hport).
    apply (build_try_without_collector _ _ _ _ Hprovides Hlacks Hin).
Qed.

Lemma missing_ingestion_role_witness :
  (res (build Demo.host (Demo.config_of "dist" [Demo.bundler]) Demo.world)
   = Throw transform_required /\
   is_substring "transform plugin" (err_message transform_required) = true) /\
  (res (build Demo.host
          (Demo.config_of "dist" [Demo.bundler; Demo.transform_only]) Demo.world)
   = Throw collector_required /\
   is_substring "collector plugin" (err_message collector_required) = true).
Proof.
  split.
  - apply (proj1 (proj2 (proj2 (proj2
             (missing_ingestion_role_fails
                Demo.host (Demo.config_of "dist" [Demo.bundler]) Demo.world))))).
    + repeat constructor.
    + in_trace.
  - apply (proj2 (proj2 (proj2 (proj2
             (missing_ingestion_role_fails
                Demo.host
                (Demo.config_of "dist" [Demo.bundler; Demo.transform_only])
                Demo.world))))).
    + apply Exists_cons_tl, Exists_cons_hd. reflexivity.
    + repeat constructor.
    + in_trace.
Defined.

(** C5 as stated fails: the empty plugin list has no transform plugin, but
    the build fails on the missing bundler, with an error that does not
    mention the transform plugin; and when the error of the transform
    plugin is raised, the build has already removed [dist] and called both
    capabilities of the bundler. *)
Lemma empty_plugin_list_fails_on_bundler :
  let o := build Demo.host (Demo.config_of "dist" []) Demo.world in
  let o' := build Demo.host (Demo.config_of "dist" [Demo.bundler]) Demo.world in
  lacks Plugin.transform (Demo.config_of "dist" []) /\
  res o = Throw bundler_required /\
  is_substring "transform plugin" (err_message bundler_required) = false /\
  res o' = Throw transform_required /\
  In (Rimraf "dist") (events o') /\
  In (Build "bundler") (events o') /\
  In (BuildForPrerendering "bundler") (events o') /\
  fs (world o') !! "dist/old.html" = None.
Proof.
  cbv zeta. split; [constructor|].
  split; [vm_compute; reflexivity|]. split; [vm_compute; reflexivity|].
  split; [vm_compute; reflexivity|].
  split; [in_trace|]. split; [in_trace|]. split; [in_trace|].
  vm_compute. reflexivity.
Qed.

(** ** Reaching the prerender phase *)

Lemma after_skippable_in {B} (P : Event -> Prop) (X : Event) (R : Out B -> Prop) :
  (forall ev, P ev -> ev <> X) ->
  (forall o pre,
      Forall P pre -> R o -> R (mkOut (res o) (world o) (pre ++ events o))) ->
  Skippable P (after X R).
Proof.
  intros HP HR.
  assert (Hnot : forall tr, Forall P tr -> ~ In X tr).
  { intros tr Htr Hin. rewrite Forall_forall in Htr.
    apply (HP X); [apply Htr, list_elem_of_In, Hin | reflexivity]. }
  split; unfold after; cbn [res events].
  - intros e w ev Hev Hin. destruct (Hnot ev Hev Hin).
  - intros o pre Hpre Ho Hin. apply HR; [auto|]. apply Ho.
    apply in_app_or in Hin.
    destruct Hin as [Hin|Hin]; [destruct (Hnot pre Hpre Hin) | exact Hin].
Qed.

Lemma reaches_skippable h config urls :
  Skippable early (after (Debug (DUrls urls)) (reaches_prerendering h config urls)).
Proof.
  apply after_skippable_in.
  - intros ev [_ Hev]. apply Hev.
  - intros o pre Hpre (pre' & app & assets & phenomicFetch & w' & Hearly & Hres & Hev).
    exists (pre ++ pre'), app, assets, phenomicFetch, w'. cbn [res events].
    split; [apply Forall_app; auto|]. split; [exact Hres|].
    rewrite Hev. apply app_assoc.
Qed.

Ltac early_leaf :=
  first
    [ split; [unfold before; simpl; lia | intros ?; discriminate]
    | by_phase; (split; [unfold before; simpl; lia | intros ?; discriminate]) ].

Lemma not_in_emitted {A} (P : Event -> Prop) (m : M A) w X :
  emits P m -> ~ P X -> ~ In X (events (m w)).
Proof.
  intros Hm HX Hin. specialize (Hm w). rewrite Forall_forall in Hm.
  apply HX, Hm, list_elem_of_In, Hin.
Qed.

Lemma build_try_reaches h config port w urls :
  after (Debug (DUrls urls)) (reaches_prerendering h config urls)
    (build_try h config port w).
Proof.
  unfold build_try. cbv zeta.
  repeat skip_step (reaches_skippable h config urls) ltac:(early_leaf).
  intros Hin.
  rewrite bind_events in Hin. cbn [debug emit res events world app] in Hin.
  destruct Hin as [Heq|Hin].
  - injection Heq as ->. exists []. do 4 eexists.
    split; [constructor|]. split; reflexivity.
  - exfalso.
    match goal with
    | Hin : In ?X (events (?m ?w')) |- _ =>
        assert (Hm : emits (fun ev => ev <> X) m)
          by (emits_parts ltac:(phase_leaf));
        exact (not_in_emitted _ m w' X Hm (fun H => H eq_refl) Hin)
    end.
Qed.

Lemma build_reaches h config w urls :
  In (Debug (DUrls urls)) (events (build h config w)) ->
  exists pre app assets phenomicFetch w',
    Forall early pre /\
    res (build h config w)
    = res (prerendering h config app assets phenomicFetch urls w') /\
    events (build h config w)
    = pre ++ events (prerendering h config app assets phenomicFetch urls w') ++
      match res (prerendering h config app assets phenomicFetch urls w') with
      | Ok _ => []
      | Throw _ => [Close; Debug DServerClosedDueToError]
      end.
Proof.
  intros Hin. apply in_build_try in Hin; [|simpl; lia].
  destruct Hin as (port & Hport & Hin).
  destruct (build_try_reaches _ _ _ _ _ Hin)
    as (pre & app & assets & phenomicFetch & w' & Hpre & Hres & Hev).
  exists (events (build_start h config w) ++ pre), app, assets, phenomicFetch, w'.
  split; [|split].
  - apply Forall_app. split; [|exact Hpre].
    assert (H : emits early (build_start h config))
      by (emits_parts ltac:(early_leaf)).
    apply H.
  - rewrite (build_res _ _ _ _ Hport). exact Hres.
  - rewrite (build_events _ _ _ _ Hport), Hres, Hev, <- !app_assoc. reflexivity.
Qed.

Lemma early_closes pre : Forall early pre -> closes pre = 0.
Proof.
  intros H. apply closes_none. eapply Forall_impl; [exact H|].
  intros ev [Hev _]. unfold before in Hev.
  destruct ev; try reflexivity. simpl in Hev. lia.
Qed.

Lemma early_not_prerendering pre ev :
  Forall early pre -> phase_of ev = Prerendering -> ~ In ev pre.
Proof.
  intros H Hph Hin. rewrite Forall_forall in H.
  apply list_elem_of_In, H in Hin. destruct Hin as [Hin _].
  unfold before in Hin. rewrite Hph in Hin. simpl in Hin. lia.
Qed.

(** The events and the result of [prerendering] in terms of its fan-out. *)
Lemma prerendering_run h config app assets phenomicFetch urls w :
  res (prerendering h config app assets phenomicFetch urls w)
  = res (fanout h config app assets phenomicFetch urls w) /\
  events (prerendering h config app assets phenomicFetch urls w)
  = Debug (DUrls urls)
    :: (if length urls =? 0 then [Console CNoURLsWarning] else []) ++
       events (fanout h config app assets phenomicFetch urls w) ++
       match res (fanout h config app assets phenomicFetch urls w) with
       | Ok _ => [Console CPrerenderingFinished; Close; Debug DServerClosed]
       | Throw _ => []
       end.
Proof.
  unfold prerendering. fold (fanout h config app assets phenomicFetch urls).
  rewrite !bind_res, !bind_events. cbn [debug emit res world events List.app].
  destruct (length urls =? 0); cbn [console_log emit ret res world events List.app];
    destruct (res (fanout h config app assets phenomicFetch urls w)) as [[]|e];
    cbn [close emit res world events List.app]; split; reflexivity.
Qed.

(** ** No URL (C8) *)

Lemma prerendering_nothing h config app assets phenomicFetch w :
  prerendering h config app assets phenomicFetch [] w =
  mkOut (Ok tt) w
    [Debug (DUrls []); Console CNoURLsWarning; Console CPrerenderingFinished;
     Close; Debug DServerClosed].
Proof. reflexivity. Qed.

(** C8: when [resolveURLs] has returned the empty list (the debug line of
    the resolved URLs shows it), the build succeeds, the warning is
    printed, the server is closed once, [renderStatic] is never called and
    no file is written. *)
Theorem build_without_urls_succeeds h config w :
  In (Debug (DUrls [])) (events (build h config w)) ->
  res (build h config w) = Ok tt /\
  In (Console CNoURLsWarning) (events (build h config w)) /\
  closes (events (build h config w)) = 1 /\
  (forall plugin location,
      ~ In (RenderStatic plugin location) (events (build h config w))) /\
  (forall p contents, ~ In (WriteFile p contents) (events (build h config w))).
Proof.
  intros Hin.
  destruct (build_reaches _ _ _ _ Hin)
    as (pre & app & assets & phenomicFetch & w' & Hpre & Hres & Hev).
  rewrite prerendering_nothing in Hres, Hev. cbn [res events] in Hres, Hev.
  rewrite Hres, Hev. split; [reflexivity|]. split; [|split; [|split]].
  - apply in_or_app. right. simpl. auto.
  - rewrite closes_app, (early_closes _ Hpre). reflexivity.
  - intros plugin location H. apply in_app_or in H. destruct H as [H|H].
    + revert H. apply early_not_prerendering; [exact Hpre | reflexivity].
    + simpl in H. repeat (destruct H as [H|H]; [discriminate H|]). exact H.
  - intros p contents H. apply in_app_or in H. destruct H as [H|H].
    + revert H. apply early_not_prerendering; [exact Hpre | reflexivity].
    + simpl in H. repeat (destruct H as [H|H]; [discriminate H|]). exact H.
Qed.

Lemma build_without_urls_witness :
  let o := build Demo.host (Demo.site []) Demo.world in
  In (Debug (DUrls [])) (events o) /\
  res o = Ok tt /\
  In (Console CNoURLsWarning) (events o) /\
  closes (events o) = 1.
Proof.
  assert (Hin : In (Debug (DUrls []))
                  (events (build Demo.host (Demo.site []) Demo.world)))
    by in_trace.
  pose proof (build_without_urls_succeeds _ _ _ Hin) as H.
  cbv zeta. tauto.
Defined.

(** ** The check of [renderStatic] (C10) *)

(** The fan-out when the renderer has no [renderStatic].  The claim itself
    is stated with the resolution of the routes, which shows that such a
    build comes to the fan-out. *)

Lemma first_with_head {A} (cap : Plugin.t -> option A) config p :
  first_with cap config p ->
  head (List.filter (fun p => has (cap p)) (plugins config)) = Some p.
Proof.
  intros (earlier & later & -> & Hp & Hearlier).
  induction Hearlier as [|q earlier Hq _ IH]; simpl.
  - rewrite Hp. reflexivity.
  - rewrite Hq. exact IH.
Qed.


Section PoolFirst.
Context {Task : Type}.
Variable mapper : string -> M Task.
Variable resume : Task -> M (option Task).
Variable location_of : Task -> string.
Variable pick : nat -> nat.

End PoolFirst.


(** ** Where the files are written (C7) *)

(** The calls of [writeFile] for one render result.  The claim itself is
    stated with the order of the writes of a page. *)

Section Traces.
Variable Q : list Event -> Prop.
Hypothesis Q_closed : Closed Q.

Lemma traces_silent {A} (m : M A) : (forall w, events (m w) = []) -> traces Q m.
Proof. intros H w. rewrite H. apply Q_closed. Qed.

Lemma traces_emit ev : Q [ev] -> traces Q (emit ev).
Proof. intros H w. exact H. Qed.

Lemma traces_bind {A B} (m : M A) (f : A -> M B) :
  traces Q m -> (forall a, traces Q (f a)) -> traces Q (bind m f).
Proof.
  intros Hm Hf w. rewrite bind_events. apply Q_closed; [apply Hm|].
  destruct (res (m w)); [apply Hf | apply Q_closed].
Qed.

Lemma traces_try_catch {A} (m : M A) handler :
  traces Q m -> (forall e, traces Q (handler e)) -> traces Q (try_catch m handler).
Proof.
  intros Hm Hh w. rewrite try_catch_events. apply Q_closed; [apply Hm|].
  destruct (res (m w)); [apply Q_closed | apply Hh].
Qed.

Lemma traces_mapM {A B} (f : A -> M B) xs :
  (forall x, traces Q (f x)) -> traces Q (mapM f xs).
Proof.
  intros Hf. induction xs as [|x xs IH]; simpl.
  - apply traces_silent. reflexivity.
  - apply traces_bind; [apply Hf|]. intros y.
    apply traces_bind; [apply IH|]. intros ys. apply traces_silent. reflexivity.
Qed.

Context {Task : Type}.
Variable mapper : string -> M Task.
Variable resume : Task -> M (option Task).
Variable location_of : Task -> string.
Variable pick : nat -> nat.
Variable concurrency : nat.
Hypothesis Q_started : forall location, Q [Started location].
Hypothesis Q_settled : forall location fulfilled, Q [Settled location fulfilled].
Hypothesis Q_mapper : forall location, traces Q (mapper location).
Hypothesis Q_resume : forall t, traces Q (resume t).

Lemma pool_fill_traces queue inflight :
  traces Q (pool_fill mapper concurrency queue inflight).
Proof.
  revert inflight. induction queue as [|location rest IH]; intros inflight; simpl.
  - apply traces_silent. reflexivity.
  - destruct (length inflight <? concurrency); [|apply traces_silent; reflexivity].
    apply traces_bind; [|intros t; apply IH].
    unfold pool_start. apply traces_bind; [apply traces_emit, Q_started|].
    intros _. apply traces_try_catch; [apply Q_mapper|]. intros e.
    apply traces_bind; [apply traces_emit, Q_settled|].
    intros _. apply traces_silent. reflexivity.
Qed.

Lemma pool_step_traces k queue inflight :
  traces Q (pool_step mapper resume location_of pick concurrency k queue inflight).
Proof.
  unfold pool_step. destruct (inflight !! _); [|apply traces_silent; reflexivity].
  apply traces_bind.
  - unfold pool_resume. apply traces_bind.
    + apply traces_try_catch; [apply Q_resume|]. intros e.
      apply traces_bind; [apply traces_emit, Q_settled|].
      intros _. apply traces_silent. reflexivity.
    + intros [t'|]; [apply traces_silent; reflexivity|].
      apply traces_bind; [apply traces_emit, Q_settled|].
      intros _. apply traces_silent. reflexivity.
  - intros [t'|]; [apply traces_silent; reflexivity | apply pool_fill_traces].
Qed.

Lemma pMap_traces fuel input :
  traces Q (pMap mapper resume location_of pick concurrency fuel input).
Proof.
  unfold pMap. destruct (concurrency =? 0); [apply traces_silent; reflexivity|].
  apply traces_bind; [apply pool_fill_traces|]. intros st.
  generalize 0 as k. generalize st.1 as queue. generalize st.2 as inflight.
  induction fuel as [|fuel IH]; intros inflight queue k;
    destruct inflight as [|t inflight]; simpl;
    try (apply traces_silent; reflexivity).
  apply traces_bind; [apply pool_step_traces | intros st'; apply IH].
Qed.
End Traces.

Lemma writeFile_events h p contents w :
  events (writeFile h p contents w) = [WriteFile p contents].
Proof. unfold writeFile, bind, emit. destruct (fault h (OpWriteFile p)); reflexivity. Qed.

Lemma writeFile_res h p contents w :
  exists r, res (writeFile h p contents w) = Ok r.
Proof.
  unfold writeFile, bind, emit. destruct (fault h (OpWriteFile p)); cbn; eauto.
Qed.

(** The calls of [writeFile] made by line 110 to 116 for [files]. *)
Lemma write_calls_run h config files w :
  events
    (mapM (fun file =>
             decoded <- await (decodeURIComponent (file_path file)) ;;
             writeFile h (path_join (outdir config) decoded) (file_contents file))
          files w)
  = write_calls (outdir config) files.
Proof.
  revert w. induction files as [|file files IH]; intros w; [reflexivity|].
  cbn [mapM write_calls]. rewrite bind_events, bind_events, bind_res.
  cbn [await res events world].
  destruct (decodeURIComponent (file_path file)) as [decoded|e]; [|reflexivity].
  rewrite writeFile_events.
  destruct (writeFile_res h (path_join (outdir config) decoded)
              (file_contents file) w) as [r Hr].
  rewrite Hr. cbn [List.app]. f_equal. rewrite bind_events, IH.
  destruct (res (mapM _ _ _)); cbn [ret events]; apply app_nil_r.
Qed.

Lemma write_calls_decodable out files file :
  Forall decodable files ->
  In file files ->
  exists decoded,
    decodeURIComponent (file_path file) = Ok decoded /\
    In (WriteFile (path_join out decoded) (file_contents file))
       (write_calls out files).
Proof.
  induction 1 as [|first rest [decoded Hd] _ IH]; intros Hin; [destruct Hin|].
  cbn [write_calls]. rewrite Hd. destruct Hin as [<-|Hin].
  - exists decoded. split; [exact Hd | left; reflexivity].
  - destruct (IH Hin) as (d & Hdec & Hw). exists d. split; [exact Hdec | right; exact Hw].
Qed.

(** C7 as stated fails: of the three files returned for a location, the
    second has a malformed path; [decodeURIComponent] throws, the build
    fails, and the third file, whose path is fine, is never written. *)
Lemma malformed_path_stops_the_writes :
  let config :=
    Demo.config_of "dist"
      [Demo.bundler; Demo.markdown; Demo.careless_renderer; Demo.resolver ["/"]] in
  let o := build Demo.host config Demo.world in
  In (Debug (DCollected "/" Demo.careless_files)) (events o) /\
  res o = Throw URIError /\
  In (WriteFile "dist/first.html" "1") (events o) /\
  decodeURIComponent "last.html" = Ok "last.html" /\
  ~ In (WriteFile "dist/last.html" "3") (events o) /\
  fs (world o) !! "dist/last.html" = None.
Proof.
  cbv zeta. split; [in_trace|]. split; [vm_compute; reflexivity|].
  split; [in_trace|]. split; [reflexivity|]. split; [|vm_compute; reflexivity].
  vm_compute. intros H.
  repeat (destruct H as [H|H]; [discriminate H|]). exact H.
Qed.

(** ** The fan-out keeps at most fifty calls in flight (C6) *)

(** The bound on the calls in flight and the completion of the pool.  The
    claim itself is stated once the files of a page are tied to what
    [renderStatic] returns. *)

Lemma within_entry c n tr : within c n tr -> n <= c.
Proof. destruct tr; intros [H _]; exact H. Qed.

Lemma within_app c n t1 t2 :
  within c n (t1 ++ t2) <-> within c n t1 /\ within c (fold_left tick t1 n) t2.
Proof.
  revert n. induction t1 as [|ev t1 IH]; intros n; cbn [List.app fold_left within].
  - split; [intros H; split; [split; [apply (within_entry _ _ _ H) | exact I] | exact H]
           | intros [_ H]; exact H].
  - rewrite IH. tauto.
Qed.

Lemma within_exit c n tr : within c n tr -> fold_left tick tr n <= c.
Proof.
  intros H. assert (H' : within c n (tr ++ [])) by (rewrite app_nil_r; exact H).
  apply within_app in H'. destruct H' as [_ H']. apply (within_entry _ _ _ H').
Qed.

Lemma neutral_fold tr n : Forall neutral tr -> fold_left tick tr n = n.
Proof.
  intros H. revert n. induction H as [|ev tr Hev _ IH]; intros n; [reflexivity|].
  cbn [fold_left]. rewrite <- (IH n) at 2. f_equal.
  destruct ev; try reflexivity; destruct Hev.
Qed.

Lemma within_neutral c n tr : Forall neutral tr -> n <= c -> within c n tr.
Proof.
  intros H Hn. induction H as [|ev tr Hev _ IH]; cbn [within]; [auto|].
  split; [exact Hn|].
  replace (tick n ev) with n; [exact IH|].
  destruct ev; try reflexivity; destruct Hev.
Qed.

(** [within] bounds the number of calls in flight after every prefix. *)
Lemma within_prefix c tr :
  within c 0 tr -> forall p, p `prefix_of` tr -> in_flight p <= c.
Proof.
  intros H p [k ->]. apply within_app in H. destruct H as [H _].
  apply within_exit, H.
Qed.

Lemma paced_quiet {A} c n (m : M A) :
  emits neutral m -> n <= c -> paced c n (fun _ => n) m.
Proof.
  intros Hm Hn w. split; [apply within_neutral; auto|].
  destruct (res (m w)); [apply neutral_fold, Hm | exact I].
Qed.

Lemma paced_ret {A} c n (count : A -> nat) (a : A) :
  n <= c -> count a = n -> paced c n count (ret a).
Proof. intros Hn Ha w. cbn. auto. Qed.

Lemma paced_bind {A B} c n count count' (m : M A) (f : A -> M B) :
  paced c n count m ->
  (forall a, count a <= c -> paced c (count a) count' (f a)) ->
  paced c n count' (bind m f).
Proof.
  intros Hm Hf w. rewrite bind_events, bind_res.
  destruct (Hm w) as [Hwithin Hcount].
  destruct (res (m w)) as [a|e].
  - assert (Ha : count a <= c) by (rewrite <- Hcount; apply within_exit, Hwithin).
    destruct (Hf a Ha (world (m w))) as [Hwithin' Hcount'].
    rewrite within_app, fold_left_app, Hcount. auto.
  - rewrite app_nil_r. auto.
Qed.

Section PoolPace.
Context {Task : Type}.
Variable mapper : string -> M Task.
Variable resume : Task -> M (option Task).
Variable location_of : Task -> string.
Variable pick : nat -> nat.
Variable concurrency : nat.
Hypothesis mapper_neutral : forall location, emits neutral (mapper location).
Hypothesis resume_neutral : forall t, emits neutral (resume t).

Lemma pool_start_paced n location :
  n < concurrency ->
  paced concurrency n (fun _ => S n) (pool_start mapper location).
Proof.
  intros Hn w. unfold pool_start.
  rewrite bind_events, bind_res. cbn [emit res events world List.app within tick fold_left].
  rewrite try_catch_events, try_catch_res.
  pose proof (mapper_neutral location w) as Hm.
  destruct (res (mapper location w)) as [t|e].
  - rewrite app_nil_r. split.
    + split; [lia|]. apply within_neutral; [exact Hm | lia].
    + apply neutral_fold, Hm.
  - split; [|exact I]. split; [lia|].
    apply within_app. split; [apply within_neutral; [exact Hm | lia]|].
    rewrite (neutral_fold _ _ Hm). cbn. repeat split; lia.
Qed.

Lemma pool_resume_paced n t :
  n <= concurrency ->
  paced concurrency n
    (fun next => match next with Some _ => n | None => pred n end)
    (pool_resume resume location_of t).
Proof.
  intros Hn w. unfold pool_resume.
  rewrite bind_events, bind_res, try_catch_events, try_catch_res.
  pose proof (resume_neutral t w) as Hm.
  destruct (res (resume t w)) as [[t'|]|e]; cbn [emit bind ret throw res events world List.app].
  - rewrite !app_nil_r. split; [apply within_neutral; auto | apply neutral_fold, Hm].
  - rewrite app_nil_r. split.
    + apply within_app. split; [apply within_neutral; auto|].
      rewrite (neutral_fold _ _ Hm). cbn. repeat split; lia.
    + rewrite fold_left_app, (neutral_fold _ _ Hm). reflexivity.
  - rewrite app_nil_r. split; [|exact I].
    apply within_app. split; [apply within_neutral; auto|].
    rewrite (neutral_fold _ _ Hm). cbn. repeat split; lia.
Qed.

Lemma pool_fill_paced queue inflight :
  length inflight <= concurrency ->
  paced concurrency (length inflight) (fun st => length st.2)
    (pool_fill mapper concurrency queue inflight).
Proof.
  revert inflight. induction queue as [|location rest IH]; intros inflight Hlen;
    cbn [pool_fill].
  - apply paced_ret; [exact Hlen | reflexivity].
  - destruct (length inflight <? concurrency) eqn:Hlt.
    + apply Nat.ltb_lt in Hlt.
      apply (paced_bind _ _ (fun _ => S (length inflight))).
      * apply pool_start_paced, Hlt.
      * intros t _. replace (S (length inflight)) with (length (inflight ++ [t]))
          by (rewrite length_app; simpl; lia).
        apply IH. rewrite length_app. simpl. lia.
    + apply paced_ret; [exact Hlen | reflexivity].
Qed.

Lemma pool_step_paced k queue inflight :
  length inflight <= concurrency ->
  paced concurrency (length inflight) (fun st => length st.2)
    (pool_step mapper resume location_of pick concurrency k queue inflight).
Proof.
  intros Hlen. unfold pool_step.
  destruct (inflight !! (pick k mod length inflight)) as [t|] eqn:Hlookup.
  - apply (paced_bind _ _ (fun next => match next with
                                       | Some _ => length inflight
                                       | None => pred (length inflight)
                                       end)).
    + apply pool_resume_paced, Hlen.
    + intros [t'|] _.
      * apply paced_ret; [exact Hlen|]. cbn. apply length_insert.
      * assert (Hdel : length (delete (pick k mod length inflight) inflight)
                       = pred (length inflight)).
        { rewrite length_delete; [lia | eauto]. }
        rewrite <- Hdel. apply pool_fill_paced. lia.
  - apply paced_ret; [exact Hlen | reflexivity].
Qed.

Lemma pool_run_paced fuel k queue inflight :
  length inflight <= concurrency ->
  paced concurrency (length inflight) (fun _ => 0)
    (pool_run mapper resume location_of pick concurrency fuel k queue inflight).
Proof.
  revert k queue inflight. induction fuel as [|fuel IH]; intros k queue inflight Hlen;
    destruct inflight as [|t inflight]; cbn [pool_run].
  - apply paced_ret; [lia | reflexivity].
  - intros w. cbn. split; [split; [exact Hlen | exact I] | exact I].
  - apply paced_ret; [lia | reflexivity].
  - apply (paced_bind _ _ (fun st => length st.2)).
    + apply pool_step_paced, Hlen.
    + intros st Hst. apply IH, Hst.
Qed.

Lemma pMap_paced fuel input :
  paced concurrency 0 (fun _ => 0)
    (pMap mapper resume location_of pick concurrency fuel input).
Proof.
  unfold pMap. destruct (concurrency =? 0).
  - intros w. cbn. repeat split; lia.
  - apply (paced_bind _ _ (fun st => length st.2)).
    + apply (pool_fill_paced input []). simpl. lia.
    + intros st Hst. apply pool_run_paced, Hst.
Qed.
End PoolPace.

Lemma prerender_start_neutral config renderer app assets phenomicFetch location :
  emits neutral
    (prerenderFileAndDependencies config renderer app assets phenomicFetch location).
Proof.
  unfold prerenderFileAndDependencies, capability, debug. emits_tac; exact I.
Qed.

Lemma prerender_resume_neutral h config t :
  emits neutral (prerender_resume h config t).
Proof. unfold prerender_resume, writeFile, debug. emits_tac; exact I. Qed.

Lemma fanout_paced h config app assets phenomicFetch urls :
  paced 50 0 (fun _ => 0) (fanout h config app assets phenomicFetch urls).
Proof.
  apply pMap_paced.
  - intros location. apply prerender_start_neutral.
  - intros t. apply prerender_resume_neutral.
Qed.

Lemma bounded_skippable {B} c : Skippable neutral (@bounded B c).
Proof.
  split; unfold bounded; cbn [events].
  - intros _ _ ev Hev. apply within_neutral; [exact Hev | lia].
  - intros o pre Hpre Ho. apply within_app.
    split; [apply within_neutral; [exact Hpre | lia]|].
    rewrite (neutral_fold _ _ Hpre). exact Ho.
Qed.

Lemma build_try_bounded h config port w : bounded 50 (build_try h config port w).
Proof.
  unfold build_try. cbv zeta.
  repeat skip_step (@bounded_skippable unit 50) ltac:(exact I).
  match goal with
  | |- bounded _
         (bind (pMap (fun location =>
                        prerenderFileAndDependencies _ _ ?app ?assets ?fetch location)
                     _ _ _ _ _ ?urls) ?f ?w') =>
      unfold bounded; rewrite bind_events;
      destruct (fanout_paced h config app assets fetch urls w')
        as [Hwithin Hcount];
      unfold fanout in Hwithin, Hcount;
      apply within_app; split; [exact Hwithin|];
      destruct (res (pMap _ _ _ _ _ _ _ _)) as [?|?];
      [ rewrite Hcount | apply within_exit in Hwithin; cbn; auto ]
  end.
  apply within_neutral; [|lia].
  match goal with
  | |- Forall _ (events (?m ?w')) =>
      assert (Hm : emits neutral m) by (emits_parts ltac:(exact I)); apply Hm
  end.
Qed.

Lemma build_bounded h config w : bounded 50 (build h config w).
Proof.
  unfold bounded.
  assert (Hstart : Forall neutral (events (build_start h config w))).
  { assert (H : emits neutral (build_start h config)) by (emits_parts ltac:(exact I)).
    apply H. }
  destruct (res (build_start h config w)) as [port|e] eqn:E.
  - rewrite (build_events _ _ _ _ E).
    apply within_app. split; [apply within_neutral; [exact Hstart | lia]|].
    rewrite (neutral_fold _ _ Hstart).
    pose proof (build_try_bounded h config port (world (build_start h config w)))
      as Htry.
    apply within_app. split; [exact Htry|].
    apply within_neutral; [|apply within_exit, Htry].
    destruct (res (build_try _ _ _ _)); repeat constructor.
  - rewrite (build_events_failed_start _ _ _ _ E). cbn [events].
    apply within_neutral; [exact Hstart | lia].
Qed.

(** *** Every call of the pool settles *)

Section PoolComplete.
Context {Task : Type}.
Variable mapper : string -> M Task.
Variable resume : Task -> M (option Task).
Variable location_of : Task -> string.
Variable pick : nat -> nat.
Variable concurrency : nat.
Variable rank : Task -> nat.
Variable R : nat.
Variable Inv : Task -> list Event -> Prop.
Variable Post : string -> list Event -> Prop.
Hypothesis concurrency_pos : 0 < concurrency.
Hypothesis rank_pos : forall t, 0 < rank t.
Hypothesis Inv_mono : forall t tr tr', incl tr tr' -> Inv t tr -> Inv t tr'.
Hypothesis Post_mono : forall location tr tr',
  incl tr tr' -> Post location tr -> Post location tr'.
Hypothesis mapper_ok : forall location w t,
  res (mapper location w) = Ok t ->
  location_of t = location /\ rank t <= R /\ Inv t (events (mapper location w)).
Hypothesis resume_some : forall t w t' tr,
  Inv t tr -> res (resume t w) = Ok (Some t') ->
  location_of t' = location_of t /\ rank t' < rank t /\
  Inv t' (tr ++ events (resume t w)).
Hypothesis resume_none : forall t w tr,
  Inv t tr -> res (resume t w) = Ok None ->
  Post (location_of t) (tr ++ events (resume t w)).

Lemma finished_mono location tr tr' :
  incl tr tr' -> finished Post location tr -> finished Post location tr'.
Proof. intros Hincl [HPost Hin]. split; [eapply Post_mono; eauto | auto]. Qed.

Lemma pool_start_ok location w :
  match res (pool_start mapper location w) with
  | Ok t =>
      location_of t = location /\ rank t <= R /\
      Inv t (events (pool_start mapper location w))
  | Throw _ => In (Settled location false) (events (pool_start mapper location w))
  end.
Proof.
  unfold pool_start. rewrite bind_res, bind_events.
  cbn [emit res events world List.app]. rewrite try_catch_res, try_catch_events.
  destruct (res (mapper location w)) as [t|e] eqn:E.
  - destruct (mapper_ok _ _ _ E) as (Hloc & Hrank & Hinv). repeat split; auto.
    eapply Inv_mono; [|exact Hinv]. rewrite app_nil_r. apply incl_tl, incl_refl.
  - cbn. right. apply in_or_app. right. left. reflexivity.
Qed.

Lemma pool_resume_ok t w tr :
  Inv t tr ->
  match res (pool_resume resume location_of t w) with
  | Ok (Some t') =>
      location_of t' = location_of t /\ rank t' < rank t /\
      Inv t' (tr ++ events (pool_resume resume location_of t w))
  | Ok None =>
      finished Post (location_of t)
        (tr ++ events (pool_resume resume location_of t w))
  | Throw _ =>
      In (Settled (location_of t) false)
        (events (pool_resume resume location_of t w))
  end.
Proof.
  intros Hinv. unfold pool_resume.
  rewrite bind_res, bind_events, try_catch_res, try_catch_events.
  destruct (res (resume t w)) as [[t'|]|e] eqn:E;
    cbn [emit bind ret throw res events world List.app].
  - rewrite !app_nil_r. apply (resume_some _ _ _ _ Hinv E).
  - rewrite app_nil_r. split.
    + eapply Post_mono; [|apply (resume_none _ _ _ Hinv E)].
      rewrite app_assoc. apply incl_appl, incl_refl.
    + apply in_or_app. right. apply in_or_app. right. left. reflexivity.
  - rewrite app_nil_r. apply in_or_app. right. left. reflexivity.
Qed.

Lemma pool_fill_ok queue inflight w tr :
  Forall (fun t => Inv t tr) inflight ->
  pool_keeps location_of rank R concurrency Inv Post tr queue inflight
    (pool_fill mapper concurrency queue inflight w).
Proof.
  unfold pool_keeps.
  revert inflight w tr. induction queue as [|location rest IH];
    intros inflight w tr Hinv; cbn [pool_fill].
  - cbn. rewrite app_nil_r. repeat split; auto.
  - destruct (length inflight <? concurrency) eqn:Hlt.
    + rewrite bind_res, bind_events.
      pose proof (pool_start_ok location w) as Hstart.
      destruct (res (pool_start mapper location w)) as [t|e].
      * destruct Hstart as (Hloc & Hrank & Ht).
        specialize (IH (inflight ++ [t]) (world (pool_start mapper location w))
                      (tr ++ events (pool_start mapper location w))).
        destruct (res (pool_fill mapper concurrency rest (inflight ++ [t]) _))
          as [st|e].
        -- rewrite app_assoc.
           destruct IH as (Hall & Hlocs & Hfull & Hsum).
           { apply Forall_app. split.
             - eapply Forall_impl; [exact Hinv|]. intros t0 H0.
               eapply Inv_mono; [|exact H0]. apply incl_appl, incl_refl.
             - repeat constructor. eapply Inv_mono; [|exact Ht].
               apply incl_appr, incl_refl. }
           repeat split; auto.
           ++ intros location' Hin. apply Hlocs.
              rewrite map_app, <- app_assoc. cbn [map List.app]. rewrite Hloc.
              exact Hin.
           ++ rewrite map_app, list_sum_app in Hsum.
              change (list_sum (map rank [t])) with (rank t + 0) in Hsum.
              cbn [length]. rewrite Nat.mul_succ_r. lia.
        -- destruct IH as [location' Hin].
           { apply Forall_app. split.
             - eapply Forall_impl; [exact Hinv|]. intros t0 H0.
               eapply Inv_mono; [|exact H0]. apply incl_appl, incl_refl.
             - repeat constructor. eapply Inv_mono; [|exact Ht].
               apply incl_appr, incl_refl. }
           exists location'. apply in_or_app. right. exact Hin.
      * rewrite app_nil_r. eauto.
    + apply Nat.ltb_ge in Hlt. cbn. rewrite app_nil_r. repeat split; auto.
Qed.

Lemma pool_step_ok k queue inflight w tr :
  Forall (fun t => Inv t tr) inflight ->
  inflight <> [] ->
  queue = [] \/ concurrency <= length inflight ->
  match res (pool_step mapper resume location_of pick concurrency k queue inflight w) with
  | Ok st =>
      Forall (fun t =>
                Inv t (tr ++ events (pool_step mapper resume location_of pick
                                       concurrency k queue inflight w))) st.2 /\
      (forall location,
          In location (map location_of inflight ++ queue) ->
          In location (map location_of st.2 ++ st.1) \/
          finished Post location
            (tr ++ events (pool_step mapper resume location_of pick
                             concurrency k queue inflight w))) /\
      (st.1 = [] \/ concurrency <= length st.2) /\
      list_sum (map rank st.2) + R * length st.1
      < list_sum (map rank inflight) + R * length queue
  | Throw _ =>
      exists location,
        In (Settled location false)
           (events (pool_step mapper resume location_of pick
                      concurrency k queue inflight w))
  end.
Proof.
  intros Hinv Hne Hfull. unfold pool_step.
  assert (Hi : pick k mod length inflight < length inflight).
  { apply Nat.mod_upper_bound. destruct inflight; [congruence | simpl; lia]. }
  destruct (inflight !! (pick k mod length inflight)) as [t|] eqn:Hlookup.
  2:{ apply lookup_ge_None in Hlookup. lia. }
  assert (Ht : Inv t tr).
  { rewrite Forall_forall in Hinv. apply Hinv. apply list_elem_of_lookup. eauto. }
  assert (Hins : forall t', <[pick k mod length inflight := t']> inflight
                            = take (pick k mod length inflight) inflight
                              ++ t' :: drop (S (pick k mod length inflight)) inflight)
    by (intros t'; apply insert_take_drop, Hi).
  assert (Hdel : delete (pick k mod length inflight) inflight
                 = take (pick k mod length inflight) inflight
                   ++ drop (S (pick k mod length inflight)) inflight)
    by apply delete_take_drop.
  pose proof (take_drop_middle _ _ _ Hlookup) as Hsplit.
  rewrite Hdel. clear Hdel.
  revert Hins Hsplit.
  generalize (take (pick k mod length inflight) inflight) as l1.
  generalize (drop (S (pick k mod length inflight)) inflight) as l2.
  intros l2 l1 Hins Hsplit.
  rewrite bind_res, bind_events.
  pose proof (pool_resume_ok t w tr Ht) as Hresume.
  assert (H1 : Forall (fun t => Inv t tr) l1 /\ Forall (fun t => Inv t tr) l2).
  { rewrite <- Hsplit in Hinv. apply Forall_app in Hinv. destruct Hinv as [H1 H2].
    apply Forall_cons in H2. tauto. }
  destruct H1 as [H1 H2].
  assert (Hmono : forall l ev,
             Forall (fun t => Inv t tr) l -> Forall (fun t => Inv t (tr ++ ev)) l).
  { intros l ev Hl. eapply Forall_impl; [exact Hl|]. intros t0 H0.
    eapply Inv_mono; [|exact H0]. apply incl_appl, incl_refl. }
  destruct (res (pool_resume resume location_of t w)) as [[t'|]|e].
  - destruct Hresume as (Hloc & Hrank & Ht').
    cbn [ret res events world fst snd]. rewrite app_nil_r, Hins.
    repeat split.
    + apply Forall_app. split; [apply Hmono, H1|].
      constructor; [exact Ht' | apply Hmono, H2].
    + intros location Hin. left. rewrite <- Hsplit in Hin.
      rewrite map_app in Hin |- *. cbn [map] in Hin |- *. rewrite Hloc. exact Hin.
    + rewrite <- Hsplit in Hfull.
      rewrite length_app in Hfull |- *. cbn [length] in Hfull |- *. exact Hfull.
    + rewrite <- Hsplit. rewrite !map_app, !list_sum_app.
      change (list_sum (map rank (t' :: l2))) with (rank t' + list_sum (map rank l2)).
      change (list_sum (map rank (t :: l2))) with (rank t + list_sum (map rank l2)).
      lia.
  - pose proof (pool_fill_ok queue (l1 ++ l2)
                  (world (pool_resume resume location_of t w))
                  (tr ++ events (pool_resume resume location_of t w))) as Hfill.
    unfold pool_keeps in Hfill.
    destruct (res (pool_fill mapper concurrency queue _ _)) as [st|e].
    + rewrite app_assoc. destruct Hfill as (Hall & Hlocs & Hfull' & Hsum).
      { apply Forall_app. split; apply Hmono; assumption. }
      repeat split; auto.
      * intros location Hin. rewrite <- Hsplit in Hin.
        rewrite map_app in Hin. cbn [map] in Hin.
        assert (Hcases : location = location_of t \/
                         In location (map location_of (l1 ++ l2) ++ queue)).
        { rewrite map_app. rewrite !in_app_iff in Hin |- *. cbn [In] in Hin.
          intuition auto. }
        destruct Hcases as [->|Hin']; [|apply Hlocs, Hin'].
        right. eapply finished_mono; [|exact Hresume]. apply incl_appl, incl_refl.
      * rewrite <- Hsplit. rewrite map_app, list_sum_app in Hsum.
        rewrite map_app, list_sum_app.
        change (list_sum (map rank (t :: l2))) with (rank t + list_sum (map rank l2)).
        pose proof (rank_pos t). lia.
    + destruct Hfill as [location Hin].
      { apply Forall_app. split; apply Hmono; assumption. }
      exists location. apply in_or_app. right. exact Hin.
  - rewrite app_nil_r. eauto.
Qed.

Lemma pool_run_ok fuel k queue inflight w tr :
  Forall (fun t => Inv t tr) inflight ->
  queue = [] \/ concurrency <= length inflight ->
  list_sum (map rank inflight) + R * length queue <= fuel ->
  match res (pool_run mapper resume location_of pick concurrency fuel k queue inflight w) with
  | Ok _ =>
      forall location,
        In location (map location_of inflight ++ queue) ->
        finished Post location
          (tr ++ events (pool_run mapper resume location_of pick concurrency
                           fuel k queue inflight w))
  | Throw _ =>
      exists location,
        In (Settled location false)
           (events (pool_run mapper resume location_of pick concurrency
                      fuel k queue inflight w))
  end.
Proof.
  revert k queue inflight w tr.
  induction fuel as [|fuel IH]; intros k queue inflight w tr Hinv Hfull Hfuel;
    destruct inflight as [|t inflight]; cbn [pool_run].
  - cbn. destruct Hfull as [->|Hfull]; [intros location []|simpl in Hfull; lia].
  - pose proof (rank_pos t).
    change (list_sum (map rank (t :: inflight)))
      with (rank t + list_sum (map rank inflight)) in Hfuel. lia.
  - cbn. destruct Hfull as [->|Hfull]; [intros location []|simpl in Hfull; lia].
  - rewrite bind_res, bind_events.
    pose proof (pool_step_ok k queue (t :: inflight) w tr Hinv
                  ltac:(discriminate) Hfull) as Hstep.
    destruct (res (pool_step mapper resume location_of pick concurrency k queue
                     (t :: inflight) w)) as [st|e].
    + destruct Hstep as (Hall & Hlocs & Hfull' & Hsum).
      specialize (IH (S k) st.1 st.2
                    (world (pool_step mapper resume location_of pick concurrency
                              k queue (t :: inflight) w))
                    _ Hall Hfull' ltac:(lia)).
      rewrite app_assoc.
      destruct (res (pool_run mapper resume location_of pick concurrency fuel
                       (S k) st.1 st.2 _)) as [[]|e].
      * intros location Hin. destruct (Hlocs location Hin) as [Hin'|Hdone].
        -- apply IH, Hin'.
        -- eapply finished_mono; [|exact Hdone]. apply incl_appl, incl_refl.
      * destruct IH as [location Hin]. exists location.
        apply in_or_app. right. exact Hin.
    + rewrite app_nil_r. exact Hstep.
Qed.

(** A pool that was given room enough either settles every call of its
    input with success, or has observed a rejection. *)
Lemma pMap_ok fuel input w :
  R * length input <= fuel ->
  match res (pMap mapper resume location_of pick concurrency fuel input w) with
  | Ok _ =>
      forall location,
        In location input ->
        finished Post location
          (events (pMap mapper resume location_of pick concurrency fuel input w))
  | Throw _ =>
      exists location,
        In (Settled location false)
           (events (pMap mapper resume location_of pick concurrency fuel input w))
  end.
Proof.
  intros Hfuel. unfold pMap.
  destruct (concurrency =? 0) eqn:E; [apply Nat.eqb_eq in E; lia|].
  rewrite bind_res, bind_events.
  pose proof (pool_fill_ok input [] w [] ltac:(constructor)) as Hfill.
  unfold pool_keeps in Hfill. cbn [List.app map list_sum] in Hfill.
  destruct (res (pool_fill mapper concurrency input [] w)) as [st|e].
  - destruct Hfill as (Hall & Hlocs & Hfull & Hsum).
    assert (Hroom : list_sum (map rank st.2) + R * length st.1 <= fuel).
    { change (list_sum []) with 0 in Hsum. lia. }
    pose proof (pool_run_ok fuel 0 st.1 st.2
                  (world (pool_fill mapper concurrency input [] w)) _
                  Hall Hfull Hroom) as Hrun.
    destruct (res (pool_run mapper resume location_of pick concurrency fuel 0
                     st.1 st.2 _)) as [[]|e].
    + intros location Hin. destruct (Hlocs location Hin) as [Hin'|Hdone].
      * apply Hrun, Hin'.
      * eapply finished_mono; [|exact Hdone]. apply incl_appl, incl_refl.
    + destruct Hrun as [location Hin]. exists location.
      apply in_or_app. right. exact Hin.
  - rewrite app_nil_r. exact Hfill.
Qed.
End PoolComplete.

(** *** The fan-out of [build] *)

Lemma rendered_mono out location tr tr' :
  incl tr tr' -> rendered out location tr -> rendered out location tr'.
Proof.
  intros Hincl (plugin & files & Hcall & Hfiles & Hwrites).
  exists plugin, files. repeat split; auto.
  intros file Hfile. destruct (Hwrites file Hfile) as (decoded & Hd & Hw). eauto.
Qed.

Lemma prerender_inv_mono out t tr tr' :
  incl tr tr' -> prerender_inv out t tr -> prerender_inv out t tr'.
Proof.
  intros Hincl. destruct t as [location pending|location written]; cbn.
  - intros [plugin H]. eauto.
  - apply rendered_mono, Hincl.
Qed.

(** When the map of line 111 returns, every path was decoded. *)
Lemma writes_decodable h config files w l :
  res (mapM (fun file =>
               decoded <- await (decodeURIComponent (file_path file)) ;;
               writeFile h (path_join (outdir config) decoded) (file_contents file))
            files w) = Ok l ->
  Forall decodable files.
Proof.
  revert w l. induction files as [|file files IH]; intros w l; [constructor|].
  cbn [mapM]. rewrite bind_res, bind_res. cbn [await res world].
  destruct (decodeURIComponent (file_path file)) as [decoded|e] eqn:Hd;
    [|discriminate].
  destruct (writeFile_res h (path_join (outdir config) decoded)
              (file_contents file) w) as [r Hr].
  rewrite Hr, bind_res.
  destruct (res (mapM _ files _)) as [l'|e] eqn:Hrest; [|discriminate].
  intros _. constructor; [exists decoded; exact Hd | eapply IH; exact Hrest].
Qed.

Lemma fanout_ok h config app assets phenomicFetch urls w :
  match res (fanout h config app assets phenomicFetch urls w) with
  | Ok _ =>
      forall location,
        In location urls ->
        finished (rendered (outdir config)) location
          (events (fanout h config app assets phenomicFetch urls w))
  | Throw _ =>
      exists location,
        In (Settled location false)
           (events (fanout h config app assets phenomicFetch urls w))
  end.
Proof.
  unfold fanout.
  apply (pMap_ok _ _ _ _ 50 prerender_rank 2 (prerender_inv (outdir config))
           (rendered (outdir config))).
  - lia.
  - intros [location pending|location written]; simpl; lia.
  - intros t tr tr'. apply prerender_inv_mono.
  - intros location tr tr'. apply rendered_mono.
  - intros location w' t. unfold prerenderFileAndDependencies, capability.
    destruct (head _) as [renderer|]; [|discriminate].
    destruct (Plugin.renderStatic renderer) as [renderStatic|]; [|discriminate].
    cbn. intros [= <-]. cbn. repeat split; [lia|]. eexists. right. left. reflexivity.
  - intros [location pending|location written] w' t' tr Hinv; cbn [prerender_resume].
    + rewrite bind_res, bind_events. cbn [await res events world List.app].
      destruct pending as [files|e]; [|discriminate].
      rewrite bind_res, bind_events. cbn [debug emit res events world List.app].
      rewrite bind_res, bind_events, write_calls_run.
      destruct (res (mapM _ files w')) as [l|e] eqn:Hmap; [|discriminate].
      cbn [ret res events]. intros [= <-]. cbn [prerender_location prerender_rank].
      repeat split; [lia|]. rewrite app_nil_r.
      destruct Hinv as [plugin Hcall]. exists plugin, files. repeat split.
      * apply in_or_app. left. exact Hcall.
      * apply in_or_app. right. left. reflexivity.
      * intros file Hfile.
        destruct (write_calls_decodable (outdir config) files file
                    (writes_decodable _ _ _ _ _ Hmap) Hfile) as (decoded & Hd & Hw).
        exists decoded. split; [exact Hd|]. apply in_or_app. right. right. exact Hw.
    + rewrite bind_res. cbn [await res]. destruct written; discriminate.
  - intros [location pending|location written] w' tr Hinv; cbn [prerender_resume].
    + rewrite bind_res. cbn [await res world]. destruct pending as [files|e]; [|discriminate].
      rewrite bind_res. cbn [debug emit res world].
      rewrite bind_res. destruct (res (mapM _ files w')); discriminate.
    + intros _. eapply rendered_mono; [|exact Hinv]. apply incl_appl, incl_refl.
  - lia.
Qed.

(** * Further properties of the command *)

(** ** What a build does to the world around it *)

Section Effects.
Variable R : list Event -> World -> World -> Prop.
Hypothesis R_chained : Chained R.

Lemma effect_silent {A} (m : M A) :
  (forall w, events (m w) = [] /\ world (m w) = w) -> effect R m.
Proof. intros H w. destruct (H w) as [-> ->]. apply R_chained. Qed.

Lemma effect_ret {A} (a : A) : effect R (ret a).
Proof. apply effect_silent. auto. Qed.

Lemma effect_throw {A} (e : JsError) : effect R (@throw A e).
Proof. apply effect_silent. auto. Qed.

Lemma effect_await {A} (p : result A) : effect R (await p).
Proof. apply effect_silent. auto. Qed.

Lemma effect_get : effect R get.
Proof. apply effect_silent. auto. Qed.

Lemma effect_guard h op : effect R (guard h op).
Proof. unfold guard. destruct (fault h op); [apply effect_throw | apply effect_ret]. Qed.

Lemma effect_emit ev : (forall w, R [ev] w w) -> effect R (emit ev).
Proof. intros H w. apply H. Qed.

Lemma effect_modify f : (forall w, R [] w (f w)) -> effect R (modify f).
Proof. intros H w. apply H. Qed.

Lemma effect_bind {A B} (m : M A) (f : A -> M B) :
  effect R m -> (forall a, effect R (f a)) -> effect R (bind m f).
Proof.
  intros Hm Hf w. rewrite bind_events, bind_world.
  destruct (res (m w)) as [a|e].
  - eapply chained_app; [exact R_chained | apply Hm | apply Hf].
  - rewrite app_nil_r. apply Hm.
Qed.

Lemma effect_try_catch {A} (m : M A) handler :
  effect R m -> (forall e, effect R (handler e)) -> effect R (try_catch m handler).
Proof.
  intros Hm Hh w. rewrite try_catch_events, try_catch_world.
  destruct (res (m w)) as [a|e].
  - rewrite app_nil_r. apply Hm.
  - eapply chained_app; [exact R_chained | apply Hm | apply Hh].
Qed.

Lemma effect_mapM {A B} (f : A -> M B) xs :
  (forall x, effect R (f x)) -> effect R (mapM f xs).
Proof.
  intros Hf. induction xs as [|x xs IH]; simpl.
  - apply effect_ret.
  - apply effect_bind; [apply Hf|]. intros y.
    apply effect_bind; [apply IH|]. intros ys. apply effect_ret.
Qed.

Context {Task : Type}.
Variable mapper : string -> M Task.
Variable resume : Task -> M (option Task).
Variable location_of : Task -> string.
Variable pick : nat -> nat.
Variable concurrency : nat.
Hypothesis R_started : forall location w, R [Started location] w w.
Hypothesis R_settled : forall location fulfilled w, R [Settled location fulfilled] w w.
Hypothesis R_mapper : forall location, effect R (mapper location).
Hypothesis R_resume : forall t, effect R (resume t).

Lemma pool_fill_effect queue inflight :
  effect R (pool_fill mapper concurrency queue inflight).
Proof.
  revert inflight. induction queue as [|location rest IH]; intros inflight; simpl.
  - apply effect_ret.
  - destruct (length inflight <? concurrency); [|apply effect_ret].
    apply effect_bind; [|intros t; apply IH].
    unfold pool_start. apply effect_bind; [apply effect_emit, R_started|].
    intros _. apply effect_try_catch; [apply R_mapper|]. intros e.
    apply effect_bind; [apply effect_emit, R_settled|].
    intros _. apply effect_throw.
Qed.

Lemma pool_step_effect k queue inflight :
  effect R (pool_step mapper resume location_of pick concurrency k queue inflight).
Proof.
  unfold pool_step. destruct (inflight !! _); [|apply effect_ret].
  apply effect_bind.
  - unfold pool_resume. apply effect_bind.
    + apply effect_try_catch; [apply R_resume|]. intros e.
      apply effect_bind; [apply effect_emit, R_settled|].
      intros _. apply effect_throw.
    + intros [t'|]; [apply effect_ret|].
      apply effect_bind; [apply effect_emit, R_settled|].
      intros _. apply effect_ret.
  - intros [t'|]; [apply effect_ret | apply pool_fill_effect].
Qed.

Lemma pMap_effect fuel input :
  effect R (pMap mapper resume location_of pick concurrency fuel input).
Proof.
  unfold pMap. destruct (concurrency =? 0); [apply effect_throw|].
  apply effect_bind; [apply pool_fill_effect|]. intros st.
  generalize 0 as k. generalize st.1 as queue. generalize st.2 as inflight.
  induction fuel as [|fuel IH]; intros inflight queue k;
    destruct inflight as [|t inflight]; simpl;
    try apply effect_ret; try apply effect_throw.
  apply effect_bind; [apply pool_step_effect | intros st'; apply IH].
Qed.
End Effects.

(** Breaks a goal [effect R m] down along the structure of [m]; [units]
    deals with the parts that are taken as a whole and [leaf] with the
    single events and updates. *)
Ltac effect_parts HC units leaf :=
  unfold getContent, getContentPath, db_destroy, call_processFile,
    prerenderFileAndDependencies, prerender_resume, createServer, listen,
    close, createFetchFunction, call_beforeBuild, capability, console_log,
    debug;
  repeat first
    [ units
    | apply (pMap_effect _ HC);
      [ intros ? ?; leaf | intros ? ? ?; leaf | intros ? | intros ? ]
    | apply (effect_mapM _ HC); intros ?
    | apply (effect_ret _ HC) | apply (effect_throw _ HC)
    | apply (effect_await _ HC) | apply (effect_get _ HC)
    | apply (effect_guard _ HC)
    | apply effect_emit; intros ?; leaf
    | apply effect_modify; intros ?; leaf
    | apply (effect_bind _ HC); [|intros ?]
    | apply (effect_try_catch _ HC); [|intros ?]
    | match goal with
      | |- effect _ (match ?x with _ => _ end) => destruct x
      | |- effect _ (if ?x then _ else _) => destruct x
      | |- effect _ (let '(_, _) := ?x in _) => destruct x
      end ].

(** *** The environment *)

Lemma same_env_chained : Chained same_env.
Proof. split; unfold same_env; [reflexivity | intros; congruence]. Qed.

Lemma build_try_env h config port :
  effect same_env (try_catch (build_try h config port) build_catch).
Proof.
  unfold build_try, build_catch. cbv zeta.
  effect_parts same_env_chained ltac:(progress unfold writeFile)
    ltac:(reflexivity).
Qed.

Lemma world_of_build h config w :
  world (build h config w) =
  match res (build_start h config w) with
  | Ok port =>
      world (try_catch (build_try h config port) build_catch
               (world (build_start h config w)))
  | Throw _ => world (build_start h config w)
  end.
Proof.
  rewrite build_run. cbv zeta. destruct (res (build_start h config w)); reflexivity.
Qed.

Lemma build_start_env h config w :
  fault h (OpRimraf "dist") = None ->
  penv (world (build_start h config w)) = build_env (penv w).
Proof.
  intros Hfault.
  unfold build_start, rimraf_sync, createServer, listen, guard, console_log,
    debug, env_default, env_set, build_env, default_env.
  rewrite Hfault.
  cbn [bind emit ret throw modify await res world events penv set_penv set_fs].
  set (w0 := set_fs _ w). change (penv w) with (penv w0). clearbody w0.
  destruct (penv w0 !! "NODE_ENV") as [node|]; [destruct (truthy node)|];
    cbn [penv set_penv];
    match goal with
    | |- context [?e !! "BABEL_ENV"] =>
        destruct (e !! "BABEL_ENV") as [babel|]; [destruct (truthy babel)|]
    end;
    cbn [penv set_penv];
    destruct (fault h OpCreateServer);
    cbn [bind emit ret throw modify await res world events penv set_penv];
    try reflexivity;
    destruct (getPort h) as [port|];
    cbn [bind emit ret throw modify await res world events penv set_penv];
    try reflexivity;
    destruct (fault h (OpListen port)); reflexivity.
Qed.

Lemma build_env_of h config w :
  fault h (OpRimraf "dist") = None ->
  penv (world (build h config w)) = build_env (penv w).
Proof.
  intros Hfault. rewrite world_of_build.
  destruct (res (build_start h config w)) as [port|e].
  - rewrite (build_try_env h config port (world (build_start h config w))).
    apply build_start_env, Hfault.
  - apply build_start_env, Hfault.
Qed.

Lemma default_env_lookup k v e : default_env k v e !! k = Some (env_or k v e).
Proof.
  unfold default_env, env_or.
  destruct (e !! k) as [old|] eqn:E; [destruct (truthy old)|];
    rewrite ?lookup_insert_eq; auto.
Qed.

Lemma default_env_lookup_ne k k' v e :
  k <> k' -> default_env k v e !! k' = e !! k'.
Proof.
  intros Hne. unfold default_env.
  destruct (e !! k) as [old|]; [destruct (truthy old)|];
    rewrite ?lookup_insert_ne; auto.
Qed.

Lemma env_or_default_ne k k' v v' e :
  k <> k' -> env_or k' v' (default_env k v e) = env_or k' v' e.
Proof. intros Hne. unfold env_or. rewrite default_env_lookup_ne; auto. Qed.

(** X1: when the removal of [dist] does not throw, then whatever happens
    afterwards [process.env] is left with [PHENOMIC_ENV] set to [static],
    with [NODE_ENV] and [BABEL_ENV] holding the value they had when it was
    a non-empty string and [production] otherwise, and with every other
    variable as it was. *)
Theorem build_sets_environment h config w :
  fault h (OpRimraf "dist") = None ->
  penv (world (build h config w)) !! "PHENOMIC_ENV" = Some "static" /\
  penv (world (build h config w)) !! "NODE_ENV"
  = Some (env_or "NODE_ENV" "production" (penv w)) /\
  penv (world (build h config w)) !! "BABEL_ENV"
  = Some (env_or "BABEL_ENV" "production" (penv w)) /\
  forall k,
    k <> "NODE_ENV" -> k <> "BABEL_ENV" -> k <> "PHENOMIC_ENV" ->
    penv (world (build h config w)) !! k = penv w !! k.
Proof.
  intros Hfault. rewrite (build_env_of _ _ _ Hfault). unfold build_env.
  split; [apply lookup_insert_eq|]. split; [|split].
  - rewrite lookup_insert_ne by discriminate.
    rewrite default_env_lookup_ne by discriminate. apply default_env_lookup.
  - rewrite lookup_insert_ne by discriminate.
    rewrite default_env_lookup, env_or_default_ne by discriminate. reflexivity.
  - intros k Hnode Hbabel Hphenomic.
    rewrite lookup_insert_ne by congruence.
    rewrite !default_env_lookup_ne by congruence. reflexivity.
Qed.

Lemma build_environment_witness :
  let o := build Demo.host (Demo.site ["/"]) Demo.developer_world in
  penv (world o) !! "PHENOMIC_ENV" = Some "static" /\
  penv (world o) !! "NODE_ENV" = Some "development" /\
  penv (world o) !! "BABEL_ENV" = Some "production" /\
  penv (world o) !! "HOME" = Some "/home/dev".
Proof.
  cbv zeta.
  destruct (build_sets_environment Demo.host (Demo.site ["/"])
              Demo.developer_world eq_refl) as (H1 & H2 & H3 & H4).
  split; [exact H1|].
  split; [etransitivity; [exact H2 | vm_compute; reflexivity]|].
  split; [etransitivity; [exact H3 | vm_compute; reflexivity]|].
  etransitivity; [apply H4; discriminate | vm_compute; reflexivity].
Defined.

(** ** The phases follow one another *)

Lemma in_order_app t1 t2 :
  in_order (t1 ++ t2) <->
  in_order t1 /\ in_order t2 /\
  forall ev1 ev2,
    In ev1 t1 -> In ev2 t2 -> rank (phase_of ev1) <= rank (phase_of ev2).
Proof.
  induction t1 as [|ev t1 IH]; cbn [List.app in_order].
  - split; [intros H; repeat split; [exact H | intros ev1 ev2 []] | tauto].
  - rewrite IH, Forall_app, !Forall_forall. split.
    + intros [[H1 H2] (H3 & H4 & H5)]. repeat split; auto.
      intros ev1 ev2 [<-|Hin] Hin2; [apply H2, list_elem_of_In, Hin2 | auto].
    + intros ([H1 H2] & H3 & H4). repeat split; auto.
      * intros ev' Hin. apply H4; [left; reflexivity | apply list_elem_of_In, Hin].
      * intros ev1 ev2 Hin1 Hin2. apply H4; [right; exact Hin1 | exact Hin2].
Qed.

Lemma in_order_same r tr :
  Forall (fun ev => rank (phase_of ev) = r) tr -> in_order tr.
Proof.
  induction 1 as [|ev tr Hev Htr IH]; cbn [in_order]; [exact I|].
  split; [|exact IH]. eapply Forall_impl; [exact Htr|].
  intros ev' Hev'. cbv beta in Hev'. lia.
Qed.

Lemma in_order_bind {A B} r r' (m : M A) (f : A -> M B) w :
  r <= r' ->
  Forall (fun ev => rank (phase_of ev) = r') (events (m w)) ->
  (forall a, res (m w) = Ok a -> in_order_from r' (f a (world (m w)))) ->
  in_order_from r (bind m f w).
Proof.
  intros Hr Hm Hf. unfold in_order_from. rewrite bind_events.
  assert (Hfrom : Forall (fun ev => r <= rank (phase_of ev)) (events (m w))).
  { eapply Forall_impl; [exact Hm|]. intros ev Hev. cbv beta in Hev. lia. }
  destruct (res (m w)) as [a|e].
  - destruct (Hf a eq_refl) as [Hord Hfrom']. split.
    + apply in_order_app. split; [apply (in_order_same r'), Hm|].
      split; [exact Hord|]. intros ev1 ev2 H1 H2.
      rewrite Forall_forall in Hm, Hfrom'.
      apply list_elem_of_In, Hm in H1. apply list_elem_of_In, Hfrom' in H2. lia.
    + apply Forall_app. split; [exact Hfrom|].
      eapply Forall_impl; [exact Hfrom'|]. intros ev Hev. cbv beta in Hev. lia.
  - rewrite app_nil_r. split; [apply (in_order_same r'), Hm | exact Hfrom].
Qed.

(** Leaves of [emits] goals about the rank of the phase of an event. *)
Ltac rank_leaf :=
  first
    [ reflexivity
    | match goal with
      | H : in_phase _ ?ev |- _ => unfold in_phase in H; rewrite H; reflexivity
      end ].

(** One step of a run whose events are all of the phase of rank [r']. *)
Ltac order_step_at r' :=
  lazymatch goal with
  | |- in_order_from ?r (bind ?m ?f ?w) =>
      apply (in_order_bind r r' m f w);
      [ lia
      | let H := fresh in
        assert (H : emits (fun ev => rank (phase_of ev) = r') m)
          by (emits_parts ltac:(rank_leaf));
        apply H
      | let a := fresh "a" in let Ha := fresh "Ha" in
        let w' := fresh "w" in
        intros a Ha; cbv beta;
        set (w' := world (m w)) in |- *; clearbody w' ]
  end.

(** The step stays in the phase reached so far or enters the next one. *)
Ltac order_step :=
  lazymatch goal with
  | |- in_order_from ?r _ => first [order_step_at r | order_step_at (S r)]
  end.

Lemma build_start_in_order h config w : in_order_from 0 (build_start h config w).
Proof.
  unfold build_start. repeat order_step.
  split; constructor.
Qed.

Lemma build_try_in_order h config port w :
  in_order_from 2 (build_try h config port w).
Proof.
  unfold build_try. cbv zeta. repeat order_step.
  split; repeat constructor.
Qed.

Lemma build_in_order h config w : in_order (events (build h config w)).
Proof.
  destruct (build_start_in_order h config w) as [Hstart _].
  pose proof (build_start_phase h config w) as Hbefore.
  destruct (res (build_start h config w)) as [port|e] eqn:E.
  - rewrite (build_events _ _ _ _ E).
    destruct (build_try_in_order h config port (world (build_start h config w)))
      as [Htry Hfrom].
    apply in_order_app. split; [exact Hstart|]. split.
    + apply in_order_app. split; [exact Htry|]. split.
      * destruct (res (build_try _ _ _ _)); repeat constructor.
      * intros ev1 ev2 _ H2.
        assert (Hlast : rank (phase_of ev2) = 8).
        { destruct (res (build_try _ _ _ _)); [destruct H2|].
          destruct H2 as [<-|[<-|[]]]; reflexivity. }
        rewrite Hlast. destruct (phase_of ev1); simpl; lia.
    + intros ev1 ev2 H1 H2.
      rewrite Forall_forall in Hbefore. apply list_elem_of_In, Hbefore in H1.
      unfold before in H1. simpl in H1.
      assert (H2' : 2 <= rank (phase_of ev2)); [|lia].
      apply in_app_or in H2. destruct H2 as [H2|H2].
      * rewrite Forall_forall in Hfrom. apply Hfrom, list_elem_of_In, H2.
      * destruct (res (build_try _ _ _ _)); [destruct H2|].
        destruct H2 as [<-|[<-|[]]]; simpl; lia.
  - rewrite (build_events_failed_start _ _ _ _ E). exact Hstart.
Qed.

(** X2: up to the shutdown of the server the phases of a build follow
    one another in the order cleaning, server start, [beforeBuild] hooks,
    client bundle, bundle for prerendering, ingestion, resolution of the
    routes, prerendering: once an event of one of these phases has
    occurred, no event of an earlier phase occurs.  (What the prerender
    calls still in flight do once the build has failed is not part of the
    trace, and is not covered.) *)
Theorem build_phases_follow_one_another h config w tr1 ev1 tr2 ev2 :
  events (build h config w) = tr1 ++ ev1 :: tr2 ->
  phase_of ev1 <> ServerClosing ->
  In ev2 tr2 ->
  rank (phase_of ev1) <= rank (phase_of ev2).
Proof.
  intros Hev _ Hin. pose proof (build_in_order h config w) as H.
  rewrite Hev in H. apply in_order_app in H. destruct H as (_ & [H _] & _).
  rewrite Forall_forall in H. apply H, list_elem_of_In, Hin.
Qed.

Lemma phases_order_witness :
  let tr := events (build Demo.host (Demo.site ["index"]) Demo.world) in
  tr = take 19 tr ++ Console CContentProcessed :: drop 20 tr /\
  In (WriteFile "dist/index.html" "<html>") (drop 20 tr) /\
  rank (phase_of (Console CContentProcessed))
  <= rank (phase_of (WriteFile "dist/index.html" "<html>")).
Proof.
  cbv zeta.
  assert (H1 : events (build Demo.host (Demo.site ["index"]) Demo.world)
               = take 19 (events (build Demo.host (Demo.site ["index"]) Demo.world))
                 ++ Console CContentProcessed
                 :: drop 20 (events (build Demo.host (Demo.site ["index"]) Demo.world)))
    by (vm_compute; reflexivity).
  assert (H2 : In (WriteFile "dist/index.html" "<html>")
                 (drop 20 (events (build Demo.host (Demo.site ["index"]) Demo.world))))
    by in_trace.
  split; [exact H1|]. split; [exact H2|].
  exact (build_phases_follow_one_another _ _ _ _ _ _ _ H1
           ltac:(discriminate) H2).
Defined.

(** ** The disk *)

Lemma replay_app h t1 t2 disk :
  replay h (t1 ++ t2) disk = replay h t2 (replay h t1 disk).
Proof. apply fold_left_app. Qed.

Lemma replays_chained h : Chained (replays h).
Proof.
  split; unfold replays.
  - reflexivity.
  - intros t1 t2 w1 w2 w3 H1 H2. rewrite replay_app, <- H1. exact H2.
Qed.

Lemma writeFile_replays h p contents : effect (replays h) (writeFile h p contents).
Proof.
  intros w. unfold replays, replay, writeFile, bind, emit.
  cbn [res world events List.app fold_left disk_step].
  destruct (fault h (OpWriteFile p)); reflexivity.
Qed.

Lemma rimraf_replays h p : effect (replays h) (rimraf_sync h p).
Proof.
  intros w. unfold replays, replay, rimraf_sync, guard, bind, emit.
  cbn [res world events List.app fold_left disk_step].
  destruct (fault h (OpRimraf p)); reflexivity.
Qed.

Lemma env_default_replays h k v : effect (replays h) (env_default k v).
Proof.
  intros w. unfold replays, env_default, modify. cbn [events world replay fold_left].
  destruct (penv w !! k) as [old|]; [destruct (truthy old)|]; reflexivity.
Qed.

Lemma build_replays h config : effect (replays h) (build h config).
Proof.
  unfold build, build_try, build_catch, build_start, env_set. cbv zeta.
  effect_parts (replays_chained h)
    ltac:(first [ apply writeFile_replays | apply rimraf_replays
                | apply env_default_replays ])
    ltac:(reflexivity).
Qed.

(** A path that is not written and that no removal covers keeps its
    file. *)
Lemma replay_frame h tr disk p :
  unwritten p tr ->
  Forall (fun ev => forall q, ev = Rimraf q -> is_under q p = false) tr ->
  replay h tr disk !! p = disk !! p.
Proof.
  intros Hw Hr. revert disk. induction Hr as [|ev tr Hev _ IH]; intros disk;
    [reflexivity|].
  cbn [replay fold_left]. fold (replay h tr (disk_step h disk ev)).
  rewrite IH by (intros contents Hin; apply (Hw contents); right; exact Hin).
  destruct ev as [| | |q| | | | | | | | | | | | | | |q contents| |];
    cbn [disk_step]; try reflexivity.
  - destruct (fault h (OpRimraf q)); [reflexivity|].
    specialize (Hev q eq_refl).
    destruct (disk !! p) as [old|] eqn:E.
    + apply map_lookup_filter_Some. split; [exact E | exact Hev].
    + apply map_lookup_filter_None. left. exact E.
  - destruct (fault h (OpWriteFile q)); [reflexivity|].
    apply lookup_insert_ne. intros ->. apply (Hw contents). left. reflexivity.
Qed.

(** A path that holds no file and is not written holds no file. *)
Lemma replay_absent h tr disk p :
  unwritten p tr -> disk !! p = None -> replay h tr disk !! p = None.
Proof.
  revert disk. induction tr as [|ev tr IH]; intros disk Hw Hnone; [exact Hnone|].
  cbn [replay fold_left]. fold (replay h tr (disk_step h disk ev)).
  apply IH; [intros contents Hin; apply (Hw contents); right; exact Hin|].
  destruct ev as [| | |q| | | | | | | | | | | | | | |q contents| |];
    cbn [disk_step]; try exact Hnone.
  - destruct (fault h (OpRimraf q)); [exact Hnone|].
    apply map_lookup_filter_None. left. exact Hnone.
  - destruct (fault h (OpWriteFile q)); [exact Hnone|].
    rewrite lookup_insert_ne; [exact Hnone|].
    intros ->. apply (Hw contents). left. reflexivity.
Qed.

(** The only directory a build removes is [dist]. *)
Lemma build_removes_dist_only h config w :
  Forall (fun ev => forall q, ev = Rimraf q -> q = "dist") (events (build h config w)).
Proof.
  assert (Hstart : emits (fun ev => forall q, ev = Rimraf q -> q = "dist")
                     (build_start h config)).
  { emits_parts ltac:(first [intros ? [= <-]; reflexivity | intros ?; discriminate]). }
  destruct (res (build_start h config w)) as [port|e] eqn:E.
  - rewrite (build_events _ _ _ _ E).
    apply Forall_app. split; [apply Hstart|].
    apply Forall_app. split.
    + assert (Htry : emits (fun ev => forall q, ev = Rimraf q -> q = "dist")
                       (build_try h config port)).
      { unfold build_try. cbv zeta.
        emits_parts ltac:(first [ intros ?; discriminate
                                | by_phase; intros ?; discriminate ]). }
      apply Htry.
    + destruct (res (build_try _ _ _ _)); repeat constructor; intros ?; discriminate.
  - rewrite (build_events_failed_start _ _ _ _ E). apply Hstart.
Qed.

Lemma unwritten_by_decision p tr : existsb (writes_to p) tr = false -> unwritten p tr.
Proof.
  intros H contents Hin.
  assert (Hex : existsb (writes_to p) tr = true).
  { apply existsb_exists. exists (WriteFile p contents).
    split; [exact Hin | apply String.eqb_refl]. }
  rewrite H in Hex. discriminate Hex.
Qed.

(** X3: a path that is never handed to [writeFile] holds after the build
    the file it held before when it is outside [dist], and no file when it
    is [dist] or below it and the removal of [dist] did not fail. *)
Theorem build_leaves_unwritten_files h config w p :
  unwritten p (events (build h config w)) ->
  (is_under "dist" p = false ->
   fs (world (build h config w)) !! p = fs w !! p) /\
  (is_under "dist" p = true -> fault h (OpRimraf "dist") = None ->
   fs (world (build h config w)) !! p = None).
Proof.
  intros Hw. rewrite (build_replays h config w). split.
  - intros Hout. apply replay_frame; [exact Hw|].
    eapply Forall_impl; [apply build_removes_dist_only|].
    intros ev Hev q Hq. rewrite (Hev q Hq). exact Hout.
  - intros Hin Hfault.
    destruct (build_cleans_first h config w) as [rest Hrest].
    rewrite Hrest in Hw |- *. rewrite replay_app.
    apply replay_absent.
    + intros contents H. apply (Hw contents), in_or_app. right. exact H.
    + cbn [replay fold_left disk_step]. rewrite Hfault.
      apply map_lookup_filter_None. right. intros x _. cbn. rewrite Hin. discriminate.
Qed.

Lemma unwritten_files_witness :
  let config :=
    Demo.config_of "public"
      [Demo.bundler; Demo.markdown; Demo.renderer; Demo.resolver ["index"]] in
  let o := build Demo.host config Demo.world in
  fs (world o) !! "public/old.html" = fs Demo.world !! "public/old.html" /\
  fs (world o) !! "dist/old.html" = None.
Proof.
  cbv zeta. split.
  - apply (build_leaves_unwritten_files Demo.host).
    + apply unwritten_by_decision. vm_compute. reflexivity.
    + vm_compute. reflexivity.
  - apply (build_leaves_unwritten_files Demo.host).
    + apply unwritten_by_decision. vm_compute. reflexivity.
    + vm_compute. reflexivity.
    + vm_compute. reflexivity.
Defined.

(** In the model a write is on the disk when [writeFile] is called, so
    that the last call for a path decides what the path holds. *)
Lemma replay_last_write h config w tr1 tr2 p contents :
  events (build h config w) = tr1 ++ WriteFile p contents :: tr2 ->
  unwritten p tr2 ->
  fault h (OpWriteFile p) = None ->
  fs (world (build h config w)) !! p = Some contents.
Proof.
  intros Hev Hw Hfault. rewrite (build_replays h config w), Hev, replay_app.
  cbn [replay fold_left]. fold (replay h tr2 (disk_step h (replay h tr1 (fs w))
                                                (WriteFile p contents))).
  rewrite replay_frame; [cbn [disk_step]; rewrite Hfault; apply lookup_insert_eq
                        | exact Hw |].
  pose proof (build_in_order h config w) as Hord. rewrite Hev in Hord.
  apply in_order_app in Hord. destruct Hord as (_ & [Hord _] & _).
  eapply Forall_impl; [exact Hord|].
  intros ev Hrank q ->. simpl in Hrank. lia.
Qed.

(** ** Where the prerendering takes its inputs from *)

Lemma build_start_port h config w port :
  res (build_start h config w) = Ok port ->
  getPort h = Ok port /\ In (Listen port) (events (build_start h config w)).
Proof.
  unfold build_start, rimraf_sync, createServer, listen, guard, console_log,
    debug, env_default, env_set.
  destruct (fault h (OpRimraf "dist")); [discriminate|].
  destruct (fault h OpCreateServer); [discriminate|].
  destruct (getPort h) as [p|]; [|discriminate].
  destruct (fault h (OpListen p)) eqn:E; cbn; rewrite E; cbn; [discriminate|].
  intros [= <-]. split; [reflexivity|]. auto 10.
Qed.

Lemma reaches_resolved_skippable h config port urls :
  Skippable preliminary
    (after (Debug (DUrls urls)) (reaches_resolved h config port urls)).
Proof.
  apply after_skippable_in.
  - intros ev [[_ Hev] _]. apply Hev.
  - intros o pre Hpre (pre' & assets & app & w' & Hearly & Hresolved & Hres & Hev).
    exists (pre ++ pre'), assets, app, w'. cbn [res events].
    split; [apply Forall_app; auto|]. split; [exact Hresolved|].
    split; [exact Hres|]. rewrite Hev. apply app_assoc.
Qed.

Ltac preliminary_leaf :=
  first
    [ split; [split; [unfold before; simpl; lia | intros ?; discriminate]
             | discriminate]
    | by_phase;
      (split; [split; [unfold before; simpl; lia | intros ?; discriminate]
              | discriminate]) ].

Lemma build_try_resolves h config port w urls :
  after (Debug (DUrls urls)) (reaches_resolved h config port urls)
    (build_try h config port w).
Proof.
  unfold build_try. cbv zeta.
  repeat skip_step (reaches_resolved_skippable h config port urls)
    ltac:(preliminary_leaf).
  intros Hin.
  rewrite bind_events in Hin. cbn [debug emit res events world app] in Hin.
  destruct Hin as [Heq|Hin].
  - injection Heq as ->.
    repeat match goal with
           | H : res (capability _ _ _ _) = Ok _ |- _ =>
               apply capability_ok in H; destruct H as [? ?]
           | H : res (await _ _) = Ok _ |- _ => cbn [await res] in H
           | H : res (createFetchFunction _ _) = Ok _ |- _ =>
               cbn in H; injection H as <-
           end.
    repeat match goal with
           | H : head _ = Some _ |- _ => apply head_filter_first in H
           end.
    exists []. do 3 eexists.
    split; [constructor|]. split; [|split; reflexivity].
    unfold resolved.
    repeat match goal with
           | H1 : first_with ?cap config ?p, H2 : first_with ?cap config ?q |- _ =>
               lazymatch p with
               | q => fail
               | _ =>
                   let E := fresh in
                   assert (E : Some p = Some q)
                     by (rewrite <- (first_with_head _ _ _ H1);
                         apply first_with_head, H2);
                   injection E as E; rewrite E in *; clear H1
               end
           end.
    match goal with
    | Hb : Plugin.build ?b = Some ?fb, Hp : Plugin.buildForPrerendering ?b = Some ?fp,
      Hr : Plugin.getRoutes ?r = Some ?gr, Hroutes : ?gr _ = Ok ?routes,
      Hs : Plugin.resolveURLs ?s = Some ?ru |- _ =>
        exists b, fb, fp, r, gr, s, ru, routes
    end.
    repeat split; assumption.
  - exfalso.
    match goal with
    | Hin : In ?X (events (?m ?w')) |- _ =>
        assert (Hm : emits (fun ev => ev <> X) m)
          by (emits_parts ltac:(phase_leaf));
        exact (not_in_emitted _ m w' X Hm (fun H => H eq_refl) Hin)
    end.
Qed.

Lemma build_resolves h config w urls :
  In (Debug (DUrls urls)) (events (build h config w)) ->
  exists port pre assets app w',
    getPort h = Ok port /\
    In (Listen port) pre /\
    Forall preliminary pre /\
    resolved config port assets app urls /\
    res (build h config w)
    = res (prerendering h config app assets (fetch_at port) urls w') /\
    events (build h config w)
    = pre ++ events (prerendering h config app assets (fetch_at port) urls w') ++
      match res (prerendering h config app assets (fetch_at port) urls w') with
      | Ok _ => []
      | Throw _ => [Close; Debug DServerClosedDueToError]
      end.
Proof.
  intros Hin. apply in_build_try in Hin; [|simpl; lia].
  destruct Hin as (port & Hport & Hin).
  destruct (build_try_resolves _ _ _ _ _ Hin)
    as (pre & assets & app & w' & Hpre & Hresolved & Hres & Hev).
  destruct (build_start_port _ _ _ _ Hport) as [Hget Hlisten].
  exists port, (events (build_start h config w) ++ pre), assets, app, w'.
  split; [exact Hget|]. split; [apply in_or_app; auto|]. split; [|split; [exact Hresolved|split]].
  - apply Forall_app. split; [|exact Hpre].
    assert (H : emits preliminary (build_start h config))
      by (emits_parts ltac:(preliminary_leaf)).
    apply H.
  - rewrite (build_res _ _ _ _ Hport). exact Hres.
  - rewrite (build_events _ _ _ _ Hport), Hres, Hev, <- !app_assoc. reflexivity.
Qed.

(** X5: the URLs a build prerenders are the ones [resolveURLs] of the
    first plugin that has it returns for the routes that [getRoutes] of the
    first plugin that has it computes from the application bundle, itself
    returned by [buildForPrerendering] of the bundler; the fetch function
    handed to [resolveURLs] queries [localhost] on the port that [getPort]
    allocated and the server listens on. *)
Theorem urls_come_from_the_resolver h config w urls :
  In (Debug (DUrls urls)) (events (build h config w)) ->
  exists port assets app,
    getPort h = Ok port /\
    In (Listen port) (events (build h config w)) /\
    resolved config port assets app urls.
Proof.
  intros Hin.
  destruct (build_resolves _ _ _ _ Hin)
    as (port & pre & assets & app & w' & Hport & Hlisten & _ & Hresolved & _ & Hev).
  exists port, assets, app. split; [exact Hport|]. split; [|exact Hresolved].
  rewrite Hev. apply in_or_app. left. exact Hlisten.
Qed.

Lemma urls_source_witness :
  exists port assets app,
    getPort Demo.host = Ok port /\
    In (Listen port) (events (build Demo.host (Demo.site ["index"]) Demo.world)) /\
    resolved (Demo.site ["index"]) port assets app ["index"].
Proof. apply urls_come_from_the_resolver. in_trace. Defined.

Lemma not_preliminary pre X : Forall preliminary pre -> ~ preliminary X -> ~ In X pre.
Proof.
  intros Hpre HX Hin. rewrite Forall_forall in Hpre.
  apply HX, Hpre, list_elem_of_In, Hin.
Qed.

Lemma fanout_events_phase h config app assets phenomicFetch urls w :
  Forall (in_phase Prerendering)
    (events (fanout h config app assets phenomicFetch urls w)).
Proof. apply fanout_phase. Qed.

(** X6: the warning about the routes is printed exactly when the list of
    resolved URLs is empty. *)
Theorem warning_only_without_urls h config w urls :
  In (Debug (DUrls urls)) (events (build h config w)) ->
  In (Console CNoURLsWarning) (events (build h config w)) <-> urls = [].
Proof.
  intros Hin.
  destruct (build_resolves _ _ _ _ Hin)
    as (port & pre & assets & app & w' & _ & _ & Hpre & _ & _ & Hev).
  destruct (prerendering_run h config app assets (fetch_at port) urls w')
    as [_ Hev'].
  rewrite Hev, Hev'. clear Hev Hev'. split.
  - intros H. destruct urls as [|location rest]; [reflexivity|]. exfalso.
    apply in_app_or in H. destruct H as [H|H].
    { revert H. apply not_preliminary; [exact Hpre|]. intros [_ Hne]. apply Hne. reflexivity. }
    apply in_app_or in H. destruct H as [H|H].
    + cbn [length Nat.eqb List.app] in H. destruct H as [H|H]; [discriminate H|].
      apply in_app_or in H. destruct H as [H|H].
      * pose proof (fanout_events_phase h config app assets (fetch_at port)
                      (location :: rest) w') as Hph.
        rewrite Forall_forall in Hph. apply list_elem_of_In, Hph in H. discriminate H.
      * destruct (res (fanout _ _ _ _ _ _ _)); simpl in H;
          repeat (destruct H as [H|H]; [discriminate H|]); exact H.
    + destruct (res (prerendering _ _ _ _ _ _ _)); simpl in H;
        repeat (destruct H as [H|H]; [discriminate H|]); exact H.
  - intros ->. apply in_or_app. right. apply in_or_app. left.
    right. left. reflexivity.
Qed.

Lemma warning_witness :
  In (Console CNoURLsWarning) (events (build Demo.host (Demo.site []) Demo.world)) /\
  ~ In (Console CNoURLsWarning)
      (events (build Demo.host (Demo.site ["index"]) Demo.world)).
Proof.
  split.
  - apply (warning_only_without_urls Demo.host (Demo.site []) Demo.world []);
      [in_trace | reflexivity].
  - intros Hin.
    apply (warning_only_without_urls Demo.host (Demo.site ["index"]) Demo.world
             ["index"] ltac:(in_trace)) in Hin.
    discriminate Hin.
Defined.

(** *** The pool keeps what is known of the calls in flight *)

Section PoolInv.
Context {Task : Type}.
Variable mapper : string -> M Task.
Variable resume : Task -> M (option Task).
Variable location_of : Task -> string.
Variable pick : nat -> nat.
Variable concurrency : nat.
Variable Inv : Task -> Prop.
Variable Good : string -> Prop.
Variable P : Event -> Prop.
Hypothesis P_started : forall location, P (Started location).
Hypothesis P_settled : forall location fulfilled, P (Settled location fulfilled).
Hypothesis mapper_inv : forall location w,
  Good location ->
  Forall P (events (mapper location w)) /\
  forall t, res (mapper location w) = Ok t -> Inv t.
Hypothesis resume_inv : forall t w,
  Inv t ->
  Forall P (events (resume t w)) /\
  forall t', res (resume t w) = Ok (Some t') -> Inv t'.

Lemma pool_start_inv location w :
  Good location ->
  Forall P (events (pool_start mapper location w)) /\
  forall t, res (pool_start mapper location w) = Ok t -> Inv t.
Proof.
  intros Hgood. destruct (mapper_inv location w Hgood) as [Hev Hinv].
  unfold pool_start. rewrite bind_events, bind_res.
  cbn [emit res events world List.app]. rewrite try_catch_events, try_catch_res.
  destruct (res (mapper location w)) as [t|e].
  - rewrite app_nil_r. split; [constructor; auto|]. exact Hinv.
  - split; [|discriminate]. constructor; [auto|].
    apply Forall_app. split; [exact Hev|]. cbn. repeat constructor. auto.
Qed.

Lemma pool_resume_inv t w :
  Inv t ->
  Forall P (events (pool_resume resume location_of t w)) /\
  forall t', res (pool_resume resume location_of t w) = Ok (Some t') -> Inv t'.
Proof.
  intros Ht. destruct (resume_inv t w Ht) as [Hev Hinv].
  unfold pool_resume. rewrite bind_events, bind_res, try_catch_events, try_catch_res.
  destruct (res (resume t w)) as [[t'|]|e];
    cbn [emit bind ret throw res events world List.app].
  - rewrite !app_nil_r. split; [exact Hev|]. intros t'' [= <-]. apply Hinv. reflexivity.
  - rewrite app_nil_r. split; [|discriminate].
    apply Forall_app. split; [exact Hev|]. repeat constructor. auto.
  - rewrite app_nil_r. split; [|discriminate].
    apply Forall_app. split; [exact Hev|]. repeat constructor. auto.
Qed.

Lemma pool_fill_inv queue inflight w :
  Forall Good queue -> Forall Inv inflight ->
  Forall P (events (pool_fill mapper concurrency queue inflight w)) /\
  forall st,
    res (pool_fill mapper concurrency queue inflight w) = Ok st ->
    Forall Good st.1 /\ Forall Inv st.2.
Proof.
  intros Hq. revert inflight w. induction Hq as [|location rest Hgood Hrest IH];
    intros inflight w Hinv; cbn [pool_fill].
  - split; [constructor|]. intros st [= <-]. auto.
  - destruct (length inflight <? concurrency).
    + rewrite bind_events, bind_res.
      destruct (pool_start_inv location w Hgood) as [Hev Ht].
      destruct (res (pool_start mapper location w)) as [t|e].
      * destruct (IH (inflight ++ [t]) (world (pool_start mapper location w)))
          as [Hev' Hst].
        { apply Forall_app. split; [exact Hinv|]. repeat constructor. auto. }
        split; [apply Forall_app; auto | exact Hst].
      * rewrite app_nil_r. split; [exact Hev | discriminate].
    + split; [constructor|]. intros st [= <-]. split; [constructor; auto | exact Hinv].
Qed.

Lemma pool_step_inv k queue inflight w :
  Forall Good queue -> Forall Inv inflight ->
  Forall P (events (pool_step mapper resume location_of pick concurrency k
                      queue inflight w)) /\
  forall st,
    res (pool_step mapper resume location_of pick concurrency k queue inflight w)
    = Ok st ->
    Forall Good st.1 /\ Forall Inv st.2.
Proof.
  intros Hq Hinv. unfold pool_step.
  destruct (inflight !! (pick k mod length inflight)) as [t|] eqn:Hlookup.
  2:{ split; [constructor|]. intros st [= <-]. auto. }
  assert (Ht : Inv t).
  { rewrite Forall_forall in Hinv. apply Hinv. apply list_elem_of_lookup. eauto. }
  rewrite bind_events, bind_res.
  destruct (pool_resume_inv t w Ht) as [Hev Hnext].
  destruct (res (pool_resume resume location_of t w)) as [[t'|]|e].
  - cbn [ret res events]. rewrite app_nil_r. split; [exact Hev|].
    intros st [= <-]. split; [exact Hq|]. cbn [snd].
    apply Forall_insert; [exact Hinv | apply Hnext; reflexivity].
  - destruct (pool_fill_inv queue (delete (pick k mod length inflight) inflight)
                (world (pool_resume resume location_of t w)) Hq) as [Hev' Hst].
    { apply Forall_delete, Hinv. }
    split; [apply Forall_app; auto | exact Hst].
  - rewrite app_nil_r. split; [exact Hev | discriminate].
Qed.

Lemma pool_run_inv fuel k queue inflight w :
  Forall Good queue -> Forall Inv inflight ->
  Forall P (events (pool_run mapper resume location_of pick concurrency fuel k
                      queue inflight w)).
Proof.
  revert k queue inflight w. induction fuel as [|fuel IH];
    intros k queue inflight w Hq Hinv; destruct inflight as [|t inflight];
    cbn [pool_run]; try constructor.
  rewrite bind_events.
  destruct (pool_step_inv k queue (t :: inflight) w Hq Hinv) as [Hev Hst].
  apply Forall_app. split; [exact Hev|].
  destruct (res (pool_step _ _ _ _ _ _ _ _ _)) as [st|e]; [|constructor].
  destruct (Hst st eq_refl) as [Hq' Hinv']. apply IH; assumption.
Qed.

Lemma pMap_inv fuel input w :
  Forall Good input ->
  Forall P (events (pMap mapper resume location_of pick concurrency fuel input w)).
Proof.
  intros Hq. unfold pMap. destruct (concurrency =? 0); [constructor|].
  rewrite bind_events.
  destruct (pool_fill_inv input [] w Hq ltac:(constructor)) as [Hev Hst].
  apply Forall_app. split; [exact Hev|].
  destruct (res (pool_fill mapper concurrency input [] w)) as [st|e]; [|constructor].
  destruct (Hst st eq_refl) as [Hq' Hinv']. apply pool_run_inv; assumption.
Qed.
End PoolInv.

Lemma write_calls_not_collected out files ev :
  In ev (write_calls out files) -> exists p contents, ev = WriteFile p contents.
Proof.
  induction files as [|file files IH]; cbn [write_calls]; [intros []|].
  destruct (decodeURIComponent (file_path file)); [|intros []].
  intros [<-|Hin]; eauto.
Qed.

Lemma fanout_collected h config port assets app urls w :
  Forall (collected_ok config port assets app urls)
    (events (fanout h config app assets (fetch_at port) urls w)).
Proof.
  unfold fanout.
  apply (pMap_inv _ _ _ _ _ (prerender_pending config port assets app urls)
           (fun location => In location urls)).
  - intros location. exact I.
  - intros location fulfilled. exact I.
  - intros location w' Hloc. unfold prerenderFileAndDependencies, capability.
    destruct (head _) as [renderer|] eqn:Hhead;
      [|split; [repeat constructor | discriminate]].
    destruct (Plugin.renderStatic renderer) as [renderStatic|] eqn:Hcap;
      [|split; [repeat constructor | discriminate]].
    cbn. split; [repeat constructor|]. intros t [= <-]. cbn. split; [exact Hloc|].
    exists renderer, renderStatic. split; [apply head_filter_first, Hhead|].
    split; [exact Hcap | reflexivity].
  - intros [location pending|location written] w' Hinv; cbn [prerender_resume].
    + rewrite bind_events, bind_res. cbn [await res events world List.app].
      destruct pending as [files|e]; [|split; [constructor | discriminate]].
      rewrite bind_events, bind_res. cbn [debug emit res events world List.app].
      rewrite bind_events, bind_res, write_calls_run. split.
      * constructor.
        { destruct Hinv as (Hloc & renderer & renderStatic & Hfirst & Hcap & Heq).
          cbn. split; [exact Hloc|]. exists renderer, renderStatic. auto. }
        apply Forall_app. split.
        { apply Forall_forall. intros ev Hev. apply list_elem_of_In in Hev.
          destruct (write_calls_not_collected _ _ _ Hev) as (p & contents & ->).
          exact I. }
        destruct (res (mapM _ _ _)); constructor.
      * destruct (res (mapM _ _ _)); [|discriminate]. intros t' [= <-]. exact I.
    + rewrite bind_events, bind_res. cbn [await res events world List.app].
      destruct written; split; try constructor; discriminate.
  - apply Forall_forall. intros location Hloc. apply list_elem_of_In, Hloc.
Qed.

Lemma urls_first_skippable X :
  phase_of X = Prerendering ->
  Skippable early
    (after X (fun o : Out unit => exists urls, In (Debug (DUrls urls)) (events o))).
Proof.
  intros HX. apply after_skippable_in.
  - intros ev [Hev _] ->. unfold before in Hev. rewrite HX in Hev. simpl in Hev. lia.
  - intros o pre _ [urls Hin]. exists urls. cbn [events]. apply in_or_app. auto.
Qed.

Lemma build_try_urls_first h config port w X :
  phase_of X = Prerendering ->
  after X (fun o => exists urls, In (Debug (DUrls urls)) (events o))
    (build_try h config port w).
Proof.
  intros HX. unfold build_try. cbv zeta.
  repeat skip_step (urls_first_skippable X HX) ltac:(early_leaf).
  intros _. eexists. rewrite bind_events. left. reflexivity.
Qed.

(** An event of the prerender phase occurs after the URLs were resolved. *)
Lemma urls_first h config w X :
  phase_of X = Prerendering ->
  In X (events (build h config w)) ->
  exists urls, In (Debug (DUrls urls)) (events (build h config w)).
Proof.
  intros HX Hin. apply in_build_try in Hin; [|rewrite HX; simpl; lia].
  destruct Hin as (port & Hport & Hin).
  destruct (build_try_urls_first _ _ _ _ _ HX Hin) as [urls Hurls].
  exists urls. rewrite (build_events _ _ _ _ Hport).
  apply in_or_app. right. apply in_or_app. left. exact Hurls.
Qed.

(** An event of the prerender phase other than the final message comes
    from the fan-out over the resolved URLs. *)
Lemma prerender_event_in_fanout h config w X :
  In X (events (build h config w)) ->
  phase_of X = Prerendering ->
  X <> Console CPrerenderingFinished ->
  exists port assets app urls w',
    getPort h = Ok port /\
    resolved config port assets app urls /\
    In (Debug (DUrls urls)) (events (build h config w)) /\
    res (build h config w)
    = res (fanout h config app assets (fetch_at port) urls w') /\
    In X (events (fanout h config app assets (fetch_at port) urls w')).
Proof.
  intros Hin HX Hne. destruct (urls_first _ _ _ _ HX Hin) as [urls Hurls].
  destruct (build_resolves _ _ _ _ Hurls)
    as (port & pre & assets & app & w' & Hport & _ & Hpre & Hresolved & Hres & Hev).
  exists port, assets, app, urls, w'.
  split; [exact Hport|]. split; [exact Hresolved|]. split; [exact Hurls|].
  destruct (prerendering_run h config app assets (fetch_at port) urls w')
    as [Hres' Hev'].
  split; [congruence|].
  rewrite Hev, Hev' in Hin. clear Hev Hev'.
  apply in_app_or in Hin. destruct Hin as [Hin|Hin].
  { exfalso. revert Hin. apply not_preliminary; [exact Hpre|].
    intros [[Hb _] _]. unfold before in Hb. rewrite HX in Hb. simpl in Hb. lia. }
  apply in_app_or in Hin. destruct Hin as [Hin|Hin].
  - destruct Hin as [<-|Hin]; [discriminate HX|].
    apply in_app_or in Hin. destruct Hin as [Hin|Hin].
    { destruct (length urls =? 0); [|destruct Hin].
      destruct Hin as [<-|[]]. discriminate HX. }
    apply in_app_or in Hin. destruct Hin as [Hin|Hin]; [exact Hin|].
    exfalso. destruct (res (fanout _ _ _ _ _ _ _)); [|destruct Hin].
    destruct Hin as [<-|[<-|[<-|[]]]]; try discriminate HX. apply Hne. reflexivity.
  - exfalso. destruct (res (prerendering _ _ _ _ _ _ _)); [destruct Hin|].
    destruct Hin as [<-|[<-|[]]]; discriminate HX.
Qed.

(** X7: whenever the debug line of line 109 shows that [renderStatic]
    returned [files] for [location], the location is one of the resolved
    URLs and [files] is what [renderStatic] of the first plugin with
    [getRoutes] returns when called with the configuration, the application
    bundle and the assets of the bundler, the fetch function of the server
    and the location. *)
Theorem pages_are_rendered_from_the_bundles h config w location files :
  In (Debug (DCollected location files)) (events (build h config w)) ->
  exists port assets app urls renderer renderStatic,
    getPort h = Ok port /\
    resolved config port assets app urls /\
    In location urls /\
    first_with Plugin.getRoutes config renderer /\
    Plugin.renderStatic renderer = Some renderStatic /\
    renderStatic (render_args config port assets app location) = Ok files.
Proof.
  intros Hin.
  destruct (prerender_event_in_fanout _ _ _ _ Hin eq_refl ltac:(discriminate))
    as (port & assets & app & urls & w' & Hport & Hresolved & _ & _ & Hfan).
  pose proof (fanout_collected h config port assets app urls w') as Hall.
  rewrite Forall_forall in Hall. apply list_elem_of_In, Hall in Hfan.
  destruct Hfan as (Hloc & renderer & renderStatic & Hfirst & Hcap & Hfiles).
  exists port, assets, app, urls, renderer, renderStatic. auto 10.
Qed.

Lemma rendered_from_bundles_witness :
  exists port assets app urls renderer renderStatic,
    getPort Demo.host = Ok port /\
    resolved (Demo.site ["index"]) port assets app urls /\
    In "index" urls /\
    first_with Plugin.getRoutes (Demo.site ["index"]) renderer /\
    Plugin.renderStatic renderer = Some renderStatic /\
    renderStatic (render_args (Demo.site ["index"]) port assets app "index")
    = Ok [Demo.page "index"].
Proof.
  apply (pages_are_rendered_from_the_bundles Demo.host (Demo.site ["index"])
           Demo.world "index" [Demo.page "index"]).
  in_trace.
Defined.

(** *** The check of [renderStatic] is made for each URL (C10) *)

Lemma in_bind_later {A B} (m : M A) (f : A -> M B) w a X :
  res (m w) = Ok a ->
  In X (events (f a (world (m w)))) ->
  In X (events (bind m f w)).
Proof. intros H Hin. rewrite bind_events, H. apply in_or_app. right. exact Hin. Qed.

(** Once the content is processed, a build whose routes resolve comes to
    the debug line of the resolved URLs. *)
Lemma build_try_resolution h config port w assets app urls :
  resolved config port assets app urls ->
  after (Console CContentProcessed)
    (fun o => In (Debug (DUrls urls)) (events o))
    (build_try h config port w).
Proof.
  intros (bundler & build & buildForPrerendering & renderer & getRoutes & resolver
          & resolveURLs & routes & Hbundler & Hbuild & Hassets & Hbfp & Happ
          & Hrenderer & Hroutes & Hgr & Hresolver & Hru & Hurls).
  unfold build_try. cbv zeta.
  assert (HS : Skippable (fun ev => ev <> Console CContentProcessed)
                 (after (Console CContentProcessed)
                    (fun o : Out unit => In (Debug (DUrls urls)) (events o)))).
  { apply after_skippable. intros o pre _ H. cbn [events]. apply in_or_app. auto. }
  repeat skip_step HS ltac:(phase_leaf).
  match goal with
  | H : res (capability _ Plugin.buildForPrerendering _ _) = Ok ?c,
    H' : res (await (?c.2 _) _) = Ok ?a |- _ =>
      apply capability_ok in H; destruct H as [Hhead Hcap];
      rewrite (first_with_head _ _ _ Hbundler) in Hhead;
      injection Hhead as Hhead; rewrite <- Hhead, Hbfp in Hcap;
      injection Hcap as Hcap; rewrite <- Hcap in H';
      cbn [await res] in H'; rewrite Happ in H'; injection H' as <-
  end.
  intros _.
  rewrite (first_with_head _ _ _ Hrenderer), (first_with_head _ _ _ Hresolver).
  eapply in_bind_later; [reflexivity|].
  eapply in_bind_later; [reflexivity|].
  eapply in_bind_later; [rewrite (capability_some _ _ _ _ _ Hroutes); reflexivity|].
  eapply in_bind_later; [rewrite (capability_some _ _ _ _ _ Hru); reflexivity|].
  eapply in_bind_later; [reflexivity|].
  eapply in_bind_later; [exact Hgr|].
  eapply in_bind_later; [reflexivity|].
  eapply in_bind_later; [exact Hurls|].
  eapply in_bind_later; [reflexivity|].
  rewrite bind_events. left. reflexivity.
Qed.

(** A build that has processed the content and whose routes resolve to
    [urls] comes to the prerendering of [urls]. *)
Lemma build_resolution h config w port assets app urls :
  In (Console CContentProcessed) (events (build h config w)) ->
  getPort h = Ok port ->
  resolved config port assets app urls ->
  In (Debug (DUrls urls)) (events (build h config w)).
Proof.
  intros Hin Hport Hresolved.
  apply in_build_try in Hin; [|simpl; lia].
  destruct Hin as (port' & Hstart & Hin).
  destruct (build_start_port _ _ _ _ Hstart) as [Hport' _].
  rewrite Hport in Hport'. injection Hport' as <-.
  rewrite (build_events _ _ _ _ Hstart).
  apply in_or_app. right. apply in_or_app. left.
  exact (build_try_resolution _ _ _ _ _ _ _ Hresolved Hin).
Qed.




(** *** Every URL is rendered when nothing fails (C6) *)

Lemma first_with_unique {A} (cap : Plugin.t -> option A) config p q :
  first_with cap config p -> first_with cap config q -> p = q.
Proof.
  intros Hp Hq. apply first_with_head in Hp, Hq. congruence.
Qed.

(** What the prerendering works on is determined by the configuration and
    the port. *)
Lemma resolved_unique config port assets app urls assets' app' urls' :
  resolved config port assets app urls ->
  resolved config port assets' app' urls' ->
  assets' = assets /\ app' = app /\ urls' = urls.
Proof.
  intros (b1 & fb1 & fp1 & r1 & gr1 & s1 & ru1 & routes1 & Hb1 & Hfb1 & Ha1
          & Hfp1 & Hp1 & Hr1 & Hgr1 & Hroutes1 & Hs1 & Hru1 & Hurls1)
         (b2 & fb2 & fp2 & r2 & gr2 & s2 & ru2 & routes2 & Hb2 & Hfb2 & Ha2
          & Hfp2 & Hp2 & Hr2 & Hgr2 & Hroutes2 & Hs2 & Hru2 & Hurls2).
  assert (b2 = b1) by (eapply first_with_unique; eassumption).
  assert (r2 = r1) by (eapply first_with_unique; eassumption).
  assert (s2 = s1) by (eapply first_with_unique; eassumption).
  subst b2 r2 s2.
  assert (fb2 = fb1) by congruence. assert (fp2 = fp1) by congruence.
  assert (gr2 = gr1) by congruence. assert (ru2 = ru1) by congruence.
  subst fb2 fp2 gr2 ru2.
  assert (assets' = assets) by congruence. assert (app' = app) by congruence.
  subst assets' app'.
  assert (routes2 = routes1) by congruence. subst routes2.
  assert (urls' = urls) by congruence. auto.
Qed.

Section PoolQuiet.
Context {Task : Type}.
Variable mapper : string -> M Task.
Variable resume : Task -> M (option Task).
Variable location_of : Task -> string.
Variable pick : nat -> nat.
Variable concurrency : nat.
Variable Inv : Task -> Prop.
Variable Good : string -> Prop.
Variable P : Event -> Prop.
Hypothesis P_started : forall location, P (Started location).
Hypothesis P_fulfilled : forall location, P (Settled location true).
Hypothesis mapper_quiet : forall location w,
  Good location ->
  Forall P (events (mapper location w)) /\
  exists t, res (mapper location w) = Ok t /\ Inv t.
Hypothesis resume_quiet : forall t w,
  Inv t ->
  Forall P (events (resume t w)) /\
  match res (resume t w) with
  | Ok (Some t') => Inv t'
  | Ok None => True
  | Throw _ => False
  end.

Lemma pool_start_quiet location w :
  Good location ->
  Forall P (events (pool_start mapper location w)) /\
  forall t, res (pool_start mapper location w) = Ok t -> Inv t.
Proof.
  intros Hgood. destruct (mapper_quiet location w Hgood) as [Hev (t & Hres & Hinv)].
  unfold pool_start. rewrite bind_events, bind_res.
  cbn [emit res events world List.app]. rewrite try_catch_events, try_catch_res, Hres.
  rewrite app_nil_r. split; [constructor; auto|]. intros t' [= <-]. exact Hinv.
Qed.

Lemma pool_resume_quiet t w :
  Inv t ->
  Forall P (events (pool_resume resume location_of t w)) /\
  forall t', res (pool_resume resume location_of t w) = Ok (Some t') -> Inv t'.
Proof.
  intros Ht. destruct (resume_quiet t w Ht) as [Hev Hinv].
  unfold pool_resume. rewrite bind_events, bind_res, try_catch_events, try_catch_res.
  destruct (res (resume t w)) as [[t'|]|e]; [| |destruct Hinv];
    cbn [emit bind ret throw res events world List.app].
  - rewrite !app_nil_r. split; [exact Hev|]. intros t'' [= <-]. exact Hinv.
  - rewrite app_nil_r. split; [|discriminate].
    apply Forall_app. split; [exact Hev|]. repeat constructor. auto.
Qed.

Lemma pool_fill_quiet queue inflight w :
  Forall Good queue -> Forall Inv inflight ->
  Forall P (events (pool_fill mapper concurrency queue inflight w)) /\
  forall st,
    res (pool_fill mapper concurrency queue inflight w) = Ok st ->
    Forall Good st.1 /\ Forall Inv st.2.
Proof.
  intros Hq. revert inflight w. induction Hq as [|location rest Hgood Hrest IH];
    intros inflight w Hinv; cbn [pool_fill].
  - split; [constructor|]. intros st [= <-]. auto.
  - destruct (length inflight <? concurrency).
    + rewrite bind_events, bind_res.
      destruct (pool_start_quiet location w Hgood) as [Hev Ht].
      destruct (res (pool_start mapper location w)) as [t|e].
      * destruct (IH (inflight ++ [t]) (world (pool_start mapper location w)))
          as [Hev' Hst].
        { apply Forall_app. split; [exact Hinv|]. repeat constructor. auto. }
        split; [apply Forall_app; auto | exact Hst].
      * rewrite app_nil_r. split; [exact Hev | discriminate].
    + split; [constructor|]. intros st [= <-]. split; [constructor; auto | exact Hinv].
Qed.

Lemma pool_step_quiet k queue inflight w :
  Forall Good queue -> Forall Inv inflight ->
  Forall P (events (pool_step mapper resume location_of pick concurrency k
                      queue inflight w)) /\
  forall st,
    res (pool_step mapper resume location_of pick concurrency k queue inflight w)
    = Ok st ->
    Forall Good st.1 /\ Forall Inv st.2.
Proof.
  intros Hq Hinv. unfold pool_step.
  destruct (inflight !! (pick k mod length inflight)) as [t|] eqn:Hlookup.
  2:{ split; [constructor|]. intros st [= <-]. auto. }
  assert (Ht : Inv t).
  { rewrite Forall_forall in Hinv. apply Hinv. apply list_elem_of_lookup. eauto. }
  rewrite bind_events, bind_res.
  destruct (pool_resume_quiet t w Ht) as [Hev Hnext].
  destruct (res (pool_resume resume location_of t w)) as [[t'|]|e].
  - cbn [ret res events]. rewrite app_nil_r. split; [exact Hev|].
    intros st [= <-]. split; [exact Hq|]. cbn [snd].
    apply Forall_insert; [exact Hinv | apply Hnext; reflexivity].
  - destruct (pool_fill_quiet queue (delete (pick k mod length inflight) inflight)
                (world (pool_resume resume location_of t w)) Hq) as [Hev' Hst].
    { apply Forall_delete, Hinv. }
    split; [apply Forall_app; auto | exact Hst].
  - rewrite app_nil_r. split; [exact Hev | discriminate].
Qed.

Lemma pool_run_quiet fuel k queue inflight w :
  Forall Good queue -> Forall Inv inflight ->
  Forall P (events (pool_run mapper resume location_of pick concurrency fuel k
                      queue inflight w)).
Proof.
  revert k queue inflight w. induction fuel as [|fuel IH];
    intros k queue inflight w Hq Hinv; destruct inflight as [|t inflight];
    cbn [pool_run]; try constructor.
  rewrite bind_events.
  destruct (pool_step_quiet k queue (t :: inflight) w Hq Hinv) as [Hev Hst].
  apply Forall_app. split; [exact Hev|].
  destruct (res (pool_step _ _ _ _ _ _ _ _ _)) as [st|e]; [|constructor].
  destruct (Hst st eq_refl) as [Hq' Hinv']. apply IH; assumption.
Qed.

(** A pool whose calls never reject shows no rejection. *)
Lemma pMap_quiet fuel input w :
  Forall Good input ->
  Forall P (events (pMap mapper resume location_of pick concurrency fuel input w)).
Proof.
  intros Hq. unfold pMap. destruct (concurrency =? 0); [constructor|].
  rewrite bind_events.
  destruct (pool_fill_quiet input [] w Hq ltac:(constructor)) as [Hev Hst].
  apply Forall_app. split; [exact Hev|].
  destruct (res (pool_fill mapper concurrency input [] w)) as [st|e]; [|constructor].
  destruct (Hst st eq_refl) as [Hq' Hinv']. apply pool_run_quiet; assumption.
Qed.
End PoolQuiet.

(** When every path is well formed and no write fails, the map of line
    111 returns and every write is fulfilled. *)
Lemma writes_succeed h config files w :
  Forall decodable files ->
  (forall p, fault h (OpWriteFile p) = None) ->
  exists writes l,
    res (mapM (fun file =>
                 decoded <- await (decodeURIComponent (file_path file)) ;;
                 writeFile h (path_join (outdir config) decoded) (file_contents file))
              files w) = Ok writes /\
    Promise_all writes = Ok l.
Proof.
  intros Hfiles Hfault. revert w.
  induction Hfiles as [|file files [decoded Hd] _ IH]; intros w.
  - exists [], []. split; reflexivity.
  - cbn [mapM]. rewrite bind_res.
    assert (Hfile : res ((decoded <- await (decodeURIComponent (file_path file)) ;;
                          writeFile h (path_join (outdir config) decoded)
                            (file_contents file)) w) = Ok (Ok tt)).
    { rewrite bind_res. cbn [await res world]. rewrite Hd.
      unfold writeFile. rewrite Hfault. reflexivity. }
    rewrite Hfile, bind_res.
    match goal with
    | |- context [mapM _ files ?w'] =>
        destruct (IH w') as (writes & l & Hres & Hall)
    end.
    rewrite Hres. cbn [ret res].
    exists (Ok tt :: writes), (tt :: l). split; [reflexivity|].
    cbn [Promise_all]. rewrite Hall. reflexivity.
Qed.

Lemma write_calls_not_rejected out files :
  Forall (fun ev => rejected ev = false) (write_calls out files).
Proof.
  apply Forall_forall. intros ev Hev. apply list_elem_of_In in Hev.
  destruct (write_calls_not_collected _ _ _ Hev) as (p & contents & ->).
  reflexivity.
Qed.

(** When every call of [renderStatic] returns files with well-formed paths
    and no write fails, no prerender call of the fan-out rejects. *)
Lemma fanout_quiet h config port assets app urls w renderer renderStatic :
  first_with Plugin.getRoutes config renderer ->
  Plugin.renderStatic renderer = Some renderStatic ->
  (forall location,
      In location urls ->
      exists files,
        renderStatic (render_args config port assets app location) = Ok files /\
        Forall decodable files) ->
  (forall p, fault h (OpWriteFile p) = None) ->
  Forall (fun ev => rejected ev = false)
    (events (fanout h config app assets (fetch_at port) urls w)).
Proof.
  intros Hfirst Hcap Hrender Hfault. unfold fanout.
  apply (pMap_quiet _ _ _ _ _ prerender_sound (fun location => In location urls)).
  - intros location. reflexivity.
  - intros location. reflexivity.
  - intros location w' Hloc. unfold prerenderFileAndDependencies, capability.
    rewrite (first_with_head _ _ _ Hfirst), Hcap.
    cbn. split; [repeat constructor|]. eexists. split; [reflexivity|].
    apply (Hrender location Hloc).
  - intros [location pending|location written] w' Hinv; cbn [prerender_resume].
    + destruct Hinv as (files & -> & Hfiles).
      rewrite bind_events, bind_res. cbn [await res events world List.app].
      rewrite bind_events, bind_res. cbn [debug emit res events world List.app].
      rewrite bind_events, bind_res, write_calls_run.
      destruct (writes_succeed h config files w' Hfiles Hfault)
        as (writes & l & Hres & Hall).
      rewrite Hres. cbn [ret res events]. split.
      * constructor; [reflexivity|]. rewrite app_nil_r.
        apply write_calls_not_rejected.
      * exists l. exact Hall.
    + destruct Hinv as [l ->]. cbn. split; [constructor | exact I].
  - apply Forall_forall. intros location Hloc. apply list_elem_of_In, Hloc.
Qed.

(** C6 (amended): along every build, after every prefix of its trace, at
    most fifty prerender calls have been started by the pool and have not
    yet settled.  And when the content has been processed, the routes
    resolve to [urls], the renderer has [renderStatic], every call of
    [renderStatic] for a URL of the list returns files whose paths are all
    well-formed percent-encodings, and no write fails, the build succeeds
    and every URL of the list is rendered: [renderStatic] was called for
    it, the files it returned are the ones shown by the debug line, each of
    them was handed to [writeFile] at its decoded path, and the prerender
    call has settled with success. *)
Theorem fanout_is_bounded_and_complete h config w :
  (forall p, p `prefix_of` events (build h config w) -> in_flight p <= 50) /\
  (forall urls port assets app renderer renderStatic,
      In (Console CContentProcessed) (events (build h config w)) ->
      getPort h = Ok port ->
      resolved config port assets app urls ->
      first_with Plugin.getRoutes config renderer ->
      Plugin.renderStatic renderer = Some renderStatic ->
      (forall location,
          In location urls ->
          exists files,
            renderStatic (render_args config port assets app location) = Ok files /\
            Forall decodable files) ->
      (forall p, fault h (OpWriteFile p) = None) ->
      res (build h config w) = Ok tt /\
      forall location,
        In location urls ->
        exists files,
          renderStatic (render_args config port assets app location) = Ok files /\
          rendered_into (outdir config) location files (events (build h config w))).
Proof.
  split; [apply within_prefix, build_bounded|].
  intros urls port assets app renderer renderStatic Hdone Hport Hresolved Hfirst
         Hcap Hrender Hfault.
  pose proof (build_resolution _ _ _ _ _ _ _ Hdone Hport Hresolved) as Hurls.
  destruct (build_resolves _ _ _ _ Hurls)
    as (port' & pre & assets' & app' & w' & Hport' & _ & Hpre & Hresolved' & Hres & Hev).
  rewrite Hport in Hport'. injection Hport' as <-.
  destruct (resolved_unique _ _ _ _ _ _ _ _ Hresolved Hresolved') as (-> & -> & _).
  destruct (prerendering_run h config app assets (fetch_at port) urls w')
    as [Hres' Hev'].
  rewrite Hres' in Hres, Hev. rewrite Hev' in Hev.
  pose proof (fanout_ok h config app assets (fetch_at port) urls w') as Hfan.
  pose proof (fanout_quiet h config port assets app urls w' renderer renderStatic
                Hfirst Hcap Hrender Hfault) as Hquiet.
  pose proof (fanout_collected h config port assets app urls w') as Hcollected.
  destruct (res (fanout h config app assets (fetch_at port) urls w')) as [[]|e].
  - split; [exact Hres|]. intros location Hloc.
    destruct (Hfan location Hloc) as [(plugin & files & Hcall & Hfiles & Hwrites) Hsettled].
    assert (Hincl : forall ev,
               In ev (events (fanout h config app assets (fetch_at port) urls w')) ->
               In ev (events (build h config w))).
    { rewrite Hev. intros ev Hev0.
      repeat (rewrite in_app_iff || cbn [In]). tauto. }
    exists files. split.
    + rewrite Forall_forall in Hcollected.
      pose proof (Hcollected _ (proj2 (list_elem_of_In _ _) Hfiles)) as Hok.
      destruct Hok as (_ & renderer' & renderStatic' & Hfirst' & Hcap' & Heq).
      assert (renderer' = renderer) by (eapply first_with_unique; eassumption).
      subst renderer'. congruence.
    + split; [eauto|]. split; [auto|]. split; [|auto].
      intros file Hfile. destruct (Hwrites file Hfile) as (decoded & Hd & Hw). eauto.
  - exfalso. destruct Hfan as [location Hrej].
    rewrite Forall_forall in Hquiet.
    apply list_elem_of_In, Hquiet in Hrej. discriminate Hrej.
Qed.

Lemma decodable_by_decision file :
  match decodeURIComponent (file_path file) with
  | Ok _ => true
  | Throw _ => false
  end = true ->
  decodable file.
Proof.
  unfold decodable. destruct (decodeURIComponent (file_path file)) as [decoded|e];
    [eauto | discriminate].
Qed.

Lemma fanout_of_200_witness :
  let o := build Demo.host_youngest_first (Demo.site (Demo.pages 200)) Demo.world in
  (forall p, p `prefix_of` events o -> in_flight p <= 50) /\
  peak (events o) = 50 /\
  res o = Ok tt /\
  forall location,
    In location (Demo.pages 200) ->
    rendered_into "dist" location [Demo.page location] (events o).
Proof.
  cbv zeta.
  pose proof (fanout_is_bounded_and_complete Demo.host_youngest_first
                (Demo.site (Demo.pages 200)) Demo.world) as [Hbound Hdone].
  split; [exact Hbound|]. split; [vm_compute; reflexivity|].
  assert (Hpaths : forall location,
             In location (Demo.pages 200) ->
             Forall decodable [Demo.page location]).
  { assert (H : forallb
                  (fun location =>
                     match decodeURIComponent (file_path (Demo.page location)) with
                     | Ok _ => true
                     | Throw _ => false
                     end) (Demo.pages 200) = true)
      by (vm_compute; reflexivity).
    intros location Hloc. repeat constructor. apply decodable_by_decision.
    rewrite forallb_forall in H. apply H, Hloc. }
  destruct (Hdone (Demo.pages 200) 3000 "assets" "app" Demo.renderer
              (fun args => Ok [Demo.page (ra_location args)]))
    as [Hres Hall].
  - in_trace.
  - reflexivity.
  - exists Demo.bundler, (fun _ => Ok "assets"), (fun _ => Ok "app"),
      Demo.renderer, (fun _ => Ok "routes"), (Demo.resolver (Demo.pages 200)),
      (fun _ _ => Ok (Demo.pages 200)), "routes".
    split; [exists [], [Demo.markdown; Demo.renderer; Demo.resolver (Demo.pages 200)];
            repeat split; constructor|].
    do 4 (split; [reflexivity|]).
    split; [exists [Demo.bundler; Demo.markdown], [Demo.resolver (Demo.pages 200)];
            repeat split; repeat constructor|].
    do 2 (split; [reflexivity|]).
    split; [|split; reflexivity].
    exists [Demo.bundler; Demo.markdown; Demo.renderer], [].
    repeat split. repeat constructor.
  - exists [Demo.bundler; Demo.markdown], [Demo.resolver (Demo.pages 200)].
    repeat split. repeat constructor.
  - reflexivity.
  - intros location Hloc. eexists. split; [reflexivity|]. apply Hpaths, Hloc.
  - intros p. reflexivity.
  - split; [exact Hres|]. intros location Hloc.
    destruct (Hall location Hloc) as (files & Hfiles & Hrendered).
    injection Hfiles as <-. exact Hrendered.
Defined.

(** C6 as stated fails: no call of [renderStatic] fails and no write
    fails, and yet the build fails and the last file of the page is never
    written: the second file has a path that [decodeURIComponent]
    rejects. *)
Lemma unfailing_renders_and_writes_are_not_enough :
  let config :=
    Demo.config_of "dist"
      [Demo.bundler; Demo.markdown; Demo.careless_renderer; Demo.resolver ["/"]] in
  let o := build Demo.host config Demo.world in
  Plugin.renderStatic Demo.careless_renderer
  = Some (fun _ => Ok Demo.careless_files) /\
  fault Demo.host = (fun _ => None) /\
  In (RenderStatic "careless" "/") (events o) /\
  res o = Throw URIError /\
  ~ In (Settled "/" true) (events o) /\
  ~ In (WriteFile "dist/last.html" "3") (events o).
Proof.
  cbv zeta. split; [reflexivity|]. split; [reflexivity|]. split; [in_trace|].
  split; [vm_compute; reflexivity|].
  split; vm_compute; intros H;
    repeat (destruct H as [H|H]; [discriminate H|]); exact H.
Qed.

(** ** The renderer and the resolver *)

Lemma role_calls_skippable config :
  Skippable (role_call_ok config) (@role_calls_ok unit config).
Proof.
  split; unfold role_calls_ok; cbn [events]; [auto|].
  intros o pre Hpre Ho. apply Forall_app. auto.
Qed.

(** The plugin of a call is the one that passed the check before it. *)
Ltac role_leaf :=
  first
    [ exact I
    | by_phase; exact I
    | match goal with
      | H : res (capability _ _ _ _) = Ok ?a |- role_call_ok _ (_ (Plugin.name ?a.1)) =>
          apply capability_ok in H; destruct H as [H _];
          apply head_filter_first in H; simpl; eauto
      end ].

Lemma prerender_start_role config app assets phenomicFetch location :
  emits (role_call_ok config)
    (prerenderFileAndDependencies config
       (head (List.filter (fun p => has (Plugin.getRoutes p)) (plugins config)))
       app assets phenomicFetch location).
Proof.
  unfold prerenderFileAndDependencies, capability, debug.
  destruct (head _) as [renderer|] eqn:Hhead; [|emits_tac; exact I].
  destruct (Plugin.renderStatic renderer); emits_tac; try exact I.
  exists renderer. split; [apply head_filter_first, Hhead | reflexivity].
Qed.

Lemma prerender_resume_role h config t :
  emits (role_call_ok config) (prerender_resume h config t).
Proof. unfold prerender_resume, writeFile, debug. emits_tac; exact I. Qed.

Lemma build_try_role_calls h config port w :
  role_calls_ok config (build_try h config port w).
Proof.
  unfold build_try. cbv zeta.
  repeat skip_step (role_calls_skippable config) ltac:(role_leaf).
  lazymatch goal with
  | |- ?Q (bind ?m ?f ?w') =>
      apply (bind_skip _ Q m f w' (role_calls_skippable config));
      [ apply pMap_emits;
        [ intros ?; exact I | intros ? ?; exact I
        | intros ?; apply prerender_start_role
        | intros ?; apply prerender_resume_role ]
      | intros ? _; cbv beta ]
  end.
  repeat skip_step (role_calls_skippable config) ltac:(role_leaf).
  repeat constructor.
Qed.

Lemma build_role_calls h config w :
  Forall (role_call_ok config) (events (build h config w)).
Proof.
  assert (Hstart : Forall (role_call_ok config) (events (build_start h config w))).
  { assert (H : emits (role_call_ok config) (build_start h config))
      by (emits_parts ltac:(exact I)).
    apply H. }
  destruct (res (build_start h config w)) as [port|e] eqn:E.
  - rewrite (build_events _ _ _ _ E).
    apply Forall_app; split; [exact Hstart|].
    apply Forall_app; split; [apply build_try_role_calls|].
    destruct (res (build_try _ _ _ _)); repeat constructor.
  - rewrite (build_events_failed_start _ _ _ _ E). exact Hstart.
Qed.

(** X8: every call of [getRoutes] and every call of [renderStatic] goes
    to the first plugin, in registration order, that has [getRoutes] (a
    plugin that has [renderStatic] but not [getRoutes] is never asked to
    render), and the call of [resolveURLs] goes to the first plugin that has
    [resolveURLs]. *)
Theorem renderer_is_first_with_getRoutes h config w :
  (forall plugin,
      In (GetRoutes plugin) (events (build h config w)) ->
      exists p, first_with Plugin.getRoutes config p /\ Plugin.name p = plugin) /\
  (forall plugin location,
      In (RenderStatic plugin location) (events (build h config w)) ->
      exists p, first_with Plugin.getRoutes config p /\ Plugin.name p = plugin) /\
  (forall plugin,
      In (ResolveURLs plugin) (events (build h config w)) ->
      exists p, first_with Plugin.resolveURLs config p /\ Plugin.name p = plugin).
Proof.
  pose proof (build_role_calls h config w) as Hall. rewrite Forall_forall in Hall.
  split; [|split].
  - intros plugin Hin. apply list_elem_of_In, Hall in Hin. exact Hin.
  - intros plugin location Hin. apply list_elem_of_In, Hall in Hin. exact Hin.
  - intros plugin Hin. apply list_elem_of_In, Hall in Hin. exact Hin.
Qed.

Lemma renderer_choice_witness :
  let config :=
    Demo.config_of "dist"
      [Demo.bundler; Demo.markdown; Demo.render_only; Demo.renderer;
       Demo.resolver ["index"]] in
  (exists p, first_with Plugin.getRoutes config p /\ Plugin.name p = "renderer") /\
  (exists p, first_with Plugin.getRoutes config p /\ Plugin.name p = "renderer") /\
  (exists p, first_with Plugin.resolveURLs config p /\ Plugin.name p = "resolver").
Proof.
  cbv zeta.
  destruct (renderer_is_first_with_getRoutes Demo.host
              (Demo.config_of "dist"
                 [Demo.bundler; Demo.markdown; Demo.render_only; Demo.renderer;
                  Demo.resolver ["index"]])
              Demo.world) as (H1 & H2 & H3).
  split; [apply (H1 "renderer"); in_trace|].
  split; [apply (H2 "renderer" "index"); in_trace|].
  apply (H3 "resolver"). in_trace.
Defined.

(** ** Nothing is written but rendered files *)

Lemma writes_have_source_closed out : Closed (writes_have_source out).
Proof.
  split; unfold writes_have_source.
  - intros p contents [].
  - intros t1 t2 H1 H2 p contents Hin.
    apply in_app_or in Hin. destruct Hin as [Hin|Hin].
    + destruct (H1 _ _ Hin) as (location & files & file & decoded & Hc & Hrest).
      exists location, files, file, decoded. split; [apply in_or_app; auto | exact Hrest].
    + destruct (H2 _ _ Hin) as (location & files & file & decoded & Hc & Hrest).
      exists location, files, file, decoded. split; [apply in_or_app; auto | exact Hrest].
Qed.

Lemma writes_have_source_other out ev :
  (forall p contents, ev <> WriteFile p contents) ->
  writes_have_source out [ev].
Proof. intros H p contents [Hin|[]]. destruct (H _ _ Hin). Qed.

Lemma write_calls_source out files p contents :
  In (WriteFile p contents) (write_calls out files) ->
  exists file decoded,
    In file files /\
    decodeURIComponent (file_path file) = Ok decoded /\
    p = path_join out decoded /\
    contents = file_contents file.
Proof.
  induction files as [|file files IH]; cbn [write_calls]; [intros []|].
  destruct (decodeURIComponent (file_path file)) as [decoded|e] eqn:Hd; [|intros []].
  intros [[= <- <-]|Hin].
  - exists file, decoded. repeat split; auto. left. reflexivity.
  - destruct (IH Hin) as (file' & decoded' & Hfile & Hrest).
    exists file', decoded'. split; [right; exact Hfile | exact Hrest].
Qed.

Lemma prerender_resume_sources h config t :
  traces (writes_have_source (outdir config)) (prerender_resume h config t).
Proof.
  intros w. destruct t as [location [files|e]|location written].
  - unfold prerender_resume. rewrite bind_events. cbn [await res events world List.app].
    rewrite bind_events. cbn [debug emit res events world List.app].
    rewrite bind_events, write_calls_run.
    intros p contents [Hin|Hin]; [discriminate Hin|].
    apply in_app_or in Hin. destruct Hin as [Hin|Hin].
    + destruct (write_calls_source _ _ _ _ Hin) as (file & decoded & Hrest).
      exists location, files, file, decoded. split; [left; reflexivity | exact Hrest].
    + exfalso. destruct (res (mapM _ _ _)); destruct Hin.
  - intros p contents [].
  - unfold prerender_resume. rewrite bind_events. cbn [await res events world List.app].
    destruct written; intros p contents [].
Qed.

Ltac source_leaf :=
  apply writes_have_source_other; intros ? ?; discriminate.

Lemma build_writes_have_source h config :
  traces (writes_have_source (outdir config)) (build h config).
Proof.
  pose proof (writes_have_source_closed (outdir config)) as Hc.
  unfold build, build_try, build_catch, build_start, getContent, getContentPath,
    db_destroy, call_processFile, rimraf_sync, env_default, env_set,
    createServer, listen, close, createFetchFunction, call_beforeBuild,
    console_log, debug, guard.
  cbv zeta.
  repeat first
    [ apply (pMap_traces _ Hc);
      [ intros ?; source_leaf | intros ? ?; source_leaf
      | intros ?; unfold prerenderFileAndDependencies, debug
      | intros ?; apply prerender_resume_sources ]
    | apply (traces_mapM _ Hc); intros ?
    | apply traces_emit; source_leaf
    | apply (traces_bind _ Hc); [|intros ?]
    | apply (traces_try_catch _ Hc); [|intros ?]
    | apply (traces_silent _ Hc); intros ?; reflexivity
    | match goal with
      | |- traces _ (capability ?p _ _) => unfold capability
      | |- traces _ (match ?x with _ => _ end) => destruct x
      | |- traces _ (if ?x then _ else _) => destruct x
      | |- traces _ (let '(_, _) := ?x in _) => destruct x
      end ].
Qed.

(** X9: a build writes nothing but rendered files: every call of
    [writeFile] is for a file that [renderStatic] returned for some
    location, at the percent-decoded path of that file joined to the output
    directory, and with the contents of that file. *)
Theorem writes_come_from_rendered_files h config w p contents :
  In (WriteFile p contents) (events (build h config w)) ->
  exists location files file decoded,
    In (Debug (DCollected location files)) (events (build h config w)) /\
    In file files /\
    decodeURIComponent (file_path file) = Ok decoded /\
    p = path_join (outdir config) decoded /\
    contents = file_contents file.
Proof. intros Hin. exact (build_writes_have_source h config w p contents Hin). Qed.

Lemma write_source_witness :
  exists location files file decoded,
    In (Debug (DCollected location files))
       (events (build Demo.host (Demo.site ["a%20b"]) Demo.world)) /\
    In file files /\
    decodeURIComponent (file_path file) = Ok decoded /\
    "dist/a b.html" = path_join (outdir (Demo.site ["a%20b"])) decoded /\
    "<html>" = file_contents file.
Proof.
  apply (writes_come_from_rendered_files Demo.host (Demo.site ["a%20b"]) Demo.world).
  in_trace.
Defined.

(** ** The [beforeBuild] hooks *)

Lemma filter_none {A} (f : A -> bool) l :
  Forall (fun x => f x = false) l -> List.filter f l = [].
Proof. induction 1 as [|x l Hx _ IH]; simpl; [reflexivity|]. rewrite Hx. exact IH. Qed.

Lemma filter_all {A} (f : A -> bool) l :
  Forall (fun x => f x = true) l -> List.filter f l = l.
Proof. induction 1 as [|x l Hx _ IH]; simpl; [reflexivity|]. rewrite Hx, IH. reflexivity. Qed.

Lemma hooks_trace config w :
  events (mapM (call_beforeBuild config) (plugins config) w) = hook_calls config.
Proof.
  unfold hook_calls. generalize (plugins config) as ps. intros ps. revert w.
  induction ps as [|p ps IH]; intros w; [reflexivity|].
  cbn [mapM hook_calls_of]. rewrite bind_events.
  unfold call_beforeBuild.
  destruct (Plugin.beforeBuild p) as [beforeBuild|].
  - cbn [bind emit await res events world List.app].
    destruct (beforeBuild (settings config)) as [hook|e]; [|reflexivity].
    cbn [List.app]. f_equal. rewrite bind_events, IH.
    destruct (res (mapM _ _ _)); cbn [ret events]; apply app_nil_r.
  - cbn [ret res events world List.app]. rewrite bind_events, IH.
    destruct (res (mapM _ _ _)); cbn [ret events]; apply app_nil_r.
Qed.

Lemma hook_calls_are_hooks config :
  Forall (fun ev => is_hook_call ev = true) (hook_calls config).
Proof.
  unfold hook_calls. induction (plugins config) as [|p ps IH]; [constructor|].
  cbn [hook_calls_of]. destruct (Plugin.beforeBuild p) as [beforeBuild|]; [|exact IH].
  constructor; [reflexivity|].
  destruct (beforeBuild (settings config)); [exact IH | constructor].
Qed.

(** When no hook throws, every hook is called. *)
Lemma hook_calls_all config :
  no_hook_throws config -> hook_calls config = all_hook_calls config.
Proof.
  unfold no_hook_throws, hook_outcomes, hook_calls, all_hook_calls.
  induction (plugins config) as [|p ps IH]; [reflexivity|].
  cbn [map hook_calls_of flat_map]. intros H. apply Forall_cons in H.
  destruct H as [[hook Hp] H].
  destruct (Plugin.beforeBuild p) as [beforeBuild|]; [|apply IH, H].
  rewrite Hp. cbn [List.app]. f_equal. apply IH, H.
Qed.

(** The [try] block begins with the hooks. *)
Lemma build_try_hooks h config port w :
  exists rest,
    events (build_try h config port w) = hook_calls config ++ rest /\
    Forall (fun ev => is_hook_call ev = false) rest.
Proof.
  unfold build_try. cbv zeta. rewrite bind_events, hooks_trace.
  eexists. split; [reflexivity|].
  destruct (res (mapM _ _ _)) as [hooks|e]; [|constructor].
  match goal with
  | |- Forall _ (events (?m ?w')) =>
      assert (Hm : emits (fun ev => is_hook_call ev = false) m)
        by (emits_parts ltac:(first [reflexivity | by_phase; reflexivity]));
      apply Hm
  end.
Qed.

(** X10: in every build whose server has started, the plugins that have
    [beforeBuild] are called in their order, each of them once, up to and
    including the first one whose hook throws; the hook is called nowhere
    else.  A promise that rejects does not stop the calls: when no hook
    throws, every plugin that has the hook is called. *)
Theorem every_hook_is_called_once h config w :
  In (Debug DServerReady) (events (build h config w)) ->
  List.filter is_hook_call (events (build h config w)) = hook_calls config /\
  (no_hook_throws config ->
   List.filter is_hook_call (events (build h config w)) = all_hook_calls config).
Proof.
  intros Hready.
  assert (H : List.filter is_hook_call (events (build h config w))
              = hook_calls config).
  { destruct (server_ready _ _ _ Hready) as [port Hport].
    rewrite (build_events _ _ _ _ Hport).
    destruct (build_try_hooks h config port (world (build_start h config w)))
      as (rest & -> & Hrest).
    rewrite !List.filter_app.
    rewrite (filter_none _ (events (build_start h config w))).
    2:{ assert (H : emits (fun ev => is_hook_call ev = false) (build_start h config))
          by (emits_parts ltac:(reflexivity)).
        apply H. }
    rewrite (filter_all _ _ (hook_calls_are_hooks config)), (filter_none _ _ Hrest).
    cbn [List.app]. rewrite app_nil_r.
    rewrite filter_none; [apply app_nil_r|].
    destruct (res (build_try _ _ _ _)); repeat constructor. }
  split; [exact H|]. intros Hall. rewrite H. apply hook_calls_all, Hall.
Qed.

Lemma hooks_witness :
  List.filter is_hook_call (events (build Demo.host Demo.hooked Demo.world))
  = [BeforeBuild "quiet-hook"; BeforeBuild "failing-hook"; BeforeBuild "quiet-hook"] /\
  List.filter is_hook_call
    (events (build Demo.host Demo.hooked_throwing Demo.world))
  = [BeforeBuild "quiet-hook"; BeforeBuild "throwing-hook"].
Proof.
  split.
  - apply (proj2 (every_hook_is_called_once Demo.host Demo.hooked Demo.world
                    ltac:(in_trace))).
    repeat constructor; eexists; reflexivity.
  - apply (proj1 (every_hook_is_called_once Demo.host Demo.hooked_throwing
                    Demo.world ltac:(in_trace))).
Defined.

Lemma Promise_all_rejects (l : list (Promise unit)) :
  ~ Forall (fun outcome => outcome = Ok tt) l ->
  exists e, In (Throw e) l /\ Promise_all l = Throw e.
Proof.
  induction l as [|[[]|e] l IH]; intros Hnot.
  - destruct Hnot. constructor.
  - destruct IH as (e & Hin & Hall).
    { intros H. apply Hnot. constructor; [reflexivity | exact H]. }
    exists e. split; [right; exact Hin|]. cbn [Promise_all]. rewrite Hall. reflexivity.
  - exists e. split; [left; reflexivity | reflexivity].
Qed.

(** X11: when a [beforeBuild] hook throws or returns a promise that
    rejects, the build fails with the error of one of the hooks, and after
    the calls of the hooks it does nothing but close the server: the
    bundler is not called, nothing is ingested and nothing is rendered. *)
Theorem rejecting_hook_stops_the_build h config w :
  In (Debug DServerReady) (events (build h config w)) ->
  ~ no_hook_rejects config ->
  (exists e,
      (In (Throw e) (hook_outcomes config) \/
       In (Ok (Throw e)) (hook_outcomes config)) /\
      res (build h config w) = Throw e) /\
  events (build h config w)
  = events (build_start h config w) ++ hook_calls config ++
    [Close; Debug DServerClosedDueToError].
Proof.
  intros Hready Hnot. destruct (server_ready _ _ _ Hready) as [port Hport].
  assert (Htry : forall w',
             exists e,
               (In (Throw e) (hook_outcomes config) \/
                In (Ok (Throw e)) (hook_outcomes config)) /\
               res (build_try h config port w') = Throw e /\
               events (build_try h config port w') = hook_calls config).
  { intros w'. unfold build_try. cbv zeta.
    rewrite bind_res, bind_events, hooks_trace.
    pose proof (hooks_run config w') as Hrun.
    destruct (res (mapM _ _ _)) as [hooks|e].
    - assert (Hhooks : ~ Forall (fun outcome => outcome = Ok tt) hooks).
      { intros H. apply Hnot. unfold no_hook_rejects. rewrite Hrun.
        apply Forall_map. eapply Forall_impl; [exact H|].
        intros hook ->. reflexivity. }
      destruct (Promise_all_rejects _ Hhooks) as (e & Hin & Hall).
      exists e. split.
      + right. rewrite Hrun. apply in_map, Hin.
      + rewrite bind_res, bind_events. cbn [await res events]. rewrite Hall.
        cbn [List.app]. rewrite app_nil_r. auto.
    - exists e. rewrite app_nil_r. auto. }
  destruct (Htry (world (build_start h config w))) as (e & Hin & Hres & Hev).
  split.
  - exists e. split; [exact Hin|]. rewrite (build_res _ _ _ _ Hport). exact Hres.
  - rewrite (build_events _ _ _ _ Hport), Hres, Hev. reflexivity.
Qed.

Lemma rejecting_hook_witness :
  res (build Demo.host Demo.hooked Demo.world) = Throw Demo.boom /\
  events (build Demo.host Demo.hooked Demo.world)
  = events (build_start Demo.host Demo.hooked Demo.world)
    ++ [BeforeBuild "quiet-hook"; BeforeBuild "failing-hook"; BeforeBuild "quiet-hook"]
    ++ [Close; Debug DServerClosedDueToError] /\
  res (build Demo.host Demo.hooked_throwing Demo.world) = Throw Demo.boom /\
  events (build Demo.host Demo.hooked_throwing Demo.world)
  = events (build_start Demo.host Demo.hooked_throwing Demo.world)
    ++ [BeforeBuild "quiet-hook"; BeforeBuild "throwing-hook"]
    ++ [Close; Debug DServerClosedDueToError].
Proof.
  destruct (rejecting_hook_stops_the_build Demo.host Demo.hooked Demo.world
              ltac:(in_trace)) as [(e & Hin & Hres) Hev].
  { intros H. inversion H as [|? ? _ H']. inversion H' as [|? ? H'' _].
    discriminate H''. }
  destruct (rejecting_hook_stops_the_build Demo.host Demo.hooked_throwing
              Demo.world ltac:(in_trace)) as [(e' & Hin' & Hres') Hev'].
  { intros H. inversion H as [|? ? _ H']. inversion H' as [|? ? H'' _].
    discriminate H''. }
  assert (He : e = Demo.boom).
  { destruct Hin as [Hin|Hin]; vm_compute in Hin |- *; intuition congruence. }
  assert (He' : e' = Demo.boom).
  { destruct Hin' as [Hin'|Hin']; vm_compute in Hin' |- *; intuition congruence. }
  subst e e'. auto.
Defined.

(** ** The ingestion *)

Lemma processFiles_run h config files w :
  res (mapM (fun file => call_processFile h (process_args config file)) files w)
  = Ok (process_outcomes h config files (db w)) /\
  events (mapM (fun file => call_processFile h (process_args config file)) files w)
  = process_calls files /\
  world (mapM (fun file => call_processFile h (process_args config file)) files w)
  = set_db (ingest h config files (db w)) w.
Proof.
  revert w. induction files as [|file files IH]; intros w.
  { destruct w. repeat split. }
  cbn [mapM process_outcomes process_calls map].
  rewrite bind_res, bind_events, bind_world, call_processFile_run.
  cbn [res world events].
  rewrite bind_res, bind_events, bind_world.
  destruct (IH (set_db (processFile h (process_args config file) (db w)).2 w))
    as (-> & -> & ->).
  cbn [ret res events world db set_db List.app]. rewrite app_nil_r.
  repeat split.
Qed.

(** What [getContent] does once both kinds of plugins are there. *)
Lemma getContent_run h config w :
  provides Plugin.transform config ->
  provides Plugin.collect config ->
  getContent h config w =
  let p := path_join (path config) (content config) in
  match getPath h p with
  | Throw _ =>
      mkOut (Ok tt) w [Debug DGettingContent; GetPath p; Warn (content config)]
  | Ok contentPath =>
      if truthy contentPath then
        match fault h OpDbDestroy with
        | Some e =>
            mkOut (Throw e) w
              [Debug DGettingContent; GetPath p; OneShot contentPath; DbDestroy]
        | None =>
            mkOut
              (match Promise_all
                       (process_outcomes h config (oneShot h contentPath) ∅) with
               | Ok _ => Ok tt
               | Throw e => Throw e
               end)
              (set_db (rebuilt_store h config contentPath) w)
              ([Debug DGettingContent; GetPath p; OneShot contentPath; DbDestroy]
               ++ process_calls (oneShot h contentPath))
        end
      else mkOut (Ok tt) w [Debug DGettingContent; GetPath p]
  end.
Proof.
  intros Ht Hc. unfold getContent. cbv zeta.
  rewrite (provides_filter _ _ Ht), (provides_filter _ _ Hc).
  change (fun file => call_processFile h
            {| pa_config := settings config; pa_file := file;
               pa_transformers := List.filter (fun item => has (Plugin.transform item))
                                    (plugins config);
               pa_collectors := List.filter (fun item => has (Plugin.collect item))
                                  (plugins config) |})
    with (fun file => call_processFile h (process_args config file)).
  unfold getContentPath, debug, db_destroy.
  destruct (getPath h (path_join (path config) (content config))) as [cp|e];
    [|reflexivity].
  cbn [bind try_catch emit ret await res world events List.app].
  destruct (truthy cp); [|reflexivity].
  destruct (fault h OpDbDestroy) as [e|]; [reflexivity|].
  cbn [bind emit ret await modify res world events List.app].
  destruct (processFiles_run h config (oneShot h cp) (set_db ∅ w))
    as (Hres & Hev & Hw).
  cbn [db set_db] in Hres, Hw. fold (rebuilt_store h config cp) in Hw.
  rewrite !bind_res, !bind_events, !bind_world, Hres, Hev, Hw.
  cbn [await ret res world events].
  destruct (Promise_all _); cbn [List.app]; rewrite ?app_nil_r; reflexivity.
Qed.

(** X12: with a transform and a collect plugin in place, a content folder
    that cannot be resolved is not an error: [getContent] warns about the
    folder named in the configuration and returns, without listing or
    processing any file and without touching the store; and when [getPath]
    resolves to the empty string [getContent] returns in the same way,
    without the warning. *)
Theorem missing_content_folder_is_not_an_error h config w :
  provides Plugin.transform config ->
  provides Plugin.collect config ->
  (forall e,
      getPath h (path_join (path config) (content config)) = Throw e ->
      getContent h config w =
      mkOut (Ok tt) w
        [Debug DGettingContent;
         GetPath (path_join (path config) (content config));
         Warn (content config)]) /\
  (getPath h (path_join (path config) (content config)) = Ok "" ->
   getContent h config w =
   mkOut (Ok tt) w
     [Debug DGettingContent; GetPath (path_join (path config) (content config))]).
Proof.
  intros Ht Hc. pose proof (getContent_run h config w Ht Hc) as Hrun.
  cbv zeta in Hrun. split.
  - intros e He. rewrite He in Hrun. exact Hrun.
  - intros He. rewrite He in Hrun. exact Hrun.
Qed.

Lemma missing_folder_witness :
  getContent Demo.host_without_content (Demo.site ["/"]) Demo.world
  = mkOut (Ok tt) Demo.world
      [Debug DGettingContent; GetPath "/site/content"; Warn "content"] /\
  getContent Demo.host_blank_path (Demo.site ["/"]) Demo.world
  = mkOut (Ok tt) Demo.world [Debug DGettingContent; GetPath "/site/content"].
Proof.
  assert (Ht : provides Plugin.transform (Demo.site ["/"]))
    by (apply Exists_cons_tl, Exists_cons_hd; reflexivity).
  assert (Hc : provides Plugin.collect (Demo.site ["/"]))
    by (apply Exists_cons_tl, Exists_cons_hd; reflexivity).
  split.
  - exact (proj1 (missing_content_folder_is_not_an_error
                    Demo.host_without_content (Demo.site ["/"]) Demo.world Ht Hc)
             (Error "ENOENT") eq_refl).
  - exact (proj2 (missing_content_folder_is_not_an_error
                    Demo.host_blank_path (Demo.site ["/"]) Demo.world Ht Hc)
             eq_refl).
Defined.

Lemma Promise_all_fulfils (l : list (Promise unit)) :
  (exists r, Promise_all l = Ok r) <-> Forall (fun outcome => outcome = Ok tt) l.
Proof.
  induction l as [|[[]|e] l IH]; cbn [Promise_all].
  - split; [constructor | eauto].
  - split.
    + intros [r Hr]. constructor; [reflexivity|]. apply IH.
      destruct (Promise_all l); [eauto | discriminate].
    + intros H. apply Forall_cons in H. destruct H as [_ H].
      apply IH in H. destruct H as [r ->]. eauto.
  - split; [intros [r Hr]; discriminate|].
    intros H. apply Forall_cons in H. destruct H as [H _]. discriminate.
Qed.

Lemma Promise_all_rejection (l : list (Promise unit)) e :
  Promise_all l = Throw e -> In (Throw e) l.
Proof.
  induction l as [|[[]|e'] l IH]; cbn [Promise_all]; [discriminate| |].
  - destruct (Promise_all l); [discriminate|]. intros [= <-]. right. apply IH. reflexivity.
  - intros [= <-]. left. reflexivity.
Qed.

(** X13: when the content folder is found and [db.destroy] does not fail,
    [getContent] lists the folder, empties the store and then calls
    [processFile] once for every file of the folder, in order and whatever
    the earlier calls settle with; it succeeds exactly when every call is
    fulfilled, and otherwise fails with the rejection of one of them. *)
Theorem every_content_file_is_processed h config w contentPath :
  provides Plugin.transform config ->
  provides Plugin.collect config ->
  getPath h (path_join (path config) (content config)) = Ok contentPath ->
  truthy contentPath = true ->
  fault h OpDbDestroy = None ->
  events (getContent h config w)
  = [Debug DGettingContent; GetPath (path_join (path config) (content config));
     OneShot contentPath; DbDestroy]
    ++ process_calls (oneShot h contentPath) /\
  (res (getContent h config w) = Ok tt <->
   Forall (fun outcome => outcome = Ok tt)
     (process_outcomes h config (oneShot h contentPath) ∅)) /\
  (forall e,
      res (getContent h config w) = Throw e ->
      In (Throw e) (process_outcomes h config (oneShot h contentPath) ∅)).
Proof.
  intros Ht Hc Hp Htruthy Hfault.
  rewrite (getContent_run h config w Ht Hc). cbv zeta.
  rewrite Hp, Htruthy, Hfault. cbn [res events].
  split; [reflexivity|]. split.
  - rewrite <- Promise_all_fulfils.
    destruct (Promise_all _) as [r|e]; split; eauto; try discriminate.
    intros [r Hr]. discriminate Hr.
  - intros e. destruct (Promise_all _) as [r|e'] eqn:E; [discriminate|].
    intros [= <-]. apply Promise_all_rejection, E.
Qed.

Lemma every_file_witness :
  events (getContent Demo.host_two_files (Demo.site ["/"]) Demo.world)
  = [Debug DGettingContent; GetPath "/site/content"; OneShot "/site/content";
     DbDestroy; ProcessFile "a.md"; ProcessFile "b.md"] /\
  res (getContent Demo.host_two_files (Demo.site ["/"]) Demo.world) <> Ok tt.
Proof.
  assert (Ht : provides Plugin.transform (Demo.site ["/"]))
    by (apply Exists_cons_tl, Exists_cons_hd; reflexivity).
  assert (Hc : provides Plugin.collect (Demo.site ["/"]))
    by (apply Exists_cons_tl, Exists_cons_hd; reflexivity).
  destruct (every_content_file_is_processed Demo.host_two_files (Demo.site ["/"])
              Demo.world "/site/content" Ht Hc eq_refl eq_refl eq_refl)
    as (Hev & Hres & _).
  split; [exact Hev|].
  intros H. apply Hres in H. inversion H as [|? ? H' _]. discriminate H'.
Defined.

Lemma provides_or_lacks {A} (cap : Plugin.t -> option A) config :
  provides cap config \/ lacks cap config.
Proof.
  unfold provides, lacks. induction (plugins config) as [|p ps IH].
  - right. constructor.
  - destruct (cap p) as [f|] eqn:E.
    + left. apply Exists_cons_hd. rewrite E. reflexivity.
    + destruct IH as [IH|IH]; [left; apply Exists_cons_tl, IH | right; constructor; auto].
Qed.

(** When [db.destroy] rejects, [getContent] stops there. *)
Lemma getContent_failed_destroy h config w e :
  fault h OpDbDestroy = Some e ->
  In DbDestroy (events (getContent h config w)) ->
  res (getContent h config w) = Throw e /\
  world (getContent h config w) = w /\
  forall file, ~ In (ProcessFile file) (events (getContent h config w)).
Proof.
  intros Hfault Hin.
  destruct (provides_or_lacks Plugin.transform config) as [Ht|Ht].
  2:{ rewrite (getContent_without_transform _ _ _ Ht) in Hin. exfalso.
      destruct Hin as [Hin|[]]. discriminate Hin. }
  destruct (provides_or_lacks Plugin.collect config) as [Hc|Hc].
  2:{ rewrite (getContent_without_collector _ _ _ Ht Hc) in Hin. exfalso.
      destruct Hin as [Hin|[]]. discriminate Hin. }
  rewrite (getContent_run h config w Ht Hc) in Hin |- *. cbv zeta in Hin |- *.
  destruct (getPath h _) as [cp|e'].
  - destruct (truthy cp).
    + rewrite Hfault. cbn [res world events]. repeat split.
      intros file H. repeat (destruct H as [H|H]; [discriminate H|]). exact H.
    + exfalso. cbn [events] in Hin.
      repeat (destruct Hin as [Hin|Hin]; [discriminate Hin|]). exact Hin.
  - exfalso. cbn [events] in Hin.
    repeat (destruct Hin as [Hin|Hin]; [discriminate Hin|]). exact Hin.
Qed.

Lemma stops_at_destroy_skippable e :
  SkippableW (fun w w' => db w' = db w) not_ingesting
    (fun w (o : Out unit) => stops_at_destroy e w o).
Proof.
  assert (Hnot : forall tr, Forall not_ingesting tr ->
                   ~ In DbDestroy tr /\ forall file, ~ In (ProcessFile file) tr).
  { intros tr Htr. rewrite Forall_forall in Htr. split.
    - intros Hin. apply list_elem_of_In, Htr in Hin. destruct Hin as [Hin _]. auto.
    - intros file Hin. apply list_elem_of_In, Htr in Hin. destruct Hin as [_ Hin].
      apply (Hin file). reflexivity. }
  split; unfold stops_at_destroy; cbn [res world events].
  - intros w w' e' ev _ Hev Hin. destruct (proj1 (Hnot ev Hev) Hin).
  - intros w w' o pre Hdb Hpre Ho Hin. destruct (Hnot pre Hpre) as [Hd Hp].
    apply in_app_or in Hin. destruct Hin as [Hin|Hin]; [destruct (Hd Hin)|].
    destruct (Ho Hin) as (Hres & Hfiles & Hstore).
    split; [exact Hres|]. split; [|congruence].
    intros file H. apply in_app_or in H. destruct H as [H|H];
      [exact (Hp file H) | exact (Hfiles file H)].
Qed.

Ltac not_ingesting_leaf :=
  first
    [ split; [discriminate | intros ?; discriminate]
    | by_phase; (split; [discriminate | intros ?; discriminate]) ].

Lemma build_try_destroy h config port w e :
  fault h OpDbDestroy = Some e ->
  stops_at_destroy e w (build_try h config port w).
Proof.
  intros Hfault. unfold build_try. cbv zeta.
  repeat skip_step_db (stops_at_destroy_skippable e) ltac:(not_ingesting_leaf).
  intros Hin. rewrite bind_events in Hin.
  rewrite bind_res, bind_events, bind_world.
  apply in_app_or in Hin. destruct Hin as [Hin|Hin].
  - destruct (getContent_failed_destroy _ _ _ _ Hfault Hin) as (Hres & Hw & Hfiles).
    rewrite Hres, Hw, app_nil_r. auto.
  - exfalso. destruct (res (getContent h config _)) as [[]|e']; [|destruct Hin].
    match goal with
    | Hin : In ?X (events (?m ?w')) |- _ =>
        assert (Hm : emits (fun ev => ev <> X) m)
          by (emits_parts ltac:(phase_leaf));
        exact (not_in_emitted _ m w' X Hm (fun H => H eq_refl) Hin)
    end.
Qed.

Lemma build_catch_destroy h config port w e :
  stops_at_destroy e w (build_try h config port w) ->
  stops_at_destroy e w (try_catch (build_try h config port) build_catch w).
Proof.
  unfold stops_at_destroy. intros Htry.
  rewrite try_catch_res, try_catch_events, try_catch_world.
  destruct (res (build_try h config port w)) as [[]|e'].
  - rewrite app_nil_r. exact Htry.
  - cbn [build_catch close debug emit throw bind res world events List.app].
    intros Hin. apply in_app_or in Hin. destruct Hin as [Hin|Hin].
    + destruct (Htry Hin) as (Hres & Hfiles & Hdb).
      split; [exact Hres|]. split; [|exact Hdb].
      intros file H. apply in_app_or in H. destruct H as [H|H]; [exact (Hfiles file H)|].
      repeat (destruct H as [H|H]; [discriminate H|]). exact H.
    + exfalso. repeat (destruct Hin as [Hin|Hin]; [discriminate Hin|]). exact Hin.
Qed.

Lemma getContent_listed h config w :
  In DbDestroy (events (getContent h config w)) ->
  exists contentPath, In (OneShot contentPath) (events (getContent h config w)).
Proof.
  intros Hin.
  destruct (provides_or_lacks Plugin.transform config) as [Ht|Ht].
  2:{ rewrite (getContent_without_transform _ _ _ Ht) in Hin. exfalso.
      destruct Hin as [Hin|[]]. discriminate Hin. }
  destruct (provides_or_lacks Plugin.collect config) as [Hc|Hc].
  2:{ rewrite (getContent_without_collector _ _ _ Ht Hc) in Hin. exfalso.
      destruct Hin as [Hin|[]]. discriminate Hin. }
  rewrite (getContent_run h config w Ht Hc) in Hin |- *. cbv zeta in Hin |- *.
  destruct (getPath h _) as [cp|e'].
  - destruct (truthy cp).
    + exists cp.
      destruct (fault h OpDbDestroy); cbn [events List.app];
        do 2 right; left; reflexivity.
    + exfalso. cbn [events] in Hin.
      repeat (destruct Hin as [Hin|Hin]; [discriminate Hin|]). exact Hin.
  - exfalso. cbn [events] in Hin.
    repeat (destruct Hin as [Hin|Hin]; [discriminate Hin|]). exact Hin.
Qed.

Lemma build_try_listed h config port w :
  after DbDestroy
    (fun o => exists contentPath, In (OneShot contentPath) (events o))
    (build_try h config port w).
Proof.
  unfold build_try. cbv zeta.
  assert (HS : Skippable (fun ev => ev <> DbDestroy)
                 (after DbDestroy
                    (fun o : Out unit =>
                       exists contentPath, In (OneShot contentPath) (events o)))).
  { apply after_skippable. intros o pre _ [cp H]. exists cp.
    cbn [events]. apply in_or_app. auto. }
  repeat skip_step HS ltac:(phase_leaf).
  intros Hin. rewrite bind_events in Hin |- *.
  apply in_app_or in Hin. destruct Hin as [Hin|Hin].
  - destruct (getContent_listed _ _ _ Hin) as [cp Hcp]. exists cp.
    apply in_or_app. auto.
  - exfalso. destruct (res (getContent h config _)) as [[]|e']; [|destruct Hin].
    match goal with
    | Hin : In ?X (events (?m ?w')) |- _ =>
        assert (Hm : emits (fun ev => ev <> X) m)
          by (emits_parts ltac:(phase_leaf));
        exact (not_in_emitted _ m w' X Hm (fun H => H eq_refl) Hin)
    end.
Qed.

Lemma build_destroy h config w e :
  fault h OpDbDestroy = Some e ->
  stops_at_destroy e w (build h config w).
Proof.
  intros Hfault. unfold build.
  skip_step_db (stops_at_destroy_skippable e) ltac:(not_ingesting_leaf).
  apply build_catch_destroy, build_try_destroy, Hfault.
Qed.

(** X14: when [db.destroy] rejects, the build fails with that very
    error, and [processFile] is called for no file, although the content
    folder has been listed. *)
Theorem failing_destroy_fails_the_build h config w e :
  fault h OpDbDestroy = Some e ->
  In DbDestroy (events (build h config w)) ->
  res (build h config w) = Throw e /\
  (forall file, ~ In (ProcessFile file) (events (build h config w))) /\
  exists contentPath, In (OneShot contentPath) (events (build h config w)).
Proof.
  intros Hfault Hin.
  destruct (build_destroy h config w e Hfault Hin) as (Hres & Hfiles & _).
  split; [exact Hres|]. split; [exact Hfiles|].
  apply in_build_try in Hin; [|simpl; lia]. destruct Hin as (port & Hport & Hin).
  destruct (build_try_listed _ _ _ _ Hin) as [contentPath Hlisted].
  exists contentPath. rewrite (build_events _ _ _ _ Hport).
  apply in_or_app. right. apply in_or_app. left. exact Hlisted.
Qed.

Lemma failing_destroy_witness :
  let o := build Demo.host_failing_destroy (Demo.site ["/"]) Demo.world in
  res o = Throw Demo.boom /\
  (forall file, ~ In (ProcessFile file) (events o)) /\
  exists contentPath, In (OneShot contentPath) (events o).
Proof.
  apply (failing_destroy_fails_the_build Demo.host_failing_destroy
           (Demo.site ["/"]) Demo.world Demo.boom eq_refl).
  in_trace.
Defined.

(** *** The store is rebuilt when the content folder is found (C3) *)

Lemma ingestion_outcome_skippable h config :
  Skippable before_ingestion (ingestion_outcome h config).
Proof.
  split; unfold ingestion_outcome; cbn [events].
  - intros e w ev Hev. right. exact Hev.
  - intros o pre Hpre [(pre' & w' & post & Hdone & Hpre' & Hpost & Hev)|Hall].
    + left. exists (pre ++ pre'), w', post.
      split; [apply in_or_app; auto|]. split; [|split; [exact Hpost|]].
      * apply Forall_app. split; [|exact Hpre'].
        eapply Forall_impl; [exact Hpre|]. intros ev [Hev' _]. exact Hev'.
      * rewrite Hev. apply app_assoc.
    + right. apply Forall_app. auto.
Qed.

Ltac before_ingestion_leaf :=
  first
    [ split; [split; [discriminate | intros ?; discriminate] | discriminate]
    | by_phase;
      (split; [split; [discriminate | intros ?; discriminate] | discriminate]) ].

Lemma build_try_ingestion h config port w :
  ingestion_outcome h config (build_try h config port w).
Proof.
  unfold build_try. cbv zeta.
  repeat skip_step (ingestion_outcome_skippable h config)
    ltac:(before_ingestion_leaf).
  left. rewrite bind_events. cbn [console_log emit res events world].
  rewrite bind_events.
  eexists [Console CStaticBuildDone], _, _.
  split; [left; reflexivity|].
  split; [repeat constructor; [discriminate | intros ?; discriminate]|].
  split; [|reflexivity].
  destruct (res (getContent h config _)) as [[]|e]; [|constructor].
  match goal with
  | |- Forall _ (events (?m ?w')) =>
      assert (Hm : emits not_ingesting m)
        by (emits_parts ltac:(not_ingesting_leaf));
      apply Hm
  end.
Qed.

Lemma build_ingestion h config w :
  ingestion_outcome h config (build h config w).
Proof.
  unfold build.
  skip_step (ingestion_outcome_skippable h config) ltac:(before_ingestion_leaf).
  pose proof (build_try_ingestion h config a w0) as Htry.
  unfold ingestion_outcome in *.
  rewrite try_catch_events.
  destruct Htry as [(pre & w' & post & Hdone & Hpre & Hpost & Hev)|Hall].
  - left. exists pre, w'. eexists. split; [exact Hdone|]. split; [exact Hpre|].
    split; [|rewrite Hev, <- !app_assoc; reflexivity].
    apply Forall_app. split; [exact Hpost|].
    destruct (res (build_try _ _ _ _)); [constructor|].
    cbn. repeat constructor; try discriminate; intros ?; discriminate.
  - right. apply Forall_app. split; [exact Hall|].
    destruct (res (build_try _ _ _ _)); [constructor|].
    cbn. repeat constructor; try discriminate; intros ?; discriminate.
Qed.

Lemma not_ingesting_trace tr :
  Forall not_ingesting tr ->
  ~ In DbDestroy tr /\ forall file, ~ In (ProcessFile file) tr.
Proof.
  intros Htr. rewrite Forall_forall in Htr. split.
  - intros Hin. apply list_elem_of_In, Htr in Hin. destruct Hin as [Hin _]. auto.
  - intros file Hin. apply list_elem_of_In, Htr in Hin. destruct Hin as [_ Hin].
    apply (Hin file). reflexivity.
Qed.

(** A build that has printed "static build done" has run [getContent],
    and calls [db.destroy] and [processFile] nowhere else. *)
Lemma build_ingests h config w :
  In (Console CStaticBuildDone) (events (build h config w)) \/
  In DbDestroy (events (build h config w)) ->
  exists pre w' post,
    In (Console CStaticBuildDone) pre /\
    Forall not_ingesting pre /\
    Forall not_ingesting post /\
    events (build h config w) = pre ++ events (getContent h config w') ++ post.
Proof.
  intros Hin. destruct (build_ingestion h config w) as [H|Hall]; [exact H|].
  exfalso. rewrite Forall_forall in Hall. destruct Hin as [Hin|Hin].
  - apply list_elem_of_In, Hall in Hin. destruct Hin as [_ Hin]. auto.
  - apply list_elem_of_In, Hall in Hin. destruct Hin as [[Hin _] _]. auto.
Qed.

(** [getContent] comes to [db.destroy] only with both kinds of plugins and
    with the content folder. *)
Lemma getContent_destroys h config w :
  In DbDestroy (events (getContent h config w)) ->
  provides Plugin.transform config /\
  provides Plugin.collect config /\
  exists contentPath,
    getPath h (path_join (path config) (content config)) = Ok contentPath /\
    truthy contentPath = true.
Proof.
  intros Hin.
  destruct (provides_or_lacks Plugin.transform config) as [Ht|Ht].
  2:{ rewrite (getContent_without_transform _ _ _ Ht) in Hin. exfalso.
      destruct Hin as [Hin|[]]. discriminate Hin. }
  destruct (provides_or_lacks Plugin.collect config) as [Hc|Hc].
  2:{ rewrite (getContent_without_collector _ _ _ Ht Hc) in Hin. exfalso.
      destruct Hin as [Hin|[]]. discriminate Hin. }
  split; [exact Ht|]. split; [exact Hc|].
  rewrite (getContent_run h config w Ht Hc) in Hin. cbv zeta in Hin.
  destruct (getPath h _) as [cp|e'].
  - destruct (truthy cp) eqn:Htruthy; [eauto|].
    exfalso. cbn [events] in Hin.
    repeat (destruct Hin as [Hin|Hin]; [discriminate Hin|]). exact Hin.
  - exfalso. cbn [events] in Hin.
    repeat (destruct Hin as [Hin|Hin]; [discriminate Hin|]). exact Hin.
Qed.

Lemma process_calls_not_destroy files : ~ In DbDestroy (process_calls files).
Proof.
  unfold process_calls. intros Hin. apply in_map_iff in Hin.
  destruct Hin as (file & Hfile & _). discriminate Hfile.
Qed.

(** C3 (amended): a build that has printed "static build done", so that
    it comes to the ingestion, and that has a transform and a collect
    plugin and finds the content folder, calls [db.destroy], once and before
    any call of [processFile]; when the call does not fail, the store the
    build leaves is the one rebuilt from the files of the folder, whatever
    the store held before.  [db.destroy] is called in no other build, and
    a build that does not call it leaves the store as it found it. *)
Theorem build_rebuilds_store_when_content_found h config w :
  (forall contentPath,
      In (Console CStaticBuildDone) (events (build h config w)) ->
      provides Plugin.transform config ->
      provides Plugin.collect config ->
      getPath h (path_join (path config) (content config)) = Ok contentPath ->
      truthy contentPath = true ->
      (exists tr1 tr2,
          events (build h config w) = tr1 ++ DbDestroy :: tr2 /\
          ~ In DbDestroy tr1 /\
          (forall file, ~ In (ProcessFile file) tr1) /\
          ~ In DbDestroy tr2) /\
      (fault h OpDbDestroy = None ->
       db (world (build h config w)) = rebuilt_store h config contentPath)) /\
  (In DbDestroy (events (build h config w)) ->
   In (Console CStaticBuildDone) (events (build h config w)) /\
   provides Plugin.transform config /\
   provides Plugin.collect config /\
   exists contentPath,
     getPath h (path_join (path config) (content config)) = Ok contentPath /\
     truthy contentPath = true) /\
  (~ In DbDestroy (events (build h config w)) ->
   db (world (build h config w)) = db w).
Proof.
  destruct (build_store h config w) as [Hyes Hno].
  split; [|split; [|exact Hno]].
  - intros contentPath Hdone Ht Hc Hp Htruthy.
    destruct (build_ingests h config w (or_introl Hdone))
      as (pre & w' & post & _ & Hpre & Hpost & Hev).
    destruct (not_ingesting_trace _ Hpre) as [Hpre1 Hpre2].
    destruct (not_ingesting_trace _ Hpost) as [Hpost1 _].
    rewrite (getContent_run h config w' Ht Hc) in Hev. cbv zeta in Hev.
    rewrite Hp, Htruthy in Hev.
    assert (Hsplit : exists tr1 tr2,
               events (build h config w) = tr1 ++ DbDestroy :: tr2 /\
               ~ In DbDestroy tr1 /\
               (forall file, ~ In (ProcessFile file) tr1) /\
               ~ In DbDestroy tr2).
    { exists (pre ++ [Debug DGettingContent;
                      GetPath (path_join (path config) (content config));
                      OneShot contentPath]).
      destruct (fault h OpDbDestroy) as [e|]; cbn [events List.app] in Hev.
      - exists post. rewrite Hev, <- app_assoc. split; [reflexivity|].
        split; [|split; [|exact Hpost1]].
        + intros H. apply in_app_or in H. destruct H as [H|H]; [auto|].
          repeat (destruct H as [H|H]; [discriminate H|]). exact H.
        + intros file H. apply in_app_or in H.
          destruct H as [H|H]; [exact (Hpre2 file H)|].
          repeat (destruct H as [H|H]; [discriminate H|]). exact H.
      - exists (process_calls (oneShot h contentPath) ++ post).
        rewrite Hev, <- app_assoc. split; [reflexivity|].
        split; [|split].
        + intros H. apply in_app_or in H. destruct H as [H|H]; [auto|].
          repeat (destruct H as [H|H]; [discriminate H|]). exact H.
        + intros file H. apply in_app_or in H.
          destruct H as [H|H]; [exact (Hpre2 file H)|].
          repeat (destruct H as [H|H]; [discriminate H|]). exact H.
        + intros H. apply in_app_or in H.
          destruct H as [H|H]; [exact (process_calls_not_destroy _ H) | auto]. }
    split; [exact Hsplit|]. intros Hfault.
    destruct Hsplit as (tr1 & tr2 & Heq & _).
    destruct Hyes as (contentPath' & Hp' & Hdb); [|exact Hfault|].
    + rewrite Heq. apply in_or_app. right. left. reflexivity.
    + rewrite Hp in Hp'. injection Hp' as <-. exact Hdb.
  - intros Hin.
    destruct (build_ingests h config w (or_intror Hin))
      as (pre & w' & post & Hdone & Hpre & Hpost & Hev).
    destruct (not_ingesting_trace _ Hpre) as [Hpre1 _].
    destruct (not_ingesting_trace _ Hpost) as [Hpost1 _].
    assert (Hget : In DbDestroy (events (getContent h config w'))).
    { rewrite Hev in Hin. apply in_app_or in Hin. destruct Hin as [Hin|Hin]; [tauto|].
      apply in_app_or in Hin. tauto. }
    split; [|apply (getContent_destroys _ _ _ Hget)].
    rewrite Hev. apply in_or_app. left. exact Hdone.
Qed.

Lemma build_rebuilds_store_witness :
  let o := build Demo.host (Demo.site ["/"]) Demo.world in
  (exists tr1 tr2,
      events o = tr1 ++ DbDestroy :: tr2 /\
      ~ In DbDestroy tr1 /\
      (forall file, ~ In (ProcessFile file) tr1) /\
      ~ In DbDestroy tr2) /\
  db (world o) = rebuilt_store Demo.host (Demo.site ["/"]) "/site/content" /\
  db (world o) !! "stale.md" = None /\
  db (world o) !! "a.md" = Some "A".
Proof.
  assert (Ht : provides Plugin.transform (Demo.site ["/"]))
    by (apply Exists_cons_tl, Exists_cons_hd; reflexivity).
  assert (Hc : provides Plugin.collect (Demo.site ["/"]))
    by (apply Exists_cons_tl, Exists_cons_hd; reflexivity).
  destruct (proj1 (build_rebuilds_store_when_content_found
                     Demo.host (Demo.site ["/"]) Demo.world)
              "/site/content" ltac:(in_trace) Ht Hc eq_refl eq_refl)
    as [Hcalled Hstore].
  cbv zeta. split; [exact Hcalled|]. split; [exact (Hstore eq_refl)|].
  split; vm_compute; reflexivity.
Defined.

(** ** What makes the prerendering fail *)

Section Fatal.
Variable X : Event.
Variable F : JsError -> Prop.

Lemma fatal_emits {A} (m : M A) : emits (fun ev => ev <> X) m -> fatal X F m.
Proof. intros Hm w Hin. destruct (not_in_emitted _ m w X Hm (fun H => H eq_refl) Hin). Qed.

Lemma fatal_bind {A B} (m : M A) (f : A -> M B) :
  fatal X F m -> (forall a, fatal X F (f a)) -> fatal X F (bind m f).
Proof.
  intros Hm Hf w. rewrite bind_events, bind_res. intros Hin.
  apply in_app_or in Hin. destruct Hin as [Hin|Hin].
  - destruct (Hm w Hin) as (e & -> & He). eauto.
  - destruct (res (m w)) as [a|e]; [apply Hf, Hin | destruct Hin].
Qed.

Context {Task : Type}.
Variable mapper : string -> M Task.
Variable resume : Task -> M (option Task).
Variable location_of : Task -> string.
Variable pick : nat -> nat.
Variable concurrency : nat.
Hypothesis X_started : forall location, X <> Started location.
Hypothesis X_settled : forall location fulfilled,
  X = Settled location fulfilled -> fulfilled = false /\ forall e, F e.
Hypothesis mapper_fatal : forall location, fatal X F (mapper location).
Hypothesis resume_fatal : forall t, fatal X F (resume t).

Lemma pool_start_fatal location : fatal X F (pool_start mapper location).
Proof.
  intros w. unfold pool_start. rewrite bind_events, bind_res.
  cbn [emit res events world List.app]. rewrite try_catch_events, try_catch_res.
  intros [Hin|Hin]; [destruct (X_started location); auto|].
  apply in_app_or in Hin. destruct Hin as [Hin|Hin].
  - destruct (mapper_fatal location w Hin) as (e & -> & He). cbn. eauto.
  - destruct (res (mapper location w)) as [t|e]; [destruct Hin|].
    cbn in Hin |- *. destruct Hin as [Hin|[]].
    destruct (X_settled _ _ (eq_sym Hin)) as [_ HF]. eauto.
Qed.

Lemma pool_resume_fatal t : fatal X F (pool_resume resume location_of t).
Proof.
  intros w. unfold pool_resume.
  rewrite bind_events, bind_res, try_catch_events, try_catch_res.
  pose proof (resume_fatal t w) as Hresume.
  destruct (res (resume t w)) as [[t'|]|e];
    cbn [emit bind ret throw res events world List.app];
    rewrite ?app_nil_r; intros Hin.
  - destruct (Hresume Hin) as (e & He & _). discriminate He.
  - apply in_app_or in Hin. destruct Hin as [Hin|Hin].
    + destruct (Hresume Hin) as (e & He & _). discriminate He.
    + destruct Hin as [Hin|[]].
      destruct (X_settled _ _ (eq_sym Hin)) as [Hf _]. discriminate Hf.
  - apply in_app_or in Hin. destruct Hin as [Hin|Hin].
    + destruct (Hresume Hin) as (e' & [= <-] & He). eauto.
    + destruct Hin as [Hin|[]].
      destruct (X_settled _ _ (eq_sym Hin)) as [_ HF]. eauto.
Qed.

Lemma fatal_ret {A} (a : A) : fatal X F (ret a).
Proof. intros w []. Qed.

Lemma fatal_throw {A} (e : JsError) : fatal X F (@throw A e).
Proof. intros w []. Qed.

Lemma pool_fill_fatal queue inflight :
  fatal X F (pool_fill mapper concurrency queue inflight).
Proof.
  revert inflight. induction queue as [|location rest IH]; intros inflight; simpl.
  - apply fatal_ret.
  - destruct (length inflight <? concurrency); [|apply fatal_ret].
    apply fatal_bind; [apply pool_start_fatal | intros t; apply IH].
Qed.

Lemma pool_step_fatal k queue inflight :
  fatal X F (pool_step mapper resume location_of pick concurrency k queue inflight).
Proof.
  unfold pool_step. destruct (inflight !! _); [|apply fatal_ret].
  apply fatal_bind; [apply pool_resume_fatal|].
  intros [t'|]; [apply fatal_ret | apply pool_fill_fatal].
Qed.

Lemma pMap_fatal fuel input :
  fatal X F (pMap mapper resume location_of pick concurrency fuel input).
Proof.
  unfold pMap. destruct (concurrency =? 0); [apply fatal_throw|].
  apply fatal_bind; [apply pool_fill_fatal|]. intros st.
  generalize 0 as k. generalize st.1 as queue. generalize st.2 as inflight.
  induction fuel as [|fuel IH]; intros inflight queue k;
    destruct inflight as [|t inflight]; simpl;
    try apply fatal_ret; try apply fatal_throw.
  apply fatal_bind; [apply pool_step_fatal | intros st'; apply IH].
Qed.
End Fatal.

Lemma decode_throws s e : decodeURIComponent s = Throw e -> e = URIError.
Proof.
  unfold decodeURIComponent. destruct (uri_tokens s ≫= uri_assemble); [discriminate|].
  intros [= <-]. reflexivity.
Qed.

(** The map of line 111 throws when it comes to a malformed path. *)
Lemma writes_undecodable h config files w :
  ~ Forall decodable files ->
  res (mapM (fun file =>
               decoded <- await (decodeURIComponent (file_path file)) ;;
               writeFile h (path_join (outdir config) decoded) (file_contents file))
            files w) = Throw URIError.
Proof.
  revert w. induction files as [|file files IH]; intros w Hnot.
  - destruct Hnot. constructor.
  - cbn [mapM]. rewrite bind_res, bind_res. cbn [await res world].
    destruct (decodeURIComponent (file_path file)) as [decoded|e] eqn:Hd.
    + destruct (writeFile_res h (path_join (outdir config) decoded)
                  (file_contents file) w) as [r Hr].
      rewrite Hr, bind_res, IH; [reflexivity|].
      intros H. apply Hnot. constructor; [exists decoded; exact Hd | exact H].
    + rewrite (decode_throws _ _ Hd). reflexivity.
Qed.

Lemma prerender_resume_malformed h config location files t :
  ~ Forall decodable files ->
  fatal (Debug (DCollected location files)) (fun e => e = URIError)
    (prerender_resume h config t).
Proof.
  intros Hnot w. destruct t as [location' [files'|e]|location' written];
    cbn [prerender_resume].
  - rewrite bind_events, bind_res. cbn [await res events world List.app].
    rewrite bind_events, bind_res. cbn [debug emit res events world List.app].
    rewrite bind_events, bind_res, write_calls_run.
    intros [[= <- <-]|Hin].
    + rewrite (writes_undecodable _ _ _ _ Hnot). eauto.
    + exfalso. apply in_app_or in Hin. destruct Hin as [Hin|Hin].
      * destruct (write_calls_not_collected _ _ _ Hin) as (p & contents & H).
        discriminate H.
      * destruct (res (mapM _ _ _)); destruct Hin.
  - intros [].
  - rewrite bind_events. cbn [await res events world List.app].
    destruct written; intros [].
Qed.

Lemma fanout_malformed h config app assets phenomicFetch urls location files :
  ~ Forall decodable files ->
  fatal (Debug (DCollected location files)) (fun e => e = URIError)
    (fanout h config app assets phenomicFetch urls).
Proof.
  intros Hnot. unfold fanout. apply pMap_fatal.
  - intros loc. discriminate.
  - intros loc fulfilled H. discriminate H.
  - intros loc. apply fatal_emits.
    unfold prerenderFileAndDependencies, capability, debug.
    emits_tac; discriminate.
  - intros t. apply prerender_resume_malformed, Hnot.
Qed.

Lemma fanout_rejection h config app assets phenomicFetch urls location :
  fatal (Settled location false) (fun _ => True)
    (fanout h config app assets phenomicFetch urls).
Proof.
  unfold fanout. apply pMap_fatal.
  - intros loc. discriminate.
  - intros loc fulfilled [= _ <-]. auto.
  - intros loc. apply fatal_emits.
    eapply emits_weaken; [|apply prerender_start_neutral].
    intros ev Hev ->. exact Hev.
  - intros t. apply fatal_emits.
    eapply emits_weaken; [|apply prerender_resume_neutral].
    intros ev Hev ->. exact Hev.
Qed.

(** X16: when a call of the prerender fan-out settles with a rejection,
    the build fails. *)
Theorem rejected_prerender_fails_the_build h config w location :
  In (Settled location false) (events (build h config w)) ->
  exists e, res (build h config w) = Throw e.
Proof.
  intros Hin.
  destruct (prerender_event_in_fanout _ _ _ _ Hin eq_refl ltac:(discriminate))
    as (port & assets & app & urls & w' & _ & _ & _ & Hres & Hfan).
  rewrite Hres.
  destruct (fanout_rejection h config app assets (fetch_at port) urls
              location w' Hfan) as (e & He & _).
  eauto.
Qed.

Lemma rejected_prerender_witness :
  exists e,
    res (build Demo.host
           (Demo.config_of "dist"
              [Demo.bundler; Demo.markdown; Demo.routes_only; Demo.resolver ["/"]])
           Demo.world)
    = Throw e.
Proof.
  apply (rejected_prerender_fails_the_build Demo.host _ Demo.world "/"). in_trace.
Defined.

(** ** A phase is entered once the earlier ones are complete *)

Lemma passed_skippable {B} (X : Event) :
  Skippable (fun ev => rank (phase_of ev) <= rank (phase_of X) /\ ev <> X)
    (@passed B X).
Proof.
  split; unfold passed; cbn [events].
  - intros _ _ tr Htr ev Hin Hrank. exfalso.
    rewrite Forall_forall in Htr. apply list_elem_of_In, Htr in Hin. lia.
  - intros o pre Hpre Ho ev Hin Hrank. apply in_or_app. right.
    apply in_app_or in Hin. destruct Hin as [Hin|Hin]; [|eapply Ho; eauto].
    exfalso. rewrite Forall_forall in Hpre. apply list_elem_of_In, Hpre in Hin. lia.
Qed.

Ltac passed_leaf :=
  first
    [ split; [simpl; lia | discriminate]
    | by_phase; (split; [simpl; lia | discriminate]) ].

(** Runs the [try] block up to the line [X] of it. *)
Ltac passed_chain X :=
  unfold build_try; cbv zeta;
  repeat skip_step (@passed_skippable unit X) ltac:(passed_leaf);
  intros ? _ _; rewrite bind_events; left; reflexivity.

Lemma build_try_passed h config port w ph X :
  completion ph = Some X ->
  ph <> ServerStarting ->
  passed X (build_try h config port w).
Proof.
  intros HX Hph.
  destruct ph; try discriminate HX; try (destruct Hph; reflexivity);
    injection HX as <-.
  - passed_chain (Console CClientBuildDone).
  - passed_chain (Console CStaticBuildDone).
  - passed_chain (Console CContentProcessed).
  - passed_chain (Debug DUrlsResolved).
Qed.

Lemma build_start_ready_in h config w port :
  res (build_start h config w) = Ok port ->
  In (Debug DServerReady) (events (build_start h config w)).
Proof.
  unfold build_start, rimraf_sync, createServer, listen, guard, console_log,
    debug, env_default, env_set.
  destruct (fault h (OpRimraf "dist")); [discriminate|].
  destruct (fault h OpCreateServer); [discriminate|].
  destruct (getPort h) as [p|]; [|discriminate].
  destruct (fault h (OpListen p)) eqn:E; cbn; rewrite E; cbn; [discriminate|].
  intros _. auto 10.
Qed.

(** X17: no phase of the [try] block is entered before the phases
    before it are complete: an event of the hooks or of a later phase up to
    the prerendering is only seen in a build that has printed the line that
    ends each earlier phase (server ready, client build done, static build
    done, content processed, URLs resolved). *)
Theorem earlier_phases_are_complete h config w ev ph X :
  In ev (events (build h config w)) ->
  phase_of ev <> ServerClosing ->
  completion ph = Some X ->
  rank ph < rank (phase_of ev) ->
  In X (events (build h config w)).
Proof.
  intros Hin Hclosing HX Hrank.
  assert (Hph : phase_of X = ph).
  { destruct ph; try discriminate HX; injection HX as <-; reflexivity. }
  assert (Hev : rank BeforeBuildHooks <= rank (phase_of ev) <= rank Prerendering).
  { split.
    - destruct ph; try discriminate HX; simpl in Hrank |- *; lia.
    - destruct (phase_of ev); simpl; try lia. destruct Hclosing. reflexivity. }
  apply in_build_try in Hin; [|exact Hev]. destruct Hin as (port & Hport & Hin).
  rewrite (build_events _ _ _ _ Hport).
  destruct (Phase_eq_dec ph ServerStarting) as [->|Hne].
  - injection HX as <-. apply in_or_app. left.
    apply (build_start_ready_in _ _ _ _ Hport).
  - apply in_or_app. right. apply in_or_app. left.
    apply (build_try_passed h config port _ ph X HX Hne ev Hin).
    rewrite Hph. exact Hrank.
Qed.

Lemma earlier_phases_witness :
  In (Console CContentProcessed)
     (events (build Demo.host (Demo.site ["index"]) Demo.world)).
Proof.
  apply (earlier_phases_are_complete Demo.host (Demo.site ["index"]) Demo.world
           (WriteFile "dist/index.html" "<html>") Ingesting).
  - in_trace.
  - discriminate.
  - reflexivity.
  - simpl. lia.
Defined.

(** ** Success *)

Lemma shows_skippable {B} (X : Event) :
  Skippable (fun ev => ev <> X) (@shows_on_success B X).
Proof.
  split; unfold shows_on_success; cbn [res events].
  - intros e _ ev _ [a H]. discriminate H.
  - intros o pre _ Ho Hres. apply in_or_app. right. apply Ho, Hres.
Qed.

Lemma fanout_prints_nothing h config renderer app assets phenomicFetch fuel urls :
  emits (fun ev => forall m, ev <> Console m)
    (pMap (fun location =>
             prerenderFileAndDependencies config renderer app assets
               phenomicFetch location)
          (prerender_resume h config) prerender_location (settles h)
          50 fuel urls).
Proof.
  apply pMap_emits.
  - intros location m. discriminate.
  - intros location fulfilled m. discriminate.
  - intros location. unfold prerenderFileAndDependencies, capability, debug.
    emits_tac; intros m; discriminate.
  - intros t. unfold prerender_resume, writeFile, debug.
    emits_tac; intros m; discriminate.
Qed.

(** Skips the fan-out in a run of the [try] block. *)
Ltac skip_fanout HS :=
  lazymatch goal with
  | |- ?Q (bind ?m ?f ?w') =>
      apply (bind_skip _ Q m f w' HS);
      [ let H := fresh in
        pose proof (fanout_prints_nothing) as H;
        eapply Forall_impl; [apply H|];
        let ev := fresh in let Hev := fresh in
        intros ev Hev; cbv beta; apply Hev
      | intros ? _; cbv beta ]
  end.

Lemma build_try_finishes h config port w :
  shows_on_success (Console CPrerenderingFinished) (build_try h config port w).
Proof.
  unfold build_try. cbv zeta.
  repeat skip_step (@shows_skippable unit (Console CPrerenderingFinished))
    ltac:(phase_leaf).
  skip_fanout (@shows_skippable unit (Console CPrerenderingFinished)).
  intros _. rewrite bind_events. left. reflexivity.
Qed.

Lemma build_try_finished h config port w :
  after (Console CPrerenderingFinished) (fun o => res o = Ok tt)
    (build_try h config port w).
Proof.
  unfold build_try. cbv zeta.
  assert (HS : Skippable (fun ev => ev <> Console CPrerenderingFinished)
                 (after (Console CPrerenderingFinished)
                    (fun o : Out unit => res o = Ok tt))).
  { apply after_skippable. intros o pre _ H. exact H. }
  repeat skip_step HS ltac:(phase_leaf).
  skip_fanout HS.
  intros _. reflexivity.
Qed.

(** X18: a build succeeds exactly when it prints that the prerendering
    has finished. *)
Theorem build_succeeds_iff_prerendering_finished h config w :
  res (build h config w) = Ok tt <->
  In (Console CPrerenderingFinished) (events (build h config w)).
Proof.
  split.
  - intros Hres. destruct (res (build_start h config w)) as [port|e] eqn:Hport.
    + rewrite (build_res _ _ _ _ Hport) in Hres. rewrite (build_events _ _ _ _ Hport).
      apply in_or_app. right. apply in_or_app. left.
      apply build_try_finishes. eauto.
    + rewrite (build_events_failed_start _ _ _ _ Hport) in Hres. discriminate Hres.
  - intros Hin. apply in_build_try in Hin; [|simpl; lia].
    destruct Hin as (port & Hport & Hin).
    rewrite (build_res _ _ _ _ Hport). apply (build_try_finished _ _ _ _ Hin).
Qed.

Lemma success_witness :
  res (build Demo.host (Demo.site ["index"]) Demo.world) = Ok tt.
Proof.
  apply (proj2 (build_succeeds_iff_prerendering_finished
                  Demo.host (Demo.site ["index"]) Demo.world)).
  in_trace.
Defined.

(** ** The files of a page are written in one go *)

Lemma writes_at_once_closed out : Closed (writes_at_once out).
Proof.
  split; unfold writes_at_once.
  - intros tr1 tr2 location files H. destruct tr1; discriminate H.
  - intros t1 t2 H1 H2 tr1 tr2 location files Heq.
    apply app_eq_app in Heq. destruct Heq as [l [[-> Heq]|[-> ->]]].
    + destruct l as [|ev l].
      * cbn [List.app] in Heq. apply (H2 [] tr2 location files). symmetry. exact Heq.
      * injection Heq as <- ->.
        destruct (H1 tr1 l location files eq_refl) as [tr3 ->].
        exists (tr3 ++ t2). symmetry. apply app_assoc.
    + apply (H2 l tr2 location files eq_refl).
Qed.

Lemma writes_at_once_other out ev :
  (forall location files, ev <> Debug (DCollected location files)) ->
  writes_at_once out [ev].
Proof.
  intros H tr1 tr2 location files Heq. exfalso.
  destruct tr1 as [|ev' tr1]; [injection Heq as ->; exact (H _ _ eq_refl)|].
  injection Heq as _ Heq. destruct tr1; discriminate Heq.
Qed.

Lemma prerender_resume_at_once h config t :
  traces (writes_at_once (outdir config)) (prerender_resume h config t).
Proof.
  intros w. destruct t as [location [files|e]|location written].
  - unfold prerender_resume. rewrite bind_events. cbn [await res events world List.app].
    rewrite bind_events. cbn [debug emit res events world List.app].
    rewrite bind_events, write_calls_run.
    match goal with
    | |- writes_at_once _ (_ :: _ ++ ?tail) =>
        assert (Hnil : tail = []) by (destruct (res (mapM _ _ _)); reflexivity)
    end.
    rewrite Hnil, app_nil_r. clear Hnil.
    intros tr1 tr2 location' files' Heq.
    destruct tr1 as [|ev tr1].
    + injection Heq as <- <- <-. exists []. symmetry. apply app_nil_r.
    + exfalso. injection Heq as _ Heq.
      assert (Hin : In (Debug (DCollected location' files'))
                      (write_calls (outdir config) files)).
      { rewrite Heq. apply in_or_app. right. left. reflexivity. }
      destruct (write_calls_not_collected _ _ _ Hin) as (p & contents & H).
      discriminate H.
  - intros tr1 tr2 location' files' Heq. destruct tr1; discriminate Heq.
  - unfold prerender_resume. rewrite bind_events. cbn [await res events world List.app].
    destruct written; intros tr1 tr2 location' files' Heq;
      destruct tr1; discriminate Heq.
Qed.

Ltac at_once_leaf :=
  apply writes_at_once_other; intros ? ?; discriminate.

Lemma build_writes_at_once h config :
  traces (writes_at_once (outdir config)) (build h config).
Proof.
  pose proof (writes_at_once_closed (outdir config)) as Hc.
  unfold build, build_try, build_catch, build_start, getContent, getContentPath,
    db_destroy, call_processFile, rimraf_sync, env_default, env_set,
    createServer, listen, close, createFetchFunction, call_beforeBuild,
    console_log, debug, guard.
  cbv zeta.
  repeat first
    [ apply (pMap_traces _ Hc);
      [ intros ?; at_once_leaf | intros ? ?; at_once_leaf
      | intros ?; unfold prerenderFileAndDependencies, debug
      | intros ?; apply prerender_resume_at_once ]
    | apply (traces_mapM _ Hc); intros ?
    | apply traces_emit; at_once_leaf
    | apply (traces_bind _ Hc); [|intros ?]
    | apply (traces_try_catch _ Hc); [|intros ?]
    | apply (traces_silent _ Hc); intros ?; reflexivity
    | match goal with
      | |- traces _ (capability ?p _ _) => unfold capability
      | |- traces _ (match ?x with _ => _ end) => destruct x
      | |- traces _ (if ?x then _ else _) => destruct x
      | |- traces _ (let '(_, _) := ?x in _) => destruct x
      end ].
Qed.

(** X19: once [renderStatic] has returned the files of a location, the
    calls of [writeFile] for them are made at once and in the order of the
    files, up to the first malformed path: nothing else happens between the
    debug line of line 109 and the last of these calls, so the writes of one
    page are never interleaved with the rendering of another. *)
Theorem files_of_a_page_are_written_at_once h config w tr1 tr2 location files :
  events (build h config w) = tr1 ++ Debug (DCollected location files) :: tr2 ->
  exists tr3, tr2 = write_calls (outdir config) files ++ tr3.
Proof.
  intros Hev. exact (build_writes_at_once h config w tr1 tr2 location files Hev).
Qed.

Lemma at_once_witness :
  let tr := events (build Demo.host (Demo.site ["index"]) Demo.world) in
  exists tr3,
    drop 29 tr = write_calls "dist" [Demo.page "index"] ++ tr3.
Proof.
  cbv zeta.
  apply (files_of_a_page_are_written_at_once Demo.host (Demo.site ["index"])
           Demo.world
           (take 28 (events (build Demo.host (Demo.site ["index"]) Demo.world)))
           (drop 29 (events (build Demo.host (Demo.site ["index"]) Demo.world)))
           "index" [Demo.page "index"]).
  vm_compute. reflexivity.
Defined.

(** *** The writes of a page, and where they stop (C7) *)

Section TracesOfCalls.
Variable Q : list Event -> Prop.
Hypothesis Q_closed : Closed Q.
Context {Task : Type}.
Variable mapper : string -> M Task.
Variable resume : Task -> M (option Task).
Variable location_of : Task -> string.
Variable pick : nat -> nat.
Variable concurrency : nat.
Hypothesis Q_start : forall location, traces Q (pool_start mapper location).
Hypothesis Q_resume : forall t, traces Q (pool_resume resume location_of t).

Lemma pool_fill_calls queue inflight :
  traces Q (pool_fill mapper concurrency queue inflight).
Proof.
  revert inflight. induction queue as [|location rest IH]; intros inflight; simpl.
  - apply traces_silent; [exact Q_closed | reflexivity].
  - destruct (length inflight <? concurrency);
      [|apply traces_silent; [exact Q_closed | reflexivity]].
    apply traces_bind; [exact Q_closed | apply Q_start | intros t; apply IH].
Qed.

Lemma pool_step_calls k queue inflight :
  traces Q (pool_step mapper resume location_of pick concurrency k queue inflight).
Proof.
  unfold pool_step.
  destruct (inflight !! _); [|apply traces_silent; [exact Q_closed | reflexivity]].
  apply traces_bind; [exact Q_closed | apply Q_resume |].
  intros [t'|]; [apply traces_silent; [exact Q_closed | reflexivity]
                | apply pool_fill_calls].
Qed.

(** A property of traces that holds of each call of the pool, from one
    await to its next or to its settlement, holds of the pool. *)
Lemma pMap_calls fuel input :
  traces Q (pMap mapper resume location_of pick concurrency fuel input).
Proof.
  unfold pMap.
  destruct (concurrency =? 0); [apply traces_silent; [exact Q_closed | reflexivity]|].
  apply traces_bind; [exact Q_closed | apply pool_fill_calls|]. intros st.
  generalize 0 as k. generalize st.1 as queue. generalize st.2 as inflight.
  induction fuel as [|fuel IH]; intros inflight queue k;
    destruct inflight as [|t inflight]; simpl;
    try (apply traces_silent; [exact Q_closed | reflexivity]).
  apply traces_bind; [exact Q_closed | apply pool_step_calls | intros st'; apply IH].
Qed.
End TracesOfCalls.

Lemma writes_stop_closed out : Closed (writes_stop out).
Proof.
  split; unfold writes_stop.
  - intros tr1 tr2 location files H. destruct tr1; discriminate H.
  - intros t1 t2 H1 H2 tr1 tr2 location files Heq.
    apply app_eq_app in Heq. destruct Heq as [l [[-> Heq]|[-> ->]]].
    + destruct l as [|ev l].
      * cbn [List.app] in Heq. apply (H2 [] tr2 location files). symmetry. exact Heq.
      * injection Heq as <- ->.
        destruct (H1 tr1 l location files eq_refl) as (tr3 & -> & Hstop).
        exists (tr3 ++ t2). split; [symmetry; apply app_assoc|].
        intros Hnot. destruct (Hstop Hnot) as [tr4 ->]. eauto.
    + apply (H2 l tr2 location files eq_refl).
Qed.

Lemma writes_stop_without out tr :
  (forall location files, ~ In (Debug (DCollected location files)) tr) ->
  writes_stop out tr.
Proof.
  intros H tr1 tr2 location files Heq. exfalso. apply (H location files).
  rewrite Heq. apply in_or_app. right. left. reflexivity.
Qed.

Lemma writes_stop_other out ev :
  (forall location files, ev <> Debug (DCollected location files)) ->
  writes_stop out [ev].
Proof.
  intros H. apply writes_stop_without. intros location files [Hin|[]].
  exact (H _ _ Hin).
Qed.

Lemma prerender_start_stop config renderer app assets phenomicFetch location :
  traces (writes_stop (outdir config))
    (pool_start
       (fun location =>
          prerenderFileAndDependencies config renderer app assets phenomicFetch
            location)
       location).
Proof.
  intros w. apply writes_stop_without. intros location' files' Hin.
  assert (Hm : emits (fun ev => ev <> Debug (DCollected location' files'))
                 (pool_start
                    (fun location =>
                       prerenderFileAndDependencies config renderer app assets
                         phenomicFetch location)
                    location)).
  { unfold pool_start, prerenderFileAndDependencies, capability, debug.
    emits_tac; discriminate. }
  exact (not_in_emitted _ _ w _ Hm (fun H => H eq_refl) Hin).
Qed.

Lemma pool_resume_events {Task} (resume : Task -> M (option Task))
    (location_of : Task -> string) t w :
  events (pool_resume resume location_of t w)
  = events (resume t w) ++
    match res (resume t w) with
    | Ok (Some _) => []
    | Ok None => [Settled (location_of t) true]
    | Throw _ => [Settled (location_of t) false]
    end.
Proof.
  unfold pool_resume. rewrite bind_events, try_catch_events, try_catch_res.
  destruct (res (resume t w)) as [[t'|]|e];
    cbn [emit bind ret throw res events world List.app];
    rewrite ?app_nil_r; reflexivity.
Qed.

Lemma writes_stop_block out location files tail :
  (forall location' files', ~ In (Debug (DCollected location' files')) tail) ->
  (~ Forall decodable files -> exists tr4, tail = Settled location false :: tr4) ->
  writes_stop out (Debug (DCollected location files) :: write_calls out files ++ tail).
Proof.
  intros Htail Hstop tr1 tr2 location' files' Heq.
  destruct tr1 as [|ev tr1].
  - injection Heq as <- <- <-. exists tail. auto.
  - exfalso. injection Heq as _ Heq.
    assert (Hin : In (Debug (DCollected location' files'))
                    (write_calls out files ++ tail))
      by (rewrite Heq; apply in_or_app; right; left; reflexivity).
    apply in_app_or in Hin. destruct Hin as [Hin|Hin]; [|exact (Htail _ _ Hin)].
    destruct (write_calls_not_collected _ _ _ Hin) as (p & contents & H).
    discriminate H.
Qed.

Lemma prerender_resume_stop h config t :
  traces (writes_stop (outdir config))
    (pool_resume (prerender_resume h config) prerender_location t).
Proof.
  intros w. rewrite pool_resume_events.
  destruct t as [location [files|e]|location written].
  - unfold prerender_resume.
    rewrite ?bind_events, ?bind_res. cbn [await res events world List.app].
    rewrite ?bind_events, ?bind_res. cbn [debug emit res events world List.app].
    rewrite ?bind_events, ?bind_res, write_calls_run.
    pose proof (writes_undecodable h config files w) as Hthrows.
    destruct (res (mapM _ files w)) as [writes|e] eqn:Hmap;
      cbn [ret res events world List.app prerender_location];
      rewrite ?app_nil_r.
    + rewrite <- (app_nil_r (write_calls _ _)). apply writes_stop_block.
      * intros location' files' [].
      * intros Hnot. discriminate (Hthrows Hnot).
    + change (writes_stop (outdir config)
                (Debug (DCollected location files)
                 :: write_calls (outdir config) files ++ [Settled location false])).
      apply writes_stop_block.
      * intros location' files' [Hin|[]]. discriminate Hin.
      * eauto.
  - cbn. apply writes_stop_without. intros location' files' Hin.
    repeat (destruct Hin as [Hin|Hin]; [discriminate Hin|]). exact Hin.
  - cbn [prerender_resume]. rewrite bind_events, bind_res.
    cbn [await res events world List.app].
    apply writes_stop_without. intros location' files' Hin.
    destruct written; cbn in Hin;
      repeat (destruct Hin as [Hin|Hin]; [discriminate Hin|]); exact Hin.
Qed.

Ltac stop_leaf :=
  apply writes_stop_other; intros ? ?; discriminate.

Lemma build_writes_stop h config :
  traces (writes_stop (outdir config)) (build h config).
Proof.
  pose proof (writes_stop_closed (outdir config)) as Hc.
  unfold build, build_try, build_catch, build_start, getContent, getContentPath,
    db_destroy, call_processFile, rimraf_sync, env_default, env_set,
    createServer, listen, close, createFetchFunction, call_beforeBuild,
    console_log, debug, guard.
  cbv zeta.
  repeat first
    [ apply (pMap_calls _ Hc);
      [ intros ?; apply prerender_start_stop
      | intros ?; apply prerender_resume_stop ]
    | apply (traces_mapM _ Hc); intros ?
    | apply traces_emit; stop_leaf
    | apply (traces_bind _ Hc); [|intros ?]
    | apply (traces_try_catch _ Hc); [|intros ?]
    | apply (traces_silent _ Hc); intros ?; reflexivity
    | match goal with
      | |- traces _ (capability ?p _ _) => unfold capability
      | |- traces _ (match ?x with _ => _ end) => destruct x
      | |- traces _ (if ?x then _ else _) => destruct x
      | |- traces _ (let '(_, _) := ?x in _) => destruct x
      end ].
Qed.

(** The calls of line 112 are the writes of the files that come before
    the first malformed path. *)
Lemma write_calls_split out files :
  exists written rest,
    files = written ++ rest /\
    Forall2 (write_of out) written (write_calls out files) /\
    match rest with
    | [] => True
    | file :: _ => ~ decodable file
    end.
Proof.
  induction files as [|file files (written & rest & Heq & Hcalls & Hrest)].
  - exists [], []. repeat split. constructor.
  - cbn [write_calls].
    destruct (decodeURIComponent (file_path file)) as [decoded|e] eqn:Hd.
    + exists (file :: written), rest. split; [rewrite Heq; reflexivity|].
      split; [|exact Hrest]. constructor; [|exact Hcalls].
      exists decoded. auto.
    + exists [], (file :: files). repeat split; [constructor|].
      intros [decoded Hdecoded]. congruence.
Qed.

(** A build that has collected files with a malformed path fails. *)
Lemma build_fails_at_malformed_path h config w location files :
  In (Debug (DCollected location files)) (events (build h config w)) ->
  ~ Forall decodable files ->
  exists e, res (build h config w) = Throw e.
Proof.
  intros Hin Hnot.
  destruct (prerender_event_in_fanout _ _ _ _ Hin eq_refl ltac:(discriminate))
    as (port & assets & app & urls & w' & _ & _ & _ & Hres & Hfan).
  rewrite Hres.
  destruct (fanout_malformed h config app assets (fetch_at port) urls
              location files Hnot w' Hfan) as (e & He & _).
  eauto.
Qed.

(** C7 (amended): wherever a build shows that [renderStatic] has returned
    [files] for a location (the debug line of line 109), the calls that
    follow at once are the calls of [writeFile] for the files, in their
    order, each with the contents of its file and at the percent-decoded
    path of the file joined to the output directory, up to the first file
    whose path is not a well-formed percent-encoding.  When there is such a
    file, neither it nor the files after it are written: the prerender call
    rejects right after the writes of the files before it, and the build
    fails.  When there is none, every file is written. *)
Theorem files_written_at_decoded_path h config w tr1 tr2 location files :
  events (build h config w) = tr1 ++ Debug (DCollected location files) :: tr2 ->
  exists written rest calls tr3,
    files = written ++ rest /\
    Forall2 (write_of (outdir config)) written calls /\
    tr2 = calls ++ tr3 /\
    match rest with
    | [] => True
    | file :: _ =>
        ~ decodable file /\
        (exists tr4, tr3 = Settled location false :: tr4) /\
        exists e, res (build h config w) = Throw e
    end.
Proof.
  intros Hev.
  destruct (build_writes_stop h config w tr1 tr2 location files Hev)
    as (tr3 & Htr2 & Hstop).
  destruct (write_calls_split (outdir config) files)
    as (written & rest & Hfiles & Hcalls & Hrest).
  exists written, rest, (write_calls (outdir config) files), tr3.
  split; [exact Hfiles|]. split; [exact Hcalls|]. split; [exact Htr2|].
  destruct rest as [|file rest]; [exact I|].
  assert (Hnot : ~ Forall decodable files).
  { intros Hall. apply Hrest. rewrite Hfiles in Hall.
    apply Forall_app in Hall. destruct Hall as [_ Hall].
    apply Forall_cons in Hall. tauto. }
  split; [exact Hrest|]. split; [exact (Hstop Hnot)|].
  apply (build_fails_at_malformed_path h config w location files); [|exact Hnot].
  rewrite Hev. apply in_or_app. right. left. reflexivity.
Qed.

Lemma percent_decoding_witness :
  let config :=
    Demo.config_of "outdir"
      [Demo.bundler; Demo.markdown; Demo.renderer; Demo.resolver ["a%20b"]] in
  let tr := events (build Demo.host config Demo.world) in
  tr !! 28 = Some (Debug (DCollected "a%20b" [Demo.page "a%20b"])) /\
  exists tr3, drop 29 tr = WriteFile "outdir/a b.html" "<html>" :: tr3.
Proof.
  cbv zeta. split; [vm_compute; reflexivity|].
  destruct (files_written_at_decoded_path Demo.host
              (Demo.config_of "outdir"
                 [Demo.bundler; Demo.markdown; Demo.renderer;
                  Demo.resolver ["a%20b"]])
              Demo.world
              (take 28 (events (build Demo.host
                                  (Demo.config_of "outdir"
                                     [Demo.bundler; Demo.markdown; Demo.renderer;
                                      Demo.resolver ["a%20b"]])
                                  Demo.world)))
              (drop 29 (events (build Demo.host
                                  (Demo.config_of "outdir"
                                     [Demo.bundler; Demo.markdown; Demo.renderer;
                                      Demo.resolver ["a%20b"]])
                                  Demo.world)))
              "a%20b" [Demo.page "a%20b"])
    as (written & rest & calls & tr3 & Hfiles & Hcalls & Htr2 & Hrest).
  { vm_compute. reflexivity. }
  destruct written as [|file written].
  - exfalso. cbn [List.app] in Hfiles. subst rest. apply Hrest.
    exists "a b.html". reflexivity.
  - injection Hfiles as <- Hfiles.
    inversion Hcalls as [|? ev ? calls' (decoded & Hd & Hev) Hcalls']. subst.
    vm_compute in Hd. injection Hd as <-.
    rewrite Htr2. eexists. reflexivity.
Defined.

(** ** A failed write is not ignored *)

Section PoolDoomed.
Context {Task : Type}.
Variable mapper : string -> M Task.
Variable resume : Task -> M (option Task).
Variable location_of : Task -> string.
Variable pick : nat -> nat.
Variable concurrency : nat.
Variable X : Event.
Variable doomed : Task -> Prop.
Hypothesis doomed_dec : forall t, {doomed t} + {~ doomed t}.
Hypothesis X_started : forall location, X <> Started location.
Hypothesis X_settled : forall location fulfilled, X <> Settled location fulfilled.
Hypothesis mapper_clean : forall location w,
  ~ In X (events (mapper location w)) /\
  forall t, res (mapper location w) = Ok t -> ~ doomed t.
Hypothesis resume_doomed : forall t w,
  doomed t -> exists e, res (resume t w) = Throw e.
Hypothesis resume_clean : forall t w,
  ~ doomed t ->
  In X (events (resume t w)) ->
  (exists e, res (resume t w) = Throw e) \/
  (exists t', res (resume t w) = Ok (Some t') /\ doomed t').

Lemma pool_start_clean location w :
  ~ In X (events (pool_start mapper location w)) /\
  forall t, res (pool_start mapper location w) = Ok t -> ~ doomed t.
Proof.
  destruct (mapper_clean location w) as [Hev Ht].
  unfold pool_start. rewrite bind_events, bind_res.
  cbn [emit res events world List.app]. rewrite try_catch_events, try_catch_res.
  destruct (res (mapper location w)) as [t|e].
  - rewrite app_nil_r. split; [|exact Ht].
    intros [H|H]; [exact (X_started _ (eq_sym H)) | exact (Hev H)].
  - split; [|discriminate]. cbn. intros [H|H]; [exact (X_started _ (eq_sym H))|].
    apply in_app_or in H. destruct H as [H|[H|[]]];
      [exact (Hev H) | exact (X_settled _ _ (eq_sym H))].
Qed.

Lemma pool_fill_clean queue inflight w :
  ~ In X (events (pool_fill mapper concurrency queue inflight w)) /\
  forall st,
    res (pool_fill mapper concurrency queue inflight w) = Ok st ->
    (Exists doomed inflight -> Exists doomed st.2) /\
    (Forall (fun t => ~ doomed t) inflight -> Forall (fun t => ~ doomed t) st.2).
Proof.
  revert inflight w. induction queue as [|location rest IH]; intros inflight w;
    cbn [pool_fill].
  - split; [intros []|]. intros st [= <-]. auto.
  - destruct (length inflight <? concurrency).
    + rewrite bind_events, bind_res.
      destruct (pool_start_clean location w) as [Hev Ht].
      destruct (res (pool_start mapper location w)) as [t|e].
      * destruct (IH (inflight ++ [t]) (world (pool_start mapper location w)))
          as [Hev' Hst].
        split; [intros H; apply in_app_or in H; tauto|].
        intros st Hres. destruct (Hst st Hres) as [Hyes Hno]. split.
        -- intros H. apply Hyes, Exists_app. auto.
        -- intros H. apply Hno, Forall_app. split; [exact H|].
           repeat constructor. apply Ht. reflexivity.
      * rewrite app_nil_r. split; [exact Hev | discriminate].
    + split; [intros []|]. intros st [= <-]. auto.
Qed.

Lemma doomed_elsewhere (l1 l2 : list Task) t :
  Exists doomed (l1 ++ t :: l2) -> ~ doomed t -> Exists doomed (l1 ++ l2).
Proof.
  intros H Ht. apply Exists_app in H. apply Exists_app.
  destruct H as [H|H]; [auto|]. apply Exists_cons in H. tauto.
Qed.

(** A step of the pool keeps a doomed call in flight, and when it shows
    [X] it leaves a doomed call in flight. *)
Lemma pool_step_clean k queue inflight w :
  match res (pool_step mapper resume location_of pick concurrency k queue inflight w) with
  | Ok st =>
      (Exists doomed inflight -> Exists doomed st.2) /\
      (Forall (fun t => ~ doomed t) inflight ->
       In X (events (pool_step mapper resume location_of pick concurrency k
                       queue inflight w)) ->
       Exists doomed st.2)
  | Throw _ => True
  end.
Proof.
  unfold pool_step.
  destruct (inflight !! (pick k mod length inflight)) as [t|] eqn:Hlookup.
  2:{ cbn. split; [auto | intros _ []]. }
  assert (Hi : pick k mod length inflight < length inflight)
    by (eapply lookup_lt_Some; eauto).
  pose proof (insert_take_drop inflight (pick k mod length inflight)) as Hins.
  pose proof (delete_take_drop inflight (pick k mod length inflight)) as Hdel.
  pose proof (take_drop_middle _ _ _ Hlookup) as Hsplit.
  rewrite Hdel. clear Hdel. revert Hins Hsplit.
  generalize (take (pick k mod length inflight) inflight) as l1.
  generalize (drop (S (pick k mod length inflight)) inflight) as l2.
  intros l2 l1 Hins Hsplit.
  rewrite bind_res, bind_events.
  generalize (world (pool_resume resume location_of t w)) as w1. intros w1.
  unfold pool_resume.
  rewrite bind_res, bind_events, try_catch_res, try_catch_events.
  destruct (doomed_dec t) as [Ht|Ht].
  { destruct (resume_doomed t w Ht) as [e ->]. exact I. }
  pose proof (resume_clean t w Ht) as Hclean.
  destruct (res (resume t w)) as [[t'|]|e];
    cbn [emit bind ret throw res events world List.app fst snd]; [| |exact I].
  - rewrite !app_nil_r, (Hins t' Hi). split.
    + intros H. rewrite <- Hsplit in H. apply Exists_app.
      apply (doomed_elsewhere _ _ _ H) in Ht. apply Exists_app in Ht.
      destruct Ht as [Ht|Ht]; [auto | right; apply Exists_cons_tl, Ht].
    + intros _ Hin. destruct (Hclean Hin) as [[e He]|(t'' & [= <-] & Hd)];
        [discriminate He|].
      apply Exists_app. right. apply Exists_cons_hd, Hd.
  - rewrite app_nil_r.
    destruct (pool_fill_clean queue (l1 ++ l2) w1) as [Hev Hst].
    destruct (res (pool_fill mapper concurrency queue (l1 ++ l2) w1)) as [st|e];
      [|exact I].
    destruct (Hst st eq_refl) as [Hyes Hno]. split.
    + intros H. rewrite <- Hsplit in H. apply Hyes. eapply doomed_elsewhere; eauto.
    + intros _ Hin. exfalso.
      apply in_app_or in Hin. destruct Hin as [Hin|Hin]; [|exact (Hev Hin)].
      apply in_app_or in Hin. destruct Hin as [Hin|[Hin|[]]].
      * destruct (Hclean Hin) as [[e He]|(t'' & He & _)]; discriminate He.
      * exact (X_settled _ _ (eq_sym Hin)).
Qed.

Lemma pool_run_doomed fuel k queue inflight w :
  Exists doomed inflight ->
  exists e,
    res (pool_run mapper resume location_of pick concurrency fuel k queue inflight w)
    = Throw e.
Proof.
  revert k queue inflight w. induction fuel as [|fuel IH];
    intros k queue inflight w Hd; destruct inflight as [|t inflight];
    cbn [pool_run]; try (apply Exists_nil in Hd; destruct Hd); [cbn; eauto|].
  rewrite bind_res.
  pose proof (pool_step_clean k queue (t :: inflight) w) as Hstep.
  destruct (res (pool_step _ _ _ _ _ _ _ _ _)) as [st|e]; [|eauto].
  apply IH. apply (proj1 Hstep), Hd.
Qed.

Lemma pool_run_clean fuel k queue inflight w :
  Forall (fun t => ~ doomed t) inflight ->
  In X (events (pool_run mapper resume location_of pick concurrency fuel k
                  queue inflight w)) ->
  exists e,
    res (pool_run mapper resume location_of pick concurrency fuel k queue inflight w)
    = Throw e.
Proof.
  revert k queue inflight w. induction fuel as [|fuel IH];
    intros k queue inflight w Hclean; destruct inflight as [|t inflight];
    cbn [pool_run]; try (intros []).
  rewrite bind_res, bind_events.
  pose proof (pool_step_clean k queue (t :: inflight) w) as Hstep.
  destruct (res (pool_step _ _ _ _ _ _ _ _ _)) as [st|e]; [|eauto].
  destruct Hstep as [_ Hstep]. intros Hin.
  destruct (List.Exists_dec doomed st.2 doomed_dec) as [Hd|Hd].
  - apply pool_run_doomed, Hd.
  - apply IH.
    + apply Forall_forall. intros t' Ht' Hdoomed. apply Hd, Exists_exists. eauto.
    + apply in_app_or in Hin. destruct Hin as [Hin|Hin]; [|exact Hin].
      destruct (Hd (Hstep Hclean Hin)).
Qed.

Lemma pMap_clean fuel input :
  fatal X (fun _ => True)
    (pMap mapper resume location_of pick concurrency fuel input).
Proof.
  intros w. unfold pMap. destruct (concurrency =? 0); [intros []|].
  rewrite bind_res, bind_events.
  destruct (pool_fill_clean input [] w) as [Hev Hst].
  destruct (res (pool_fill mapper concurrency input [] w)) as [st|e].
  - intros Hin. apply in_app_or in Hin. destruct Hin as [Hin|Hin]; [destruct (Hev Hin)|].
    destruct (Hst st eq_refl) as [_ Hno].
    destruct (pool_run_clean _ _ _ _ _ (Hno ltac:(constructor)) Hin) as [e He].
    eauto.
  - rewrite app_nil_r. intros Hin. destruct (Hev Hin).
Qed.
End PoolDoomed.

Lemma writeFile_outcome h p contents w :
  res (writeFile h p contents w)
  = Ok (match fault h (OpWriteFile p) with
        | Some e => Throw e
        | None => Ok tt
        end).
Proof. unfold writeFile, bind, emit. destruct (fault h (OpWriteFile p)); reflexivity. Qed.

(** When the map of line 111 returns, a write that failed is among the
    promises it hands to [Promise.all]. *)
Lemma failed_write_rejects h config files w writes p contents e :
  res (mapM (fun file =>
               decoded <- await (decodeURIComponent (file_path file)) ;;
               writeFile h (path_join (outdir config) decoded) (file_contents file))
            files w) = Ok writes ->
  In (WriteFile p contents) (write_calls (outdir config) files) ->
  fault h (OpWriteFile p) = Some e ->
  exists e', Promise_all writes = Throw e'.
Proof.
  intros Hres Hin Hfault. revert w writes Hres Hin.
  induction files as [|file files IH]; intros w writes Hres Hin; [destruct Hin|].
  cbn [mapM] in Hres. cbn [write_calls] in Hin.
  rewrite bind_res, bind_res in Hres. cbn [await res world] in Hres.
  destruct (decodeURIComponent (file_path file)) as [decoded|e0]; [|discriminate Hres].
  rewrite writeFile_outcome, bind_res in Hres.
  destruct (res (mapM _ files _)) as [writes'|e0] eqn:Hrest; [|discriminate Hres].
  cbn [ret res] in Hres. injection Hres as <-.
  destruct Hin as [[= <- <-]|Hin].
  - rewrite Hfault. cbn. eauto.
  - destruct (IH _ _ Hrest Hin) as [e' He']. cbn [Promise_all].
    rewrite He'.
    destruct (fault h (OpWriteFile (path_join (outdir config) decoded))); eauto.
Qed.

Lemma fanout_failed_write h config app assets phenomicFetch urls p contents e :
  fault h (OpWriteFile p) = Some e ->
  fatal (WriteFile p contents) (fun _ => True)
    (fanout h config app assets phenomicFetch urls).
Proof.
  intros Hfault. unfold fanout.
  apply (pMap_clean _ _ _ _ _ _ write_failed).
  - intros [location pending|location [written|e']]; cbn; auto.
  - intros location. discriminate.
  - intros location fulfilled. discriminate.
  - intros location w. unfold prerenderFileAndDependencies, capability.
    destruct (head _) as [renderer|];
      [|split; [intros [H|[]]; discriminate H | discriminate]].
    destruct (Plugin.renderStatic renderer) as [renderStatic|];
      [|split; [intros [H|[]]; discriminate H | discriminate]].
    cbn. split; [intros [H|[H|[]]]; discriminate H|].
    intros t [= <-]. auto.
  - intros [location pending|location [written|e']] w; cbn; try tauto.
    intros _. eauto.
  - intros [location pending|location written] w Hclean; cbn [prerender_resume].
    + rewrite bind_events, bind_res. cbn [await res events world List.app].
      destruct pending as [files|e']; [|intros []].
      rewrite bind_events, bind_res. cbn [debug emit res events world List.app].
      rewrite bind_events, bind_res, write_calls_run.
      intros [Hin|Hin]; [discriminate Hin|].
      destruct (res (mapM _ files w)) as [writes|e'] eqn:Hmap; [|eauto].
      right. cbn [ret res events] in Hin |- *. rewrite app_nil_r in Hin.
      destruct (failed_write_rejects _ _ _ _ _ _ _ _ Hmap Hin Hfault) as [e' He'].
      eexists. split; [reflexivity|]. rewrite He'. exact I.
    + rewrite bind_events. cbn [await res events world List.app].
      destruct written; intros [].
Qed.

(** X20: a write that fails is not ignored: when [writeFile] was called
    for a path at which the write fails, the build fails. *)
Theorem failed_write_fails_the_build h config w p contents e :
  In (WriteFile p contents) (events (build h config w)) ->
  fault h (OpWriteFile p) = Some e ->
  exists e', res (build h config w) = Throw e'.
Proof.
  intros Hin Hfault.
  destruct (prerender_event_in_fanout _ _ _ _ Hin eq_refl ltac:(discriminate))
    as (port & assets & app & urls & w' & _ & _ & _ & Hres & Hfan).
  rewrite Hres.
  destruct (fanout_failed_write h config app assets (fetch_at port) urls
              p contents e Hfault w' Hfan) as (e' & He' & _).
  eauto.
Qed.

Lemma failed_write_witness :
  exists e, res (build Demo.host_disk_full (Demo.site ["/"]) Demo.world) = Throw e.
Proof.
  apply (failed_write_fails_the_build Demo.host_disk_full (Demo.site ["/"])
           Demo.world "dist/.html" "<html>" Demo.disk_full).
  - in_trace.
  - reflexivity.
Defined.

(** X4: after a build that succeeds, a path for which [writeFile] was
    called once, and only once, holds the contents given to that call.
    (Two calls for one path are left out: the order in which their writes
    land is not modelled.) *)
Theorem written_once_is_on_disk h config w tr1 tr2 p contents :
  res (build h config w) = Ok tt ->
  events (build h config w) = tr1 ++ WriteFile p contents :: tr2 ->
  unwritten p tr1 ->
  unwritten p tr2 ->
  fs (world (build h config w)) !! p = Some contents.
Proof.
  intros Hok Hev _ Hlater.
  apply (replay_last_write h config w tr1 tr2 p contents Hev Hlater).
  destruct (fault h (OpWriteFile p)) as [e|] eqn:Hfault; [exfalso|reflexivity].
  assert (Hin : In (WriteFile p contents) (events (build h config w)))
    by (rewrite Hev; apply in_or_app; right; left; reflexivity).
  destruct (prerender_event_in_fanout _ _ _ _ Hin eq_refl ltac:(discriminate))
    as (port & assets & app & urls & w' & _ & _ & _ & Hres & Hfan).
  destruct (fanout_failed_write h config app assets (fetch_at port) urls
              p contents e Hfault w' Hfan) as (e' & He' & _).
  congruence.
Qed.

Lemma written_once_witness :
  fs (world (build Demo.host (Demo.site ["index"]) Demo.world))
  !! "dist/index.html" = Some "<html>".
Proof.
  apply (written_once_is_on_disk Demo.host (Demo.site ["index"]) Demo.world
           (take 29 (events (build Demo.host (Demo.site ["index"]) Demo.world)))
           (drop 30 (events (build Demo.host (Demo.site ["index"]) Demo.world)))).
  - vm_compute. reflexivity.
  - vm_compute. reflexivity.
  - apply unwritten_by_decision. vm_compute. reflexivity.
  - apply unwritten_by_decision. vm_compute. reflexivity.
Defined.

(** ** The second check of the bundler *)

Lemma first_with_has {A} (cap : Plugin.t -> option A) config p :
  first_with cap config p -> exists f, cap p = Some f.
Proof.
  intros (_ & _ & _ & Hp & _). destruct (cap p) as [f|]; [eauto | discriminate Hp].
Qed.

Lemma build_try_app_bundle h config port w :
  after (Console CClientBuildDone)
    (fun o => exists plugin, In (BuildForPrerendering plugin) (events o))
    (build_try h config port w).
Proof.
  unfold build_try. cbv zeta.
  assert (HS : Skippable (fun ev => ev <> Console CClientBuildDone)
                 (after (Console CClientBuildDone)
                    (fun o : Out unit =>
                       exists plugin, In (BuildForPrerendering plugin) (events o)))).
  { apply after_skippable. intros o pre _ [plugin H]. exists plugin.
    cbn [events]. apply in_or_app. auto. }
  repeat skip_step HS ltac:(phase_leaf).
  intros _.
  match goal with
  | H : res (capability _ Plugin.build _ _) = Ok ?a |- _ =>
      apply capability_ok in H; destruct H as [Hhead _];
      destruct (first_with_has _ _ _ (head_filter_first _ _ _ Hhead)) as [f Hf];
      exists (Plugin.name a.1)
  end.
  rewrite Hhead, bind_events. cbn [console_log emit res events world List.app].
  right. rewrite bind_events, (capability_some _ _ _ _ _ Hf).
  cbn [res events world List.app]. rewrite bind_events. left. reflexivity.
Qed.

(** X21: once the client bundle is built, [buildForPrerendering] is
    always called: the second check of the bundler (line 149) cannot fail,
    since the bundler was chosen among the plugins that have
    [buildForPrerendering]. *)
Theorem app_bundle_always_follows_client_bundle h config w :
  In (Console CClientBuildDone) (events (build h config w)) ->
  exists plugin, In (BuildForPrerendering plugin) (events (build h config w)).
Proof.
  intros Hin. apply in_build_try in Hin; [|simpl; lia].
  destruct Hin as (port & Hport & Hin).
  destruct (build_try_app_bundle _ _ _ _ Hin) as [plugin Hcall].
  exists plugin. rewrite (build_events _ _ _ _ Hport).
  apply in_or_app. right. apply in_or_app. left. exact Hcall.
Qed.

Lemma app_bundle_witness :
  exists plugin,
    In (BuildForPrerendering plugin)
       (events (build Demo.host (Demo.config_of "dist" [Demo.bundler]) Demo.world)).
Proof. apply app_bundle_always_follows_client_bundle. in_trace. Defined.

(** ** What is done at one place is done at most once, and in order *)

Lemma positions_app t1 t2 : positions (t1 ++ t2) = positions t1 ++ positions t2.
Proof. unfold positions. rewrite omap_app, map_app. reflexivity. Qed.

Lemma positions_none tr :
  Forall (fun ev => single_of ev = None) tr -> positions tr = [].
Proof.
  unfold positions. induction 1 as [|ev tr Hev _ IH]; [reflexivity|].
  cbn [omap list_omap]. rewrite Hev. exact IH.
Qed.

Lemma ascending_weaken r r' l : r <= r' -> ascending_from r' l -> ascending_from r l.
Proof. destruct l as [|x l]; cbn; [auto|]. intros Hr [Hx Hl]. split; [lia | exact Hl]. Qed.

Lemma ascending_app r r' l1 l2 :
  ascending_from r l1 ->
  Forall (fun x => x < r') l1 ->
  r <= r' ->
  ascending_from r' l2 ->
  ascending_from r (l1 ++ l2).
Proof.
  revert r. induction l1 as [|x l1 IH]; intros r H1 Hlt Hr H2; cbn [List.app].
  - apply (ascending_weaken _ r'); assumption.
  - destruct H1 as [Hx H1]. apply Forall_cons in Hlt. destruct Hlt as [Hxr Hlt].
    split; [exact Hx|]. apply IH; [exact H1 | exact Hlt | lia | exact H2].
Qed.

Lemma in_source_order_skippable {B} r :
  Skippable (fun ev => single_of ev = None) (@in_source_order B r).
Proof.
  split; unfold in_source_order; cbn [events].
  - intros _ _ ev Hev. rewrite (positions_none _ Hev). exact I.
  - intros o pre Hpre Ho. rewrite positions_app, (positions_none _ Hpre). exact Ho.
Qed.

(** A step whose single calls and lines are in order, at the positions
    from [r] to below [r']. *)
Lemma in_source_order_bind {A B} r r' (m : M A) (f : A -> M B) w :
  ascending_from r (positions (events (m w))) ->
  Forall (fun x => x < r') (positions (events (m w))) ->
  r <= r' ->
  (forall a, res (m w) = Ok a -> in_source_order r' (f a (world (m w)))) ->
  in_source_order r (bind m f w).
Proof.
  intros Hm Hlt Hr Hf. unfold in_source_order. rewrite bind_events, positions_app.
  apply (ascending_app r r'); [exact Hm | exact Hlt | exact Hr |].
  destruct (res (m w)) as [a|e]; [apply Hf; reflexivity | exact I].
Qed.

Lemma fanout_singles h config renderer app assets phenomicFetch fuel urls :
  emits (fun ev => single_of ev = None)
    (pMap (fun location =>
             prerenderFileAndDependencies config renderer app assets
               phenomicFetch location)
          (prerender_resume h config) prerender_location (settles h)
          50 fuel urls).
Proof.
  apply pMap_emits.
  - intros location. reflexivity.
  - intros location fulfilled. reflexivity.
  - intros location. unfold prerenderFileAndDependencies, capability, debug.
    emits_tac; reflexivity.
  - intros t. unfold prerender_resume, writeFile, debug.
    emits_tac; reflexivity.
Qed.

Lemma process_calls_positions files : positions (process_calls files) = [].
Proof.
  apply positions_none. unfold process_calls.
  induction files; constructor; [reflexivity | assumption].
Qed.

Lemma getContent_positions h config w :
  ascending_from 9 (positions (events (getContent h config w))) /\
  Forall (fun x => x < 12) (positions (events (getContent h config w))).
Proof.
  destruct (provides_or_lacks Plugin.transform config) as [Ht|Ht].
  2:{ rewrite (getContent_without_transform _ _ _ Ht). split; [exact I | constructor]. }
  destruct (provides_or_lacks Plugin.collect config) as [Hc|Hc].
  2:{ rewrite (getContent_without_collector _ _ _ Ht Hc). split; [exact I | constructor]. }
  rewrite (getContent_run h config w Ht Hc). cbv zeta.
  destruct (getPath h _) as [cp|e];
    [destruct (truthy cp); [destruct (fault h OpDbDestroy)|]|];
    cbn [events]; rewrite ?positions_app, ?process_calls_positions;
    cbn [positions omap list_omap single_of map position List.app ascending_from];
    (split; [repeat split; lia | repeat constructor; lia]).
Qed.

(** Skips a step without a single call or line; the fan-out is such a
    step. *)
Ltac source_skip :=
  lazymatch goal with
  | |- in_source_order ?r (bind (pMap ?a ?b ?c ?d ?e ?g ?i) ?f ?w') =>
      apply (bind_skip _ (in_source_order r) (pMap a b c d e g i) f w'
               (@in_source_order_skippable unit r));
      [ apply fanout_singles | intros ? _; cbv beta ]
  | |- in_source_order ?r (bind ?m ?f ?w') =>
      first
        [ skip_step (@in_source_order_skippable unit r) ltac:(reflexivity)
        | skip_step (@in_source_order_skippable nat r) ltac:(reflexivity) ]
  end.

(** The events of a step that makes single calls. *)
Ltac source_unit :=
  first
    [ apply getContent_positions
    | unfold rimraf_sync, createServer, listen, guard, console_log, debug,
        bind, emit;
      repeat match goal with
             | |- context [fault ?h ?op] => destruct (fault h op)
             | |- context [if ?c then _ else _] => destruct c
             end;
      cbn [res world events List.app positions omap list_omap single_of map
           position ascending_from ret throw];
      repeat first [exact I | constructor | lia] ].

(** A step that makes the single calls of the positions from [r] to below
    [r']. *)
Ltac source_step_to r' :=
  lazymatch goal with
  | |- in_source_order ?r (bind ?m ?f ?w') =>
      apply (in_source_order_bind r r' m f w');
      [ first [apply (proj1 (getContent_positions _ _ _)) | source_unit]
      | first [apply (proj2 (getContent_positions _ _ _)) | source_unit]
      | lia
      | let a := fresh "a" in let Ha := fresh "Ha" in
        let w'' := fresh "w" in
        intros a Ha; cbv beta;
        set (w'' := world (m w')) in |- *; clearbody w'' ]
  end.

Ltac source_step :=
  lazymatch goal with
  | |- in_source_order ?r (bind (getContent _ _) _ _) => source_step_to 12
  | |- in_source_order ?r _ => source_step_to (S r)
  end.

Lemma build_start_source_order h config w :
  in_source_order 0 (build_start h config w).
Proof.
  unfold build_start. repeat first [source_skip | source_step].
  exact I.
Qed.

Lemma build_try_source_order h config port w :
  in_source_order 5 (build_try h config port w).
Proof.
  unfold build_try. cbv zeta. repeat first [source_skip | source_step].
  exact I.
Qed.

Lemma build_source_order h config w :
  ascending_from 0 (positions (events (build h config w))).
Proof.
  assert (Hstart : Forall (fun x => x < 5) (positions (events (build_start h config w)))).
  { assert (H : emits (fun ev => match single_of ev with
                                 | Some s => position s < 5
                                 | None => True
                                 end) (build_start h config))
      by (emits_parts ltac:(first [exact I | cbn; lia])).
    specialize (H w). unfold positions.
    induction H as [|ev tr Hev _ IH]; [constructor|].
    cbn [omap list_omap]. destruct (single_of ev); [constructor; assumption | exact IH]. }
  destruct (res (build_start h config w)) as [port|e] eqn:E.
  - rewrite (build_events _ _ _ _ E), !positions_app.
    apply (ascending_app 0 5);
      [apply build_start_source_order | exact Hstart | lia |].
    rewrite (positions_none
               (match res (build_try h config port (world (build_start h config w))) with
                | Ok _ => []
                | Throw _ => [Close; Debug DServerClosedDueToError]
                end)), app_nil_r.
    + apply build_try_source_order.
    + destruct (res (build_try _ _ _ _)); repeat constructor.
  - rewrite (build_events_failed_start _ _ _ _ E). apply build_start_source_order.
Qed.

Lemma ascending_occurrences s r tr :
  ascending_from r (positions tr) ->
  occurrences s tr <= 1 /\ (position s < r -> occurrences s tr = 0).
Proof.
  unfold positions, occurrences. revert r.
  induction tr as [|ev tr IH]; intros r Hasc; [cbn; auto|].
  cbn [omap list_omap List.filter] in Hasc |- *.
  destruct (single_of ev) as [s0|] eqn:Hev.
  - cbn [map ascending_from] in Hasc. destruct Hasc as [Hr Hasc].
    destruct (IH _ Hasc) as [Hle Hzero].
    destruct (decide (s0 = s)) as [->|Hne].
    + rewrite bool_decide_eq_true_2 by reflexivity. cbn [length].
      rewrite Hzero by lia. split; [lia | intros; lia].
    + rewrite bool_decide_eq_false_2 by congruence.
      split; [exact Hle | intros; apply Hzero; lia].
  - rewrite bool_decide_eq_false_2 by discriminate. apply IH, Hasc.
Qed.

(** X22: the calls and the console lines that the command makes at one
    place (the greeting, [rimraf.sync], [createServer], [getPort],
    [listen], [build] of the bundler, "client build done",
    [buildForPrerendering], "static build done", [getPath], [oneShot],
    [db.destroy], "content processed", [getRoutes], [resolveURLs], the
    warning about the routes, "pre-rendering finished") occur in every run
    in this order, and each of them at most once. *)
Theorem single_calls_keep_the_source_order h config w :
  ascending_from 0 (positions (events (build h config w))) /\
  forall s, occurrences s (events (build h config w)) <= 1.
Proof.
  pose proof (build_source_order h config w) as Hasc.
  split; [exact Hasc|]. intros s.
  apply (ascending_occurrences s 0 _ Hasc).
Qed.
